(** * whisper-transcriber: the batch orchestrator, embedded and verified

    A shallow embedding of [src/BatchProcessor.js] and of the two methods of
    [src/WhisperTranscriber.js] it calls ([getAudioInfo], [transcribe]).
    Further down: [transcribeBatch], the display strings of [getAudioInfo]
    ([formatDuration], [formatFileSize]), two helpers of the page
    ([public/app.js]) and the upload route of the server.

    - JavaScript values coming out of [JSON.parse] are the inductive
      [JsValue]; numbers are [JsNum], binary64 values written [m * 2^e]
      with the division rounded to nearest-even as IEEE 754 prescribes.
    - A function that can throw returns [Exc A]; the error carries
      [error.message].
    - The external tools (ffprobe, whisper, the file system, the clock) are
      a record of recorded behaviours, one per job invocation ([JobWorld]).
    - The event loop is an explicit log of effects ([Event]): a job is
      launched, settles with a result or an error, the batch is aborted. *)

From Stdlib Require Import Ascii String ZArith Lia.
From stdpp Require Import base list strings pretty.

Open Scope string_scope.
Open Scope list_scope.
Open Scope Z_scope.

(** ** Exceptions *)

Inductive Exc (A : Type) : Type :=
| Ok (a : A)
| Throw (message : string).
Arguments Ok {A} a.
Arguments Throw {A} message.

Definition bindE {A B} (x : Exc A) (k : A -> Exc B) : Exc B :=
  match x with
  | Ok a => k a
  | Throw m => Throw m
  end.

Notation "x <-! e ;; k" := (bindE e (fun x => k))
  (at level 100, e at next level, right associativity).

(** ** Numbers

    A finite double is [Fin m e], the value [m * 2^e].  The two zeros are
    not told apart: no rendering done by the code below depends on the sign
    of a zero ([(-0).toFixed(2)] is ["0.00"]). *)

Inductive JsNum : Type :=
| NaN
| PInf
| NInf
| Fin (m e : Z).

Definition of_Z (z : Z) : JsNum := Fin z 0.

(** [round_pos n d] is the double nearest to [n / d] for [0 < n], [0 < d]:
    53 significant bits, ties to even, gradual underflow below [2^-1022],
    overflow to infinity from [2^1024 - 2^970] on. *)
Definition round_pos (n d : Z) : JsNum :=
  let l := Z.log2 n - Z.log2 d in
  let fl := if (if 0 <=? l then d * 2 ^ l <=? n else d <=? n * 2 ^ (- l))
            then l else l - 1 in
  let e := Z.max (fl - 52) (-1074) in
  let num := if 0 <=? e then n else n * 2 ^ (- e) in
  let den := if 0 <=? e then d * 2 ^ e else d in
  let q := num / den in
  let r := num mod den in
  let m := if (den <? 2 * r) || ((2 * r =? den) && Z.odd q)
           then q + 1 else q in
  if (971 <? e) || ((e =? 971) && (2 ^ 53 <=? m)) then PInf else Fin m e.

(** [2^fl <= n / d < 2^(fl + 1)], without fractions *)
Definition bracket (n d fl : Z) : Prop :=
  if 0 <=? fl then d * 2 ^ fl <= n < d * 2 ^ (fl + 1)
  else d <= n * 2 ^ (- fl) /\ n * 2 ^ (- fl) < 2 * d.

Definition neg (x : JsNum) : JsNum :=
  match x with
  | NaN => NaN
  | PInf => NInf
  | NInf => PInf
  | Fin m e => Fin (- m) e
  end.

(** The rational [n / d], any signs, [d <> 0]. *)
Definition round_rat (n d : Z) : JsNum :=
  if n =? 0 then Fin 0 0
  else if (0 <? n) && (0 <? d) then round_pos n d
  else if (n <? 0) && (d <? 0) then round_pos (- n) (- d)
  else neg (round_pos (Z.abs n) (Z.abs d)).

Definition sign_of (x : JsNum) : Z :=
  match x with
  | NaN => 0
  | PInf => 1
  | NInf => -1
  | Fin m _ => Z.sgn m
  end.

(** [x / y] on doubles. *)
Definition fdiv (x y : JsNum) : JsNum :=
  match x, y with
  | NaN, _ | _, NaN => NaN
  | Fin m1 e1, Fin m2 e2 =>
      if m2 =? 0 then
        (if m1 =? 0 then NaN else if 0 <? m1 then PInf else NInf)
      else
        (* m1 * 2^e1 / (m2 * 2^e2) as a quotient of integers *)
        let k := e1 - e2 in
        if 0 <=? k then round_rat (m1 * 2 ^ k) m2
        else round_rat m1 (m2 * 2 ^ (- k))
  | Fin m _, (PInf | NInf) => Fin 0 0
  | (PInf | NInf), (PInf | NInf) => NaN
  | PInf, Fin m _ => if m <? 0 then NInf else PInf
  | NInf, Fin m _ => if m <? 0 then PInf else NInf
  end.

(** [n] in decimal, left-padded with zeros to at least [w] digits. *)
Fixpoint zeros (k : nat) : string :=
  match k with
  | O => ""
  | S k' => "0" +:+ zeros k'
  end.

Definition pad_digits (w : nat) (n : Z) : string :=
  let s := pretty (Z.to_N n) in
  zeros (w - String.length s) +:+ s.

(** [Number.prototype.toFixed(f)] for a finite [|x| < 10^21]: the integer
    [n] nearest to [|x| * 10^f], the larger one on a tie. *)
Definition fixed_units (m e : Z) (f : nat) : Z :=
  let num := Z.abs m * 10 ^ Z.of_nat f in
  if 0 <=? e then num * 2 ^ e
  else (2 * num + 2 ^ (- e)) / (2 * 2 ^ (- e)).

Definition render_fixed (negative : bool) (n : Z) (f : nat) : string :=
  let s := pad_digits (S f) n in
  let k := (String.length s - f)%nat in
  (if negative then "-" else "") +:+
  (if Nat.eqb f 0 then s
   else String.substring 0 k s +:+ "." +:+ String.substring k f s).

Definition below_1e21 (m e : Z) : bool :=
  if 0 <=? e then Z.abs m * 2 ^ e <? 10 ^ 21
  else Z.abs m <? 10 ^ 21 * 2 ^ (- e).

(** ** Values

    What [JSON.parse] can return, plus [undefined] for a missing property.
    An object is the list of its own properties; a read takes the first
    entry of a key. *)

#[warnings="-register-all"]
Inductive JsValue : Type :=
| VUndefined
| VNull
| VBool (b : bool)
| VNum (n : JsNum)
| VStr (s : string)
| VArr (items : list JsValue)
| VObj (props : list (string * JsValue)).

Fixpoint assoc {A} (k : string) (kv : list (string * A)) : option A :=
  match kv with
  | [] => None
  | (k', v) :: rest => if String.eqb k k' then Some v else assoc k rest
  end.

(** [v.name], for the property names the sources read ([streams],
    [format], [duration], [text], ...): none of them is a built-in member
    of an array, a string, a number or a boolean, so those give
    [undefined]; [null] and [undefined] raise a TypeError. *)
Definition get_prop (v : JsValue) (name : string) : Exc JsValue :=
  match v with
  | VUndefined => Throw ("Cannot read properties of undefined (reading '" +:+ name +:+ "')")
  | VNull => Throw ("Cannot read properties of null (reading '" +:+ name +:+ "')")
  | VObj props => Ok (default VUndefined (assoc name props))
  | _ => Ok VUndefined
  end.

(** [v?.name] *)
Definition get_prop_opt (v : JsValue) (name : string) : JsValue :=
  match get_prop v name with
  | Ok x => x
  | Throw _ => VUndefined
  end.

(** [if (v)]: the falsy values are [undefined], [null], [false], [0],
    [NaN] and the empty string. *)
Definition truthy (v : JsValue) : bool :=
  match v with
  | VUndefined | VNull => false
  | VBool b => b
  | VNum NaN => false
  | VNum (Fin m _) => negb (m =? 0)
  | VNum _ => true
  | VStr s => negb (String.eqb s "")
  | VArr _ | VObj _ => true
  end.

(** [v === false] *)
Definition is_false (v : JsValue) : bool :=
  match v with
  | VBool false => true
  | _ => false
  end.

(** [v === s] for a string literal [s] *)
Definition is_string (v : JsValue) (s : string) : bool :=
  match v with
  | VStr s' => String.eqb s' s
  | _ => false
  end.

(** ** The platform

    The built-ins of the JavaScript runtime that the sources call and that
    are not re-implemented here, and the one platform default the sources
    rely on.  Every definition below is a function of them. *)

Class JsBuiltins : Type := {
  (** [JSON.parse(text)] *)
  JSON_parse : string -> Exc JsValue;
  (** [parseFloat(v)] and [parseInt(v)] *)
  parseFloat : JsValue -> JsNum;
  parseInt : JsValue -> JsNum;
  (** [Number.prototype.toString], used by template literals and by
      [toFixed] from [10^21] on *)
  Number_toString : JsNum -> string;
  (** the default of the glob package's [nocase] option: case-insensitive
      matching on macOS and Windows, case-sensitive elsewhere *)
  glob_nocase : bool
}.

Arguments round_pos : simpl never.
Arguments round_rat : simpl never.
Arguments fdiv : simpl never.
Arguments fixed_units : simpl never.
Arguments render_fixed : simpl never.
Arguments below_1e21 : simpl never.

Section Builtins.
Context `{B : JsBuiltins}.

(** [x.toFixed(f)] *)
Definition toFixed (x : JsNum) (f : nat) : string :=
  match x with
  | NaN => "NaN"
  | PInf => "Infinity"
  | NInf => "-Infinity"
  | Fin m e =>
      if below_1e21 m e
      then render_fixed (m <? 0) (fixed_units m e f) f
      else Number_toString x
  end.

End Builtins.

Arguments toFixed : simpl never.

(** ** Options and the two constructors

    [concurrency] is an integer and [outputDir] a string, as the
    configuration prescribes; [continueOnError] is any value, since the
    constructor compares it with [false] and nothing else.  [None] and
    [VUndefined] stand for a property that is not given. *)

Record Options : Type := {
  opt_modelSize : option string;
  opt_language : option string;
  opt_device : option string;
  opt_verbose : option bool;
  opt_concurrency : option Z;
  opt_outputDir : option string;
  opt_continueOnError : JsValue
}.

(** [{}] *)
Definition no_options : Options :=
  {| opt_modelSize := None; opt_language := None; opt_device := None;
     opt_verbose := None; opt_concurrency := None; opt_outputDir := None;
     opt_continueOnError := VUndefined |}.

(** [o || d] on strings, integers and booleans *)
Definition or_string (o : option string) (d : string) : string :=
  match o with
  | Some s => if String.eqb s "" then d else s
  | None => d
  end.

Definition or_int (o : option Z) (d : Z) : Z :=
  match o with
  | Some z => if z =? 0 then d else z
  | None => d
  end.

Definition or_bool (o : option bool) (d : bool) : bool :=
  match o with
  | Some b => if b then b else d
  | None => d
  end.

Module WhisperTranscriber.

Record t : Type := {
  modelSize : string;
  language : string;
  device : string;
  verbose : bool
}.

Definition constructor (options : Options) : t :=
  {| modelSize := or_string (opt_modelSize options) "base";
     language := or_string (opt_language options) "en";
     device := or_string (opt_device options) "cpu";
     verbose := or_bool (opt_verbose options) false |}.

(** What the outside world does during one job: the ffprobe run, the
    access check on the audio file, the whisper run, the read of the
    JSON artifact whisper wrote, and the milliseconds [Date.now()]
    advanced by between the two readings around [transcribe]. *)
Record JobWorld : Type := {
  probe : Exc string;
  audioExists : bool;
  whisperRun : Exc unit;
  artifact : Exc string;
  elapsedMs : Z
}.

(** The object [getAudioInfo] returns, without its two display strings
    ([duration], [sizeFormatted]), which nothing in the batch reads. *)
Record AudioInfo : Type := {
  durationSeconds : JsNum;
  codec : JsValue;
  sampleRate : JsValue;
  channels : JsValue;
  bitrate : JsValue;
  size : JsNum
}.

Section WithBuiltins.
Context `{B : JsBuiltins}.

(** [streams.find(s => s.codec_type === 'audio')] on an array *)
Fixpoint find_audio (streams : list JsValue) : Exc JsValue :=
  match streams with
  | [] => Ok VUndefined
  | s :: rest =>
      ct <-! get_prop s "codec_type";;
      if is_string ct "audio" then Ok s else find_audio rest
  end.

(** [info.streams.find(...)]: only an array has a [find] to call. *)
Definition streams_find (streams : JsValue) : Exc JsValue :=
  match streams with
  | VArr items => find_audio items
  | VUndefined => Throw "Cannot read properties of undefined (reading 'find')"
  | VNull => Throw "Cannot read properties of null (reading 'find')"
  | _ => Throw "info.streams.find is not a function"
  end.

(** The body of the [try] block of [getAudioInfo]. *)
Definition getAudioInfo_try (w : JobWorld) (audioPath : string) : Exc AudioInfo :=
  stdout <-! probe w;;
  info <-! JSON_parse stdout;;
  streams <-! get_prop info "streams";;
  audioStream <-! streams_find streams;;
  format <-! get_prop info "format";;
  raw <-! get_prop format "duration";;
  let duration := parseFloat raw in
  Ok {| durationSeconds := duration;
        codec := get_prop_opt audioStream "codec_name";
        sampleRate := get_prop_opt audioStream "sample_rate";
        channels := get_prop_opt audioStream "channels";
        bitrate := get_prop_opt format "bit_rate";
        size := parseInt (get_prop_opt format "size") |}.

(** [try { ... } catch (error) { return null; }] *)
Definition getAudioInfo (w : JobWorld) (audioPath : string) : Exc (option AudioInfo) :=
  match getAudioInfo_try w audioPath with
  | Ok info => Ok (Some info)
  | Throw _ => Ok None
  end.

(** [transcribe(audioPath, { outputFormat, outputDir })].  The command
    line only selects which external run takes place; the run itself is
    [whisperRun w]. *)
Definition transcribe (w : JobWorld) (audioPath : string) (outputFormat : string)
  : Exc JsValue :=
  if negb (audioExists w) then Throw ("Audio file not found: " +:+ audioPath)
  else
    match
      (_ <-! whisperRun w;;
       if String.eqb outputFormat "json"
       then (content <-! artifact w;; JSON_parse content)
       else Ok (VObj [("success", VBool true);
                      ("message", VStr "Transcription saved")]))
    with
    | Ok v => Ok v
    | Throw m => Throw ("Transcription error: " +:+ m)
    end.
End WithBuiltins.

End WhisperTranscriber.

(** ** Arrays *)

(** [items.slice(start, end)]: a negative index counts from the end, and
    both are clamped to the array. *)
Definition slice {A} (items : list A) (start stop : Z) : list A :=
  let len := Z.of_nat (length items) in
  let k := if start <? 0 then Z.max (len + start) 0 else Z.min start len in
  let final := if stop <? 0 then Z.max (len + stop) 0 else Z.min stop len in
  take (Z.to_nat (final - k)) (drop (Z.to_nat k) items).

(** ** The order in which the jobs of a group settle

    All jobs of a group are started together and settle one at a time, in
    an order the code does not control.  [choose n] says which of the jobs
    still in flight settles when [S n] of them are left. *)

Fixpoint take_out {A} (k : nat) (l : list A) {struct l} : option (A * list A) :=
  match l with
  | [] => None
  | x :: l' =>
      match k with
      | O => Some (x, l')
      | S k' =>
          match take_out k' l' with
          | Some (y, r) => Some (y, x :: r)
          | None => None
          end
      end
  end.

Fixpoint settle_order {A} (n : nat) (choose : nat -> nat) (inflight : list A) : list A :=
  match n with
  | O => []
  | S n' =>
      match take_out (choose n' mod length inflight)%nat inflight with
      | Some (x, rest) => x :: settle_order n' choose rest
      | None => []
      end
  end.

Definition completion_order {A} (choose : nat -> nat) (group : list A) : list A :=
  settle_order (length group) choose group.

(** ** Outcomes of an asynchronous call *)

Inductive Outcome (A : Type) : Type :=
| Returns (a : A)
| Throws (message : string)
| Diverges.
Arguments Returns {A} a.
Arguments Throws {A} message.
Arguments Diverges {A}.

Module BatchProcessor.
Import WhisperTranscriber.

Record t : Type := {
  transcriber : WhisperTranscriber.t;
  concurrency : Z;
  outputDir : string;
  continueOnError : bool
}.

(** [constructor(options = {})] *)
Definition constructor (options : option Options) : t :=
  let options := default no_options options in
  {| transcriber := WhisperTranscriber.constructor options;
     concurrency := or_int (opt_concurrency options) 1;
     outputDir := or_string (opt_outputDir options) "./output";
     continueOnError := negb (is_false (opt_continueOnError options)) |}.

(** The result object of [processFile], without the fields that only
    rename the path ([fileName], [outputFile]) and the timestamp.
    [duration] is [None] where the source has [undefined], [speedRatio]
    is [None] where it has [null]. *)
Record JobResult : Type := {
  file : string;
  duration : option JsNum;
  processingTime : JsNum;
  speedRatio : option string;
  text : JsValue;
  language : JsValue
}.

(** [errorInfo], without the timestamp *)
Record JobError : Type := {
  error_file : string;
  error : string
}.

(** The object handed to [saveReport] *)
Record Report : Type := {
  report_results : list JobResult;
  report_errors : list JobError;
  report_duration : JsNum;
  totalFiles : nat;
  successful : nat;
  failed : nat
}.

(** The object [processFiles] and [processDirectory] return; the early
    return of [processDirectory] has no [duration]. *)
Record BatchReturn : Type := {
  results : list JobResult;
  errors : list JobError;
  batch_duration : option JsNum
}.

(** [createBatches(items, batchSize)].  The loop runs at most once per
    item when [batchSize] is positive; when it is not, [i] never reaches
    [items.length] and the loop does not end, which is [None]. *)
Fixpoint createBatches_loop {A} (fuel : nat) (items : list A) (batchSize i : Z)
    (batches : list (list A)) : option (list (list A)) :=
  match fuel with
  | O => None
  | S fuel' =>
      if i <? Z.of_nat (length items)
      then createBatches_loop fuel' items batchSize (i + batchSize)
             (batches ++ [slice items i (i + batchSize)])
      else Some batches
  end.

Definition createBatches {A} (items : list A) (batchSize : Z) : option (list (list A)) :=
  createBatches_loop (S (length items)) items batchSize 0 [].

(** Strings and paths *)

Definition nl : string := String (ascii_of_nat 10) EmptyString.

(** [s.repeat(n)] *)
Fixpoint repeat_string (s : string) (n : nat) : string :=
  match n with
  | O => EmptyString
  | S n' => s +:+ repeat_string s n'
  end.

(** The components of a path between its slashes. *)
Fixpoint split_slash (s : string) : list string :=
  match s with
  | EmptyString => [EmptyString]
  | String c rest =>
      if Ascii.eqb c "/" then EmptyString :: split_slash rest
      else match split_slash rest with
           | h :: t => String c h :: t
           | [] => [String c EmptyString]
           end
  end.

(** [path.basename(p)] of the POSIX [path] module: slashes at the end are
    dropped, and what follows the last slash left is the name. *)
Definition path_basename (p : string) : string :=
  List.last (List.filter (fun part => negb (String.eqb part "")) (split_slash p)) "".

Section WithBuiltins.
Context `{B : JsBuiltins}.

(** [processFile(filePath)] *)
Definition processFile (p : t) (w : JobWorld) (filePath : string) : Exc JobResult :=
  audioInfo <-! getAudioInfo w filePath;;
  transcript <-! transcribe w filePath "json";;
  let processingTime := fdiv (of_Z (elapsedMs w)) (of_Z 1000) in
  text <-! get_prop transcript "text";;
  language <-! get_prop transcript "language";;
  Ok {| file := filePath;
        duration := durationSeconds <$> audioInfo;
        processingTime := processingTime;
        speedRatio :=
          match audioInfo with
          | Some info => Some (toFixed (fdiv (durationSeconds info) processingTime) 2)
          | None => None
          end;
        text := text;
        language := language |}.

(** *** The event loop of [processFiles]

    A job is the file at a position of the [files] array.  The log
    records what happens, in order: the closure of a job is started, it
    settles by pushing a result or an error, and [Promise.all] rejects,
    which makes [processFiles] throw. *)

Record Job : Type := {
  job_id : nat;
  job_file : string
}.

Inductive Event : Type :=
| Launch (id : nat)
| Succeeded (id : nat) (result : JobResult)
| Failed (id : nat) (info : JobError)
| Abort (message : string).

(** What the outside world does during one call of [processFiles] or
    [processDirectory]. *)
Record World : Type := {
  (** [glob] walking below a directory: the files it reaches *)
  listing : string -> list string;
  (** [fs.mkdir(outputDir, { recursive: true })] *)
  mkdirOutput : Exc unit;
  (** the tools and the clock during the job at a position *)
  jobWorld : nat -> JobWorld;
  (** the settling order inside the group of a given number *)
  choose : nat -> nat -> nat;
  (** milliseconds between the two [Date.now()] of [processFiles] *)
  batchElapsedMs : Z;
  (** the two [fs.writeFile] of [saveReport] *)
  writeReport : Exc unit;
  writeSummary : Exc unit
}.

Record RunState : Type := {
  st_results : list JobResult;
  st_errors : list JobError;
  st_log : list Event;
  (** the error [Promise.all] rejected with, once it has *)
  st_rejection : option string
}.

(** The files with their positions, from position [k] on. *)
Fixpoint jobs_from (k : nat) (files : list string) : list Job :=
  match files with
  | [] => []
  | f :: rest => {| job_id := k; job_file := f |} :: jobs_from (S k) rest
  end.

Definition jobs_of (files : list string) : list Job := jobs_from 0 files.

(** The closure mapped over a group (lines 40-60), at the moment its
    job settles. *)
Definition settle (p : t) (w : World) (st : RunState) (j : Job) : RunState :=
  match processFile p (jobWorld w (job_id j)) (job_file j) with
  | Ok result =>
      {| st_results := st_results st ++ [result];
         st_errors := st_errors st;
         st_log := st_log st ++ [Succeeded (job_id j) result];
         st_rejection := st_rejection st |}
  | Throw message =>
      let errorInfo := {| error_file := job_file j; error := message |} in
      if continueOnError p then
        {| st_results := st_results st;
           st_errors := st_errors st ++ [errorInfo];
           st_log := st_log st ++ [Failed (job_id j) errorInfo];
           st_rejection := st_rejection st |}
      else
        (* the closure rethrows: the first rejection settles Promise.all *)
        {| st_results := st_results st;
           st_errors := st_errors st ++ [errorInfo];
           st_log := st_log st ++ Failed (job_id j) errorInfo ::
                     match st_rejection st with
                     | None => [Abort message]
                     | Some _ => []
                     end;
           st_rejection := match st_rejection st with
                           | None => Some message
                           | Some first => Some first
                           end |}
  end.

Fixpoint settle_all (p : t) (w : World) (st : RunState) (order : list Job) : RunState :=
  match order with
  | [] => st
  | j :: order' => settle_all p w (settle p w st j) order'
  end.

(** One turn of the [for] loop: [batch.map] starts every closure, then
    the jobs settle. *)
Definition run_batch (p : t) (w : World) (batchIndex : nat) (st : RunState)
    (batch : list Job) : RunState :=
  let started :=
    {| st_results := st_results st;
       st_errors := st_errors st;
       st_log := st_log st ++ map (fun j => Launch (job_id j)) batch;
       st_rejection := st_rejection st |} in
  settle_all p w started (completion_order (choose w batchIndex) batch).

(** The [for] loop: [await Promise.all] throws out of it on a
    rejection. *)
Fixpoint run_batches (p : t) (w : World) (batchIndex : nat) (st : RunState)
    (batches : list (list Job)) : RunState :=
  match batches with
  | [] => st
  | batch :: rest =>
      let st' := run_batch p w batchIndex st batch in
      match st_rejection st' with
      | Some _ => st'
      | None => run_batches p w (S batchIndex) st' rest
      end
  end.

Definition start : RunState :=
  {| st_results := []; st_errors := []; st_log := []; st_rejection := None |}.

(** What a call leaves behind: what the caller gets, the report written
    to [transcription_report.json] if one was, and the log. *)
Record Run : Type := {
  ret : Outcome BatchReturn;
  saved : option Report;
  log : list Event
}.

(** *** The summary

    [generateSummary(report)] builds the text of [summary.txt]; the
    [fileName] of a result is what [processFile] stored there, the base
    name of its path. *)

Definition rule : string := repeat_string "=" 60.

(** The thirteen lines the array literal starts with. *)
Definition header (report : Report) : list string :=
  [rule;
   "TRANSCRIPTION BATCH PROCESSING SUMMARY";
   rule;
   "";
   "Total Files Processed: " +:+ pretty (totalFiles report);
   "Successful: " +:+ pretty (successful report);
   "Failed: " +:+ pretty (failed report);
   "Total Duration: " +:+ toFixed (report_duration report) 2 +:+ " seconds";
   "";
   rule;
   "SUCCESSFULLY PROCESSED FILES:";
   rule;
   ""].

(** [result.duration ? result.duration.toFixed(1) + 's' : 'N/A'] *)
Definition duration_text (d : option JsNum) : string :=
  match d with
  | Some x => if truthy (VNum x) then toFixed x 1 +:+ "s" else "N/A"
  | None => "N/A"
  end.

(** [result.speedRatio ? result.speedRatio + 'x' : 'N/A'] *)
Definition speedRatio_text (r : option string) : string :=
  match r with
  | Some s => if truthy (VStr s) then s +:+ "x" else "N/A"
  | None => "N/A"
  end.

(** [result.text ? result.text.substring(0, 100) + '...' : 'No text']:
    of the values [JSON.parse] gives, only a string has a [substring]. *)
Definition text_preview (text : JsValue) : Exc string :=
  if truthy text then
    match text with
    | VStr s => Ok (String.substring 0 100 s +:+ "...")
    | _ => Throw "result.text.substring is not a function"
    end
  else Ok "No text".

(** The callback of [report.results.forEach]; [fileName] is what
    [processFile] stored, the base name of the path. *)
Definition result_lines (index : nat) (result : JobResult) : Exc (list string) :=
  preview <-! text_preview (text result);;
  Ok [pretty (index + 1)%nat +:+ ". " +:+ path_basename (file result);
      "   Duration: " +:+ duration_text (duration result);
      "   Processing Time: " +:+ toFixed (processingTime result) 1 +:+ "s";
      "   Speed Ratio: " +:+ speedRatio_text (speedRatio result);
      "   Text Preview: " +:+ preview;
      ""].

Fixpoint results_lines (index : nat) (results : list JobResult) : Exc (list string) :=
  match results with
  | [] => Ok []
  | result :: rest =>
      lines <-! result_lines index result;;
      more <-! results_lines (S index) rest;;
      Ok (lines ++ more)
  end.

(** The callback of [report.errors.forEach] *)
Definition error_lines (index : nat) (info : JobError) : list string :=
  [pretty (index + 1)%nat +:+ ". " +:+ error_file info;
   "   Error: " +:+ error info;
   ""].

Fixpoint errors_lines (index : nat) (errors : list JobError) : list string :=
  match errors with
  | [] => []
  | info :: rest => error_lines index info ++ errors_lines (S index) rest
  end.

(** [if (report.errors.length > 0) { ... }] *)
Definition failed_section (errors : list JobError) : list string :=
  if (0 <? length errors)%nat
  then [rule; "FAILED FILES:"; rule; ""] ++ errors_lines 0 errors
  else [].

(** The array [lines] when [generateSummary] reaches its last line. *)
Definition summary_lines (report : Report) : Exc (list string) :=
  body <-! results_lines 0 (report_results report);;
  Ok (header report ++ body ++ failed_section (report_errors report)).

(** [generateSummary(report)] *)
Definition generateSummary (report : Report) : Exc string :=
  lines <-! summary_lines report;;
  Ok (String.concat nl lines).

(** A [text] that has no [substring] to call. *)
Definition unprintable (text : JsValue) : Prop :=
  truthy text = true /\ forall s, text <> VStr s.

(** [saveReport(report)]: the report file is written, then the summary is
    built and written.  The result is the report on disk, if any, and how
    the call ended. *)
Definition saveReport (w : World) (report : Report) : option Report * Exc unit :=
  match writeReport w with
  | Throw m => (None, Throw m)
  | Ok _ =>
      match generateSummary report with
      | Throw m => (Some report, Throw m)
      | Ok summary =>
          match writeSummary w with
          | Throw m => (Some report, Throw m)
          | Ok _ => (Some report, Ok tt)
          end
      end
  end.

(** [processFiles(files)] *)
Definition processFiles (p : t) (w : World) (files : list string) : Run :=
  match mkdirOutput w with
  | Throw m => {| ret := Throws m; saved := None; log := [] |}
  | Ok _ =>
      match createBatches (jobs_of files) (concurrency p) with
      | None => {| ret := Diverges; saved := None; log := [] |}
      | Some batches =>
          let st := run_batches p w 0 start batches in
          match st_rejection st with
          | Some m => {| ret := Throws m; saved := None; log := st_log st |}
          | None =>
              let duration := fdiv (of_Z (batchElapsedMs w)) (of_Z 1000) in
              let '(written, ended) :=
                saveReport w
                  {| report_results := st_results st;
                     report_errors := st_errors st;
                     report_duration := duration;
                     totalFiles := length files;
                     successful := length (st_results st);
                     failed := length (st_errors st) |} in
              match ended with
              | Throw m => {| ret := Throws m; saved := written; log := st_log st |}
              | Ok _ =>
                  {| ret := Returns {| results := st_results st;
                                       errors := st_errors st;
                                       batch_duration := Some duration |};
                     saved := written;
                     log := st_log st |}
              end
          end
      end
  end.

(** *** Enumeration

    [glob] is the glob package, a dependency of the repository, called
    without options; what follows states its documented matching rules for
    the one shape of pattern the sources build.  For a pattern
    [dir/**/*.{e1,...,en}] it reports each file it reaches below [dir]
    once, when the file's base name does not start with a dot and ends
    in [.ei] for one of the alternatives; letters are compared exactly
    unless the package's [nocase] default is on. *)

Definition lower (c : ascii) : ascii :=
  let n := nat_of_ascii c in
  if ((65 <=? n) && (n <=? 90))%nat then ascii_of_nat (n + 32) else c.

Fixpoint to_lower (s : string) : string :=
  match s with
  | EmptyString => EmptyString
  | String c rest => String (lower c) (to_lower rest)
  end.

Definition ends_with (suffix s : string) : bool :=
  let n := String.length suffix in
  let k := String.length s in
  (n <=? k)%nat && String.eqb (String.substring (k - n) n s) suffix.

(** The last component of a path. *)
Definition basename (path : string) : string :=
  List.last (split_slash path) EmptyString.

(** A base name against [*.ext] *)
Definition star_dot (ext name : string) : bool :=
  negb (String.prefix "." name) &&
  ends_with ("." +:+ ext) (if glob_nocase then to_lower name else name).

(** The alternatives of the default pattern
    ['*.{mp3,wav,m4a,mp4,mpeg,mpga,webm}'] *)
Definition audio_extensions : list string :=
  ["mp3"; "wav"; "m4a"; "mp4"; "mpeg"; "mpga"; "webm"].

Definition is_audio (path : string) : bool :=
  existsb (fun ext => star_dot ext (basename path)) audio_extensions.

(** [glob(path.join(directory, '**', pattern))] for the default pattern,
    over the files reached below [directory] *)
Definition glob_audio (reached : list string) : list string :=
  filter (fun path => is_audio path = true) reached.

(** [processDirectory(directory)] *)
Definition processDirectory (p : t) (w : World) (directory : string) : Run :=
  let files := glob_audio (listing w directory) in
  if Nat.eqb (length files) 0 then
{| ret := Returns {| results := []; errors := []; batch_duration := None |};
   saved := None;
   log := [] |}
  else processFiles p w files.

(** *** Merging

    The output directory is the list of the entries directly inside it,
    name and content, in the order a listing gives them.  Writing a file
    replaces the content under its name, or adds the name at the end. *)










End WithBuiltins.

End BatchProcessor.

(** ** A platform given by tables

    [JSON.parse], [parseFloat] and [parseInt] as finite tables, to run the
    model on concrete inputs. *)

Definition table_builtins (parses : list (string * JsValue))
    (floats ints : list (string * JsNum)) (show : JsNum -> string) (nocase : bool)
    : JsBuiltins :=
  {| JSON_parse := fun s =>
       match assoc s parses with
       | Some v => Ok v
       | None => Throw "Unexpected token in JSON"
       end;
     parseFloat := fun v =>
       match v with
       | VNum n => n
       | VStr s => default NaN (assoc s floats)
       | _ => NaN
       end;
     parseInt := fun v =>
       match v with
       | VStr s => default NaN (assoc s ints)
       | _ => NaN
       end;
     Number_toString := show;
     glob_nocase := nocase |}.

(** ** Sample inputs *)

Module Sample.
Import WhisperTranscriber BatchProcessor.

(** What ffprobe prints for a two-minute MP3, parsed. *)
Definition probe_output : JsValue :=
  VObj [("streams", VArr [VObj [("codec_type", VStr "audio");
                                ("codec_name", VStr "mp3");
                                ("sample_rate", VStr "44100");
                                ("channels", VNum (of_Z 2))]]);
        ("format", VObj [("duration", VStr "120.000000");
                         ("size", VStr "1920000");
                         ("bit_rate", VStr "128000")])].

(** What ffprobe prints for a stream whose container records no duration. *)
Definition probe_output_unknown_duration : JsValue :=
  VObj [("streams", VArr [VObj [("codec_type", VStr "audio");
                                ("codec_name", VStr "opus")]]);
        ("format", VObj [("size", VStr "1920000")])].

Definition transcript : JsValue :=
  VObj [("text", VStr "hello world"); ("language", VStr "en")].

Definition builtins (nocase : bool) : JsBuiltins :=
  table_builtins
    [("<ffprobe>", probe_output);
     ("<ffprobe: no duration>", probe_output_unknown_duration);
     ("<whisper>", transcript)]
    [("120.000000", of_Z 120)]
    [("1920000", of_Z 1920000)]
    (fun _ => "")
    nocase.

(** A job that goes well: one minute to transcribe two minutes of audio. *)
Definition good : JobWorld :=
  {| probe := Ok "<ffprobe>"; audioExists := true; whisperRun := Ok tt;
     artifact := Ok "<whisper>"; elapsedMs := 60000 |}.

(** The same job, with a clock that does not advance. *)
Definition instant : JobWorld :=
  {| probe := Ok "<ffprobe>"; audioExists := true; whisperRun := Ok tt;
     artifact := Ok "<whisper>"; elapsedMs := 0 |}.

(** The container records no duration. *)
Definition unmeasured : JobWorld :=
  {| probe := Ok "<ffprobe: no duration>"; audioExists := true; whisperRun := Ok tt;
     artifact := Ok "<whisper>"; elapsedMs := 60000 |}.

(** ffprobe is missing; whisper works. *)
Definition unprobed : JobWorld :=
  {| probe := Throw "ffprobe: not found"; audioExists := true; whisperRun := Ok tt;
     artifact := Ok "<whisper>"; elapsedMs := 60000 |}.

(** whisper crashes. *)
Definition bad : JobWorld :=
  {| probe := Ok "<ffprobe>"; audioExists := true; whisperRun := Throw "exit code 1";
     artifact := Throw "ENOENT"; elapsedMs := 500 |}.

(** The job at position [failing] crashes, the others go well; the jobs of
    a group settle last first. *)
Definition world (reached : list string) (failing : nat) : World :=
  {| listing := fun _ => reached;
     mkdirOutput := Ok tt;
     jobWorld := fun i => if Nat.eqb i failing then bad else good;
     choose := fun _ n => n;
     batchElapsedMs := 181500;
     writeReport := Ok tt;
     writeSummary := Ok tt |}.

Definition options (c : Z) (flag : JsValue) : Options :=
  {| opt_modelSize := None; opt_language := None; opt_device := None;
     opt_verbose := None; opt_concurrency := Some c; opt_outputDir := None;
     opt_continueOnError := flag |}.

(** [new BatchProcessor({ concurrency: 2 })] and
    [new BatchProcessor({ concurrency: 2, continueOnError: false })] *)
Definition tolerant : BatchProcessor.t := constructor (Some (options 2 VUndefined)).
Definition strict : BatchProcessor.t := constructor (Some (options 2 (VBool false))).

Definition five : list string := ["a.mp3"; "b.mp3"; "c.mp3"; "d.mp3"; "e.mp3"].



End Sample.

(** ** Reading a run

    The notions the properties below are stated with, and the closed forms
    of the event loop the proofs go through. *)

Module Reading.
Import WhisperTranscriber BatchProcessor.

(** Jobs in flight after a log: started and not yet settled. *)
Fixpoint in_flight (t : list Event) : Z :=
  match t with
  | [] => 0
  | Launch _ :: t' => 1 + in_flight t'
  | Succeeded _ _ :: t' => in_flight t' - 1
  | Failed _ _ :: t' => in_flight t' - 1
  | Abort _ :: t' => in_flight t'
  end.

(** How many outcomes a log records for the job at a position. *)
Fixpoint outcomes_of (id : nat) (t : list Event) : nat :=
  match t with
  | [] => O
  | Succeeded i _ :: t' => ((if Nat.eqb i id then 1 else 0) + outcomes_of id t')%nat
  | Failed i _ :: t' => ((if Nat.eqb i id then 1 else 0) + outcomes_of id t')%nat
  | _ :: t' => outcomes_of id t'
  end.

(** How many jobs of a list sit at position [id]. *)
Fixpoint at_position (id : nat) (js : list Job) : nat :=
  match js with
  | [] => O
  | j :: js' => ((if Nat.eqb (job_id j) id then 1 else 0) + at_position id js')%nat
  end.

Definition settled (id : nat) (t : list Event) : Prop :=
  (exists r, In (Succeeded id r) t) \/ (exists e, In (Failed id e) t).

Definition launched (id : nat) (t : list Event) : Prop := In (Launch id) t.

(** At every moment of a log, the number of jobs in flight is between [lo]
    and [hi]. *)
Definition within (lo hi : Z) (t : list Event) : Prop :=
  forall t1 t2, t = t1 ++ t2 -> lo <= in_flight t1 <= hi.

(** The results and the errors a log pushes, in order. *)
Fixpoint pushed_results (t : list Event) : list JobResult :=
  match t with
  | [] => []
  | Succeeded _ r :: t' => r :: pushed_results t'
  | _ :: t' => pushed_results t'
  end.

Fixpoint pushed_errors (t : list Event) : list JobError :=
  match t with
  | [] => []
  | Failed _ e :: t' => e :: pushed_errors t'
  | _ :: t' => pushed_errors t'
  end.

Section WithBuiltins.
Context `{B : JsBuiltins}.
Variables (p : t) (w : World).

(** What [processFile] does for a job. *)
Definition outcome (j : Job) : Exc JobResult :=
  processFile p (jobWorld w (job_id j)) (job_file j).

Definition fails (j : Job) : bool :=
  match outcome j with
  | Ok _ => false
  | Throw _ => true
  end.

Definition error_of (j : Job) (message : string) : JobError :=
  {| error_file := job_file j; error := message |}.

(** The event a job settles with. *)
Definition settle_event (j : Job) : Event :=
  match outcome j with
  | Ok r => Succeeded (job_id j) r
  | Throw m => Failed (job_id j) (error_of j m)
  end.

Fixpoint oks (js : list Job) : list JobResult :=
  match js with
  | [] => []
  | j :: js' =>
      match outcome j with
      | Ok r => r :: oks js'
      | Throw _ => oks js'
      end
  end.

Fixpoint errs (js : list Job) : list JobError :=
  match js with
  | [] => []
  | j :: js' =>
      match outcome j with
      | Ok _ => errs js'
      | Throw m => error_of j m :: errs js'
      end
  end.

Fixpoint first_error (js : list Job) : option string :=
  match js with
  | [] => None
  | j :: js' =>
      match outcome j with
      | Ok _ => first_error js'
      | Throw m => Some m
      end
  end.

(** The events of jobs settling in the order [js]; [rejected] says that
    [Promise.all] has rejected already. *)
Fixpoint events (rejected : bool) (js : list Job) : list Event :=
  match js with
  | [] => []
  | j :: js' =>
      match outcome j with
      | Ok r => Succeeded (job_id j) r :: events rejected js'
      | Throw m =>
          Failed (job_id j) (error_of j m) ::
          (if continueOnError p || rejected then [] else [Abort m]) ++
          events (rejected || negb (continueOnError p)) js'
      end
  end.

Definition rejection_after (rejection : option string) (js : list Job) : option string :=
  if continueOnError p then rejection
  else match rejection with
       | Some m => Some m
       | None => first_error js
       end.

Definition order_of (k : nat) (group : list Job) : list Job :=
  completion_order (choose w k) group.

Definition launches (group : list Job) : list Event :=
  map (fun j => Launch (job_id j)) group.

(** The log of one group. *)
Definition block (k : nat) (group : list Job) : list Event :=
  launches group ++ events false (order_of k group).

(** The error a group makes [Promise.all] reject with, if it does. *)
Definition group_rejection (k : nat) (group : list Job) : option string :=
  rejection_after None (order_of k group).

(** The jobs that settle, in the order they do, from group number [k] on:
    the loop stops after a group that rejects. *)
Fixpoint settling (k : nat) (batches : list (list Job)) : list Job :=
  match batches with
  | [] => []
  | g :: rest =>
      order_of k g ++
      match group_rejection k g with
      | Some _ => []
      | None => settling (S k) rest
      end
  end.

Fixpoint blocks (k : nat) (batches : list (list Job)) : list Event :=
  match batches with
  | [] => []
  | g :: rest =>
      block k g ++
      match group_rejection k g with
      | Some _ => []
      | None => blocks (S k) rest
      end
  end.

Fixpoint final_rejection (k : nat) (batches : list (list Job)) : option string :=
  match batches with
  | [] => None
  | g :: rest =>
      match group_rejection k g with
      | Some m => Some m
      | None => final_rejection (S k) rest
      end
  end.

End WithBuiltins.
End Reading.

(** ** More of the transcriber: [transcribeBatch] *)

Module TranscribeBatch.
Import WhisperTranscriber.

(** An entry of [results]: [{ file, success: true, transcript }] *)
Record Item : Type := {
  item_file : string;
  success : bool;
  transcript : JsValue
}.

(** An entry of [errors]: [{ file, error }] *)
Record Failure : Type := {
  failure_file : string;
  failure : string
}.

(** [a || b] on values *)
Definition or_value (a b : JsValue) : JsValue := if truthy a then a else b.

Section WithBuiltins.
Context `{B : JsBuiltins}.

(** The body of the [try] block for one path: [transcribe], then
    [result.text || result]. *)
Definition transcript_of_path (w : JobWorld) (audioPath outputFormat : string)
    : Exc JsValue :=
  result <-! transcribe w audioPath outputFormat;;
  text <-! get_prop result "text";;
  Ok (or_value text result).

(** The [for] loop, from position [k] on; [world k] is what the tools do
    for the path at position [k]. *)
Fixpoint transcribeBatch_from (world : nat -> JobWorld) (k : nat)
    (audioPaths : list string) (outputFormat : string)
    (results : list Item) (errors : list Failure) : list Item * list Failure :=
  match audioPaths with
  | [] => (results, errors)
  | audioPath :: rest =>
      match transcript_of_path (world k) audioPath outputFormat with
      | Ok t =>
          transcribeBatch_from world (S k) rest outputFormat
            (results ++ [{| item_file := audioPath; success := true; transcript := t |}])
            errors
      | Throw message =>
          transcribeBatch_from world (S k) rest outputFormat results
            (errors ++ [{| failure_file := audioPath; failure := message |}])
      end
  end.

(** [transcribeBatch(audioPaths, options)]; of the options only
    [outputFormat] decides what [transcribe] returns, and it is ['json']
    when not given. *)
Definition transcribeBatch (world : nat -> JobWorld) (audioPaths : list string)
    (outputFormat : option string) : list Item * list Failure :=
  transcribeBatch_from world 0 audioPaths (default "json" outputFormat) [] [].

End WithBuiltins.
End TranscribeBatch.

(** ** More on numbers: comparison, [Math.floor], [%], template literals *)

(** The integer part of [m * 2^e], rounded down. *)
Definition whole (m e : Z) : Z :=
  if 0 <=? e then m * 2 ^ e else m / 2 ^ (- e).

(** [Math.floor(x)] *)
Definition floor (x : JsNum) : JsNum :=
  match x with
  | Fin m e => of_Z (whole m e)
  | _ => x
  end.

(** How two numbers compare; [NaN] compares with nothing. *)
Definition compare_num (x y : JsNum) : option comparison :=
  match x, y with
  | NaN, _ | _, NaN => None
  | PInf, PInf | NInf, NInf => Some Eq
  | PInf, _ | _, NInf => Some Gt
  | NInf, _ | _, PInf => Some Lt
  | Fin m1 e1, Fin m2 e2 =>
      let e := Z.min e1 e2 in
      Some (m1 * 2 ^ (e1 - e) ?= m2 * 2 ^ (e2 - e))
  end.

(** [x >= y] and [x > y] *)
Definition js_ge (x y : JsNum) : bool :=
  match compare_num x y with
  | Some Eq | Some Gt => true
  | _ => false
  end.

Definition js_gt (x y : JsNum) : bool :=
  match compare_num x y with
  | Some Gt => true
  | _ => false
  end.

(** [x % y]: the remainder of the truncated division, exact, with the
    sign of [x]. *)
Definition fmod (x y : JsNum) : JsNum :=
  match x, y with
  | NaN, _ | _, NaN => NaN
  | (PInf | NInf), _ => NaN
  | Fin _ _, (PInf | NInf) => x
  | Fin m1 e1, Fin m2 e2 =>
      if m2 =? 0 then NaN
      else
        let e := Z.min e1 e2 in
        Fin (Z.rem (m1 * 2 ^ (e1 - e)) (m2 * 2 ^ (e2 - e))) e
  end.

(** A double from 0 to below [2^53], written with a significand below
    [2^53]. *)
Definition safe (m e : Z) : Prop :=
  0 <= m < 2 ^ 53 /\ (0 <= e -> m * 2 ^ e < 2 ^ 53).

(** [x] is the double [n * 2^E], at an exponent of its own. *)
Definition scaled (x : JsNum) (n E : Z) : Prop :=
  exists e, -1074 <= e <= E /\ x = Fin (n * 2 ^ (E - e)) e.

Arguments whole : simpl never.
Arguments fmod : simpl never.
Arguments compare_num : simpl never.

(** ** The display strings of [getAudioInfo] *)

Module Formatting.
Section WithBuiltins.
Context `{B : JsBuiltins}.

(** The string a template literal puts in for a number: an integer below
    [10^21] in magnitude is written in decimal. *)
Definition show_number (x : JsNum) : string :=
  match x with
  | NaN => "NaN"
  | PInf => "Infinity"
  | NInf => "-Infinity"
  | Fin m e =>
      if (e =? 0) && (Z.abs m <? 10 ^ 21) then pretty m else Number_toString x
  end.

(** [formatDuration(seconds)] *)
Definition formatDuration (seconds : JsNum) : string :=
  let hours := floor (fdiv seconds (of_Z 3600)) in
  let minutes := floor (fdiv (fmod seconds (of_Z 3600)) (of_Z 60)) in
  let secs := floor (fmod seconds (of_Z 60)) in
  if js_gt hours (of_Z 0) then
    show_number hours +:+ "h " +:+ show_number minutes +:+ "m " +:+
    show_number secs +:+ "s"
  else if js_gt minutes (of_Z 0) then
    show_number minutes +:+ "m " +:+ show_number secs +:+ "s"
  else show_number secs +:+ "s".

Definition units : list string := ["B"; "KB"; "MB"; "GB"].

(** The [while] loop of [formatFileSize].  Each turn advances
    [unitIndex], which the condition keeps below [units.length - 1], so
    [units.length] turns are more than the loop can take. *)
Fixpoint formatFileSize_loop (fuel : nat) (size : JsNum) (unitIndex : nat)
    : JsNum * nat :=
  match fuel with
  | O => (size, unitIndex)
  | S fuel' =>
      if js_ge size (of_Z 1024) && (unitIndex <? length units - 1)%nat
      then formatFileSize_loop fuel' (fdiv size (of_Z 1024)) (S unitIndex)
      else (size, unitIndex)
  end.

(** [formatFileSize(bytes)] *)
Definition formatFileSize (bytes : JsNum) : string :=
  let '(size, unitIndex) := formatFileSize_loop (length units) bytes 0 in
  toFixed size 2 +:+ " " +:+ default "undefined" (units !! unitIndex).

End WithBuiltins.
End Formatting.

(** ** Reading the streams of a probe *)

Module Streams.



Definition nullish (v : JsValue) : Prop := v = VNull \/ v = VUndefined.



End Streams.

(** ** What stops a merge *)

Module Merging.
Section WithBuiltins.
Context `{B : JsBuiltins}.



End WithBuiltins.
End Merging.

(** ** The page: [public/app.js] *)

Module App.
Section WithBuiltins.
Context `{B : JsBuiltins}.

(** [s.padStart(target, fill)] *)
Definition padStart (target : nat) (fill s : string) : string :=
  let len := String.length s in
  if (target <=? len)%nat || (String.length fill =? 0)%nat then s
  else String.substring 0 (target - len)
         (BatchProcessor.repeat_string fill (target - len)) +:+ s.

(** [formatTime(seconds)] *)
Definition formatTime (seconds : JsNum) : string :=
  let minutes := floor (fdiv seconds (of_Z 60)) in
  let secs := floor (fmod seconds (of_Z 60)) in
  Formatting.show_number minutes +:+ ":" +:+
  padStart 2 "0" (Formatting.show_number secs).

End WithBuiltins.

(** What [handleFileSelect] decides: the file becomes the selected file,
    or a toast is shown and nothing changes. *)
Inductive Selection : Type :=
| Selected
| Refused (toast : string).

Definition validTypes : list string :=
  ["audio/mpeg"; "audio/wav"; "audio/mp4"; "audio/x-m4a";
   "audio/webm"; "audio/ogg"; "audio/flac"; "video/mp4"].

(** [type.split('/')[0]] *)
Fixpoint before_slash (s : string) : string :=
  match s with
  | EmptyString => EmptyString
  | String c rest =>
      if Ascii.eqb c "/" then EmptyString else String c (before_slash rest)
  end.

(** [handleFileSelect(file)], as a function of [file.type] and
    [file.size] *)
Definition handleFileSelect (type : string) (size : Z) : Selection :=
  if negb (existsb (fun valid => String.prefix (before_slash valid) type) validTypes)
  then Refused "Please select a valid audio file"
  else if 500 * 1024 * 1024 <? size
  then Refused "File size must be less than 500MB"
  else Selected.

End App.

(** ** The upload route of the server

    [app.post('/api/transcribe', upload.single('audio'), handler)]: the
    handler, after the upload middleware has stored the file.  What it
    does to the outside is a list of effects, in order: messages to the
    client's WebSocket when it has one, removals of the uploaded file, and
    the response.  A send to a registered socket and the guarded
    [fs.unlink(...).catch(console.error)] do not throw. *)

Module Server.
Import WhisperTranscriber.

(** The object [getAudioInfo] returns, with its two display strings. *)
Record Described : Type := {
  info : AudioInfo;
  duration : string;
  sizeFormatted : string
}.

Inductive Message : Type :=
| Status (message : string)
| Info (data : Described)
| Complete (message : string)
| Failure (message : string).

Inductive Body : Type :=
| Transcribed (transcript language segments : JsValue)
    (duration : option string) (audioInfo : option Described)
| Refused (error : string).

Inductive Effect : Type :=
| Send (m : Message)
| Unlink (path : string)
| Respond (status : Z) (body : Body).

(** What the handler reads of the request: [req.file.path] when a file
    came with it, [req.body.model], and whether [wsClients] holds a socket
    for the session header. *)
Record Request : Type := {
  file : option string;
  model : option string;
  connected : bool
}.

Definition responses (t : list Effect) : list (Z * Body) :=
  omap (fun e => match e with Respond s b => Some (s, b) | _ => None end) t.

Definition unlinks (t : list Effect) : list string :=
  omap (fun e => match e with Unlink p => Some p | _ => None end) t.

Section WithBuiltins.
Context `{B : JsBuiltins}.

Definition describe (i : AudioInfo) : Described :=
  {| info := i;
     duration := Formatting.formatDuration (durationSeconds i);
     sizeFormatted := Formatting.formatFileSize (size i) |}.

(** [if (ws) ws.send(...)] *)
Definition send (req : Request) (m : Message) : list Effect :=
  if connected req then [Send m] else [].

(** The [try] block: what it did, and how it ended. *)
Definition attempt (w : JobWorld) (req : Request) (audioPath : string)
    : list Effect * Exc unit :=
  let modelSize := or_string (model req) "base" in
  let t1 := send req (Status "Checking audio file...") in
  match getAudioInfo w audioPath with
  | Throw m => (t1, Throw m)
  | Ok audioInfo =>
      let described := describe <$> audioInfo in
      let t2 := t1 ++ match described with
                      | Some data => send req (Info data)
                      | None => []
                      end in
      let t3 := t2 ++ send req (Status ("Starting transcription with " +:+
                                        modelSize +:+ " model...")) in
      match transcribe w audioPath "json" with
      | Throw m => (t3, Throw m)
      | Ok result =>
          let t4 := t3 ++ [Unlink audioPath] in
          match (text <-! get_prop result "text";;
                 language <-! get_prop result "language";;
                 segments <-! get_prop result "segments";;
                 Ok (text, language, segments)) with
          | Throw m => (t4, Throw m)
          | Ok (text, language, segments) =>
              (t4 ++ [Respond 200 (Transcribed text language segments
                                     (duration <$> described) described)]
                  ++ send req (Complete "Transcription completed successfully"),
               Ok tt)
          end
      end
  end.

(** What a [try] block that got as far as [transcribe] did before it. *)
Definition prelude (req : Request) (audioInfo : option AudioInfo) : list Effect :=
  (send req (Status "Checking audio file...") ++
   match describe <$> audioInfo with
   | Some data => send req (Info data)
   | None => []
   end) ++
  send req (Status ("Starting transcription with " +:+
                    or_string (model req) "base" +:+ " model...")).

(** The handler *)
Definition handler (w : JobWorld) (req : Request) : list Effect :=
  match file req with
  | None => [Respond 400 (Refused "No audio file provided")]
  | Some audioPath =>
      match attempt w req audioPath with
      | (t, Ok _) => t
      | (t, Throw message) =>
          t ++ (if truthy (VStr audioPath) then [Unlink audioPath] else [])
            ++ [Respond 500 (Refused message)]
            ++ send req (Failure message)
      end
  end.

End WithBuiltins.
End Server.

(** ** More runs to evaluate *)

Module Scenes.
Import WhisperTranscriber BatchProcessor.

(** What ffprobe prints for a silent film, parsed. *)
Definition silent_film : JsValue :=
  VObj [("streams", VArr [VObj [("codec_type", VStr "video");
                                ("codec_name", VStr "h264")]]);
        ("format", VObj [("duration", VStr "90.500000");
                         ("size", VStr "7340032")])].

Definition builtins : JsBuiltins :=
  table_builtins
    [("<ffprobe: film>", silent_film); ("<whisper>", Sample.transcript);
     ("<whisper: null>", VNull);
     ("<whisper: number>", VObj [("text", VNum (of_Z 42)); ("language", VStr "en")])]
    [("90.500000", Fin 181 (-1))]
    [("7340032", of_Z 7340032)]
    (fun _ => "")
    false.


(** whisper leaves a transcript that holds [null]. *)
Definition hollow : JobWorld :=
  {| probe := Ok "<ffprobe: film>"; audioExists := true; whisperRun := Ok tt;
     artifact := Ok "<whisper: null>"; elapsedMs := 30000 |}.

(** An upload from a page with an open socket. *)
Definition upload : Server.Request :=
  {| Server.file := Some "uploads/1700000000000-a1b2c3d4e5f6.mp4";
     Server.model := None;
     Server.connected := true |}.

(** Every job goes well; jobs settle in the order they were started. *)
Definition calm : World :=
  {| listing := fun _ => ["audio/a.mp3"; "audio/notes.txt"; "audio/sub/b.wav"];
     mkdirOutput := Ok tt;
     jobWorld := fun _ => Sample.good;
     choose := fun _ _ => 0%nat;
     batchElapsedMs := 120000;
     writeReport := Ok tt;
     writeSummary := Ok tt |}.

(** whisper leaves a number where the text should be. *)
Definition numbered : JobWorld :=
  {| probe := Ok "<ffprobe: film>"; audioExists := true; whisperRun := Ok tt;
     artifact := Ok "<whisper: number>"; elapsedMs := 30000 |}.

(** Every transcript is such a one, so the summary cannot be built. *)
Definition numbers : World :=
  {| listing := fun _ => [];
     mkdirOutput := Ok tt;
     jobWorld := fun _ => numbered;
     choose := fun _ _ => 0%nat;
     batchElapsedMs := 60000;
     writeReport := Ok tt;
     writeSummary := Ok tt |}.


(** The disk fills up while the summary is written. *)
Definition full_disk : World :=
  {| listing := fun _ => [];
     mkdirOutput := Ok tt;
     jobWorld := fun _ => Sample.bad;
     choose := fun _ n => n;
     batchElapsedMs := 2500;
     writeReport := Ok tt;
     writeSummary := Throw "ENOSPC: no space left on device" |}.

(** [new BatchProcessor()] and [new BatchProcessor({ concurrency: -1 })] *)
Definition plain : BatchProcessor.t := constructor None.
Definition stuck : BatchProcessor.t := constructor (Some (Sample.options (-1) VUndefined)).

(** A report of two results and one error. *)
Definition report : Report :=
  {| report_results :=
       [{| file := "audio/a.mp3"; duration := Some (of_Z 120);
           processingTime := Fin 3 (-1); speedRatio := Some "80.00";
           text := VStr "hello world"; language := VStr "en" |};
        {| file := "audio/sub/b.wav"; duration := None;
           processingTime := of_Z 2; speedRatio := None;
           text := VUndefined; language := VUndefined |}];
     report_errors :=
       [{| error_file := "audio/c.mp3";
           error := "Audio file not found: audio/c.mp3" |}];
     report_duration := Fin 7 (-1);
     totalFiles := 3; successful := 2; failed := 1 |}.

End Scenes.

(** * Properties *)

Import WhisperTranscriber BatchProcessor Reading.

(** ** Division rounds to the nearest double

    [round_pos n d] is either infinite, from the overflow threshold on, or
    a significand of at most 53 bits (exactly 53 above the subnormal range)
    with an exponent in the binary64 range, at most half a unit in the last
    place away from [n / d]. *)

Lemma pow2_pos k : 0 <= k -> 0 < 2 ^ k.
Proof. intros. apply Z.pow_pos_nonneg; lia. Qed.

Lemma bracket_log2 (n d : Z) :
  0 < n -> 0 < d ->
  let l := Z.log2 n - Z.log2 d in
  bracket n d (if (if 0 <=? l then d * 2 ^ l <=? n else d <=? n * 2 ^ (- l))
               then l else l - 1).
Proof.
  intros Hn Hd l.
  pose proof (Z.log2_spec n Hn) as [Ha1 Ha2].
  pose proof (Z.log2_spec d Hd) as [Hb1 Hb2].
  pose proof (Z.log2_nonneg n) as Ha0. pose proof (Z.log2_nonneg d) as Hb0.
  replace (Z.succ (Z.log2 n)) with (Z.log2 n + 1) in Ha2 by lia.
  replace (Z.succ (Z.log2 d)) with (Z.log2 d + 1) in Hb2 by lia.
  set (a := Z.log2 n) in *. set (b := Z.log2 d) in *.
  assert (Hpa1 : 2 ^ (a + 1) = 2 * 2 ^ a) by (rewrite Z.pow_add_r by lia; lia).
  assert (Hpb1 : 2 ^ (b + 1) = 2 * 2 ^ b) by (rewrite Z.pow_add_r by lia; lia).
  pose proof (pow2_pos a Ha0) as HA. pose proof (pow2_pos b Hb0) as HB.
  unfold bracket.
  destruct (Z.leb_spec 0 l) as [Hl|Hl].
  - assert (Hpa : 2 ^ a = 2 ^ b * 2 ^ l).
    { replace a with (b + l) by lia. apply Z.pow_add_r; lia. }
    assert (Hpl1 : 2 ^ (l + 1) = 2 * 2 ^ l) by (rewrite Z.pow_add_r by lia; lia).
    pose proof (pow2_pos l Hl) as HL.
    set (A := 2 ^ a) in *. set (Bp := 2 ^ b) in *. set (L := 2 ^ l) in *.
    destruct (Z.leb_spec (d * L) n) as [Ht|Ht].
    + destruct (Z.leb_spec 0 l); [|lia]. split; [done|].
      rewrite Hpl1. assert (Bp * L <= d * L) by (apply Z.mul_le_mono_nonneg_r; lia). lia.
    + destruct (Z.leb_spec 0 (l - 1)) as [Hl1|Hl1].
      * replace (l - 1 + 1) with l by lia. fold L. split; [|done].
        assert (HL' : L = 2 * 2 ^ (l - 1)).
        { subst L. replace l with ((l - 1) + 1) at 1 by lia.
          rewrite Z.pow_add_r by lia. lia. }
        pose proof (pow2_pos (l - 1) Hl1) as HL1.
        set (L1 := 2 ^ (l - 1)) in *.
        assert (d * L1 < 2 * Bp * L1) by (apply Z.mul_lt_mono_pos_r; lia).
        rewrite HL' in Hpa. lia.
      * assert (l = 0) by lia.
        replace (- (l - 1)) with 1 by lia. change (2 ^ 1) with 2.
        assert (HL1 : L = 1) by (subst L; replace l with 0 by lia; done).
        rewrite HL1 in *. lia.
  - assert (Hpb : 2 ^ b = 2 ^ a * 2 ^ (- l)).
    { replace b with (a + - l) by lia. apply Z.pow_add_r; lia. }
    pose proof (pow2_pos (- l) ltac:(lia)) as HL.
    set (A := 2 ^ a) in *. set (Bp := 2 ^ b) in *. set (L := 2 ^ (- l)) in *.
    destruct (Z.leb_spec d (n * L)) as [Ht|Ht].
    + destruct (Z.leb_spec 0 l); [lia|]. split; [done|].
      assert (n * L < 2 * A * L) by (apply Z.mul_lt_mono_pos_r; lia). lia.
    + destruct (Z.leb_spec 0 (l - 1)); [lia|].
      assert (Hp : 2 ^ (- (l - 1)) = 2 * L).
      { subst L. replace (- (l - 1)) with (- l + 1) by lia.
        rewrite Z.pow_add_r by lia. lia. }
      rewrite Hp.
      assert (A * L <= n * L) by (apply Z.mul_le_mono_nonneg_r; lia).
      split; lia.
Qed.

Lemma quotient_range (n d fl : Z) :
  0 < n -> 0 < d -> bracket n d fl ->
  let e := Z.max (fl - 52) (-1074) in
  let num := if 0 <=? e then n else n * 2 ^ (- e) in
  let den := if 0 <=? e then d * 2 ^ e else d in
  0 < den /\ 0 < num /\ num < 2 ^ 53 * den /\ (-1074 < e -> 2 ^ 52 * den <= num).
Proof.
  intros Hn Hd Hbr e num den. unfold bracket in Hbr.
  assert (H53 : 2 ^ 53 = 2 * 2 ^ 52) by done.
  pose proof (pow2_pos 52 ltac:(lia)) as H52.
  set (T := 2 ^ 52) in *.
  destruct (Z.leb_spec 0 e) as [He|He]; subst num den.
  - (* fl >= 52 *)
    assert (Hfl : fl = e + 52) by lia.
    destruct (Z.leb_spec 0 fl); [|lia].
    pose proof (pow2_pos e He) as HE. 
    assert (Hp : 2 ^ fl = 2 ^ e * T) by (rewrite Hfl; apply Z.pow_add_r; lia).
    assert (Hp1 : 2 ^ (fl + 1) = 2 * (2 ^ e * T)).
    { rewrite Z.pow_add_r by lia. rewrite Hp. change (2 ^ 1) with 2. ring. }
    rewrite Hp, Hp1 in Hbr. set (E := 2 ^ e) in *.
    split; [nia|]. split; [done|]. rewrite H53. split; [nia|]. intros _. nia.
  - pose proof (pow2_pos (- e) ltac:(lia)) as HE. set (E := 2 ^ (- e)) in *.
    split; [done|]. split; [nia|].
    destruct (Z.le_gt_cases (-1074) (fl - 52)) as [Hnorm|Hsub].
    + assert (Ee : - e = 52 - fl) by lia.
      destruct (Z.leb_spec 0 fl) as [Hfl|Hfl].
      * pose proof (pow2_pos fl Hfl) as HF.
        assert (Hp : T = 2 ^ fl * E).
        { subst T E. rewrite Ee, <- Z.pow_add_r by lia. f_equal; lia. }
        assert (Hp1 : 2 ^ (fl + 1) = 2 * 2 ^ fl) by (rewrite Z.pow_add_r by lia; lia).
        rewrite Hp1 in Hbr. set (F := 2 ^ fl) in *.
        rewrite H53, Hp. destruct Hbr as [Hlo Hhi].
        assert (d * F * E <= n * E) by (apply Z.mul_le_mono_nonneg_r; lia).
        assert (n * E < d * (2 * F) * E) by (apply Z.mul_lt_mono_pos_r; lia).
        split; [lia|]. intros _. lia.
      * pose proof (pow2_pos (- fl) ltac:(lia)) as HF.
        assert (Hp : E = T * 2 ^ (- fl)).
        { subst T E. rewrite Ee, <- Z.pow_add_r by lia. f_equal; lia. }
        set (F := 2 ^ (- fl)) in *. rewrite H53, Hp. destruct Hbr as [Hlo Hhi].
        assert (d * T <= n * F * T) by (apply Z.mul_le_mono_nonneg_r; lia).
        assert (n * F * T < 2 * d * T) by (apply Z.mul_lt_mono_pos_r; lia).
        split; [lia|]. intros _. lia.
    + assert (Ee : e = -1074) by lia. split; [|lia].
      destruct (Z.leb_spec 0 fl) as [Hfl|Hfl]; [lia|].
      destruct Hbr as [Hlo Hhi].
      pose proof (pow2_pos (- fl) ltac:(lia)) as HF. set (F := 2 ^ (- fl)) in *.
      destruct (Z.le_gt_cases 0 (1074 + fl)) as [Hk|Hk].
      * assert (Hp : E = F * 2 ^ (1074 + fl)).
        { subst E F. rewrite <- Z.pow_add_r by lia. f_equal; lia. }
        assert (Hk51 : 2 ^ (1074 + fl) <= 2 ^ 51) by (apply Z.pow_le_mono_r; lia).
        pose proof (pow2_pos (1074 + fl) Hk) as HK.
        set (K := 2 ^ (1074 + fl)) in *.
        assert (H53' : 2 ^ 53 = 4 * 2 ^ 51) by done. rewrite H53', Hp.
        set (U := 2 ^ 51) in *.
        assert (n * F * K < 2 * d * K) by (apply Z.mul_lt_mono_pos_r; lia).
        assert (2 * d * K <= 2 * d * U) by (apply Z.mul_le_mono_nonneg_l; lia).
        lia.
      * assert (E <= F) by (subst E F; apply Z.pow_le_mono_r; lia).
        assert (n * E <= n * F) by (apply Z.mul_le_mono_nonneg_l; lia).
        rewrite H53. lia.
Qed.

Lemma round_pos_spec (n d : Z) :
  0 < n -> 0 < d ->
  match round_pos n d with
  | Fin m e =>
      -1074 <= e <= 971 /\ 0 <= m <= 2 ^ 53 /\ (-1074 < e -> 2 ^ 52 <= m) /\
      (if 0 <=? e then 2 * Z.abs (n - m * (d * 2 ^ e)) <= d * 2 ^ e
       else 2 * Z.abs (n * 2 ^ (- e) - m * d) <= d)
  | PInf => (2 ^ 1025 - 2 ^ 971) * d <= 2 * n
  | _ => False
  end.
Proof.
  intros Hn Hd. unfold round_pos.
  pose proof (bracket_log2 n d Hn Hd) as Hbr. simpl in Hbr.
  cbv zeta. match goal with |- context [Z.max (?f - 52) _] => set (fl := f) in * end.
  pose proof (quotient_range n d fl Hn Hd Hbr) as Hq. simpl in Hq.
  set (e := Z.max (fl - 52) (-1074)) in *.
  set (num := if 0 <=? e then n else n * 2 ^ (- e)) in *.
  set (den := if 0 <=? e then d * 2 ^ e else d) in *.
  destruct Hq as (Hden & Hnum & Hhi & Hlo).
  pose proof (Z.div_mod num den ltac:(lia)) as Hdm.
  pose proof (Z.mod_pos_bound num den Hden) as Hr.
  set (q := num / den) in *. set (r := num mod den) in *.
  assert (H53 : 0 < 2 ^ 53) by done. assert (H52 : 0 < 2 ^ 52) by done.
  assert (H5352 : 2 ^ 53 = 2 * 2 ^ 52) by done.
  set (T53 := 2 ^ 53) in *. set (T52 := 2 ^ 52) in *.
  assert (Hq0 : 0 <= q) by nia.
  assert (Hq53 : q <= T53 - 1) by nia.
  assert (Hq52 : -1074 < e -> T52 <= q) by (intros He; specialize (Hlo He); nia).
  set (up := (den <? 2 * r) || ((2 * r =? den) && Z.odd q)).
  assert (Hup : if up then den <= 2 * r else 2 * r <= den).
  { subst up. destruct (Z.ltb_spec den (2 * r)); simpl; [lia|].
    destruct (Z.eqb_spec (2 * r) den); simpl; [|lia]. destruct (Z.odd q); lia. }
  set (m := if up then q + 1 else q) in *.
  assert (Hm : 0 <= m <= T53) by (subst m; destruct up; lia).
  assert (Hhalf : 2 * Z.abs (num - m * den) <= den).
  { subst m. destruct up; nia. }
  destruct (Z.ltb_spec 971 e) as [Hbig|Hsmall]; simpl.
  - (* 2^1024 <= n / d *)
    assert (Hfl : fl = e + 52) by lia.
    unfold bracket in Hbr. destruct (Z.leb_spec 0 fl); [|lia].
    assert (2 ^ 1024 <= 2 ^ fl) by (apply Z.pow_le_mono_r; lia).
    assert (d * 2 ^ 1024 <= d * 2 ^ fl) by (apply Z.mul_le_mono_nonneg_l; lia).
    assert (H1025 : 2 ^ 1025 = 2 * 2 ^ 1024) by done.
    assert (0 < 2 ^ 971) by done. nia.
  - destruct (Z.eqb_spec e 971) as [He|He]; simpl.
    + destruct (Z.leb_spec T53 m) as [Hov|Hok].
      * assert (up = true /\ q = T53 - 1) as [Eup Eq].
        { subst m. destruct up; [split; [done|lia]|lia]. }
        rewrite Eup in Hup. subst num den. rewrite He in *. simpl in *.
        assert (H1025 : 2 ^ 1025 = 2 * T53 * 2 ^ 971) by done.
        assert (0 < 2 ^ 971) by done. set (X := 2 ^ 971) in *. nia.
      * split; [lia|]. split; [lia|]. split; [intros; subst m; destruct up; lia|].
        subst num den. rewrite He in *. simpl in *. lia.
    + split; [lia|]. split; [lia|]. split.
      * intros He'. specialize (Hq52 He'). subst m. destruct up; lia.
      * subst num den. destruct (Z.leb_spec 0 e); lia.
Qed.

(** Dividing two positive integers is rounding their quotient. *)
Lemma fdiv_positive (a b : Z) :
  0 < a -> 0 < b -> fdiv (of_Z a) (of_Z b) = round_pos a b.
Proof.
  intros Ha Hb. unfold fdiv, of_Z, round_rat.
  destruct (Z.eqb_spec b 0); [lia|]. simpl.
  rewrite Z.mul_1_r. destruct (Z.eqb_spec a 0); [lia|].
  destruct (Z.ltb_spec 0 a); [|lia]. destruct (Z.ltb_spec 0 b); [|lia]. done.
Qed.

Example one_tenth : fdiv (of_Z 1) (of_Z 10) = Fin 7205759403792794 (-56).
Proof. vm_compute. reflexivity. Qed.

Example one_third : fdiv (of_Z 1) (of_Z 3) = Fin 6004799503160661 (-54).
Proof. vm_compute. reflexivity. Qed.

Example sixty_seconds : fdiv (of_Z 60000) (of_Z 1000) = Fin (60 * 2 ^ 47) (-47).
Proof. vm_compute. reflexivity. Qed.

Example largest_double : round_rat (2 ^ 1024 - 2 ^ 970 - 1) 1 = Fin (2 ^ 53 - 1) 971.
Proof. vm_compute. reflexivity. Qed.

Example overflow : round_rat (2 ^ 1024 - 2 ^ 970) 1 = PInf.
Proof. vm_compute. reflexivity. Qed.

Example half_of_smallest : round_rat 1 (2 ^ 1075) = Fin 0 (-1074).
Proof. vm_compute. reflexivity. Qed.

Example toFixed_tie `{B : JsBuiltins} : toFixed (Fin 1 (-3)) 2 = "0.13".
Proof. vm_compute. reflexivity. Qed.

Example toFixed_small_negative `{B : JsBuiltins} : toFixed (Fin (-1) (-10)) 2 = "-0.00".
Proof. vm_compute. reflexivity. Qed.

Example toFixed_65_over_30 `{B : JsBuiltins} :
  toFixed (fdiv (of_Z 65) (fdiv (of_Z 30000) (of_Z 1000))) 2 = "2.17".
Proof. vm_compute. reflexivity. Qed.

(** ** The settling order is a rearrangement of the group *)

Lemma take_out_Permutation {A} (k : nat) (l : list A) x r :
  take_out k l = Some (x, r) -> l ≡ₚ x :: r.
Proof.
  revert k x r. induction l as [|a l IH]; intros k x r H; simpl in H.
  - discriminate.
  - destruct k as [|k].
    + injection H as <- <-. reflexivity.
    + destruct (take_out k l) as [[y r']|] eqn:E; [|discriminate].
      injection H as <- <-. rewrite (IH _ _ _ E). apply Permutation_swap.
Qed.

Lemma take_out_is_Some {A} (k : nat) (l : list A) :
  (k < length l)%nat -> is_Some (take_out k l).
Proof.
  revert k. induction l as [|a l IH]; intros k H; simpl in *.
  - lia.
  - destruct k as [|k]; [eauto|].
    destruct (IH k) as [[y r] E]; [lia|]. rewrite E. eauto.
Qed.

Lemma settle_order_Permutation {A} (choose : nat -> nat) (n : nat) (l : list A) :
  length l = n -> settle_order n choose l ≡ₚ l.
Proof.
  revert l. induction n as [|n IH]; intros l Hl; simpl.
  - destruct l; [reflexivity|discriminate].
  - destruct (take_out_is_Some (choose n mod length l)%nat l) as [[x r] E].
    { apply Nat.mod_upper_bound. lia. }
    rewrite E. pose proof (take_out_Permutation _ _ _ _ E) as HP.
    rewrite HP. constructor. apply IH.
    apply Permutation_length in HP. simpl in HP. lia.
Qed.

Lemma completion_order_Permutation {A} (choose : nat -> nat) (group : list A) :
  completion_order choose group ≡ₚ group.
Proof. apply settle_order_Permutation. reflexivity. Qed.

(** ** [createBatches] cuts the array into consecutive groups *)

Lemma slice_forward {A} (items : list A) (i b : Z) :
  0 <= i -> 0 < b ->
  slice items i (i + b) = take (Z.to_nat b) (drop (Z.to_nat i) items).
Proof.
  intros Hi Hb. unfold slice.
  destruct (Z.ltb_spec i 0); [lia|].
  destruct (Z.ltb_spec (i + b) 0); [lia|].
  set (len := Z.of_nat (length items)).
  destruct (Z.le_gt_cases len i) as [Hge|Hlt].
  - rewrite (drop_ge items (Z.to_nat i)) by (subst len; lia).
    rewrite (drop_ge items) by (subst len; lia).
    by rewrite !take_nil.
  - rewrite (Z.min_l i len) by lia.
    destruct (Z.le_gt_cases (i + b) len).
    + rewrite Z.min_l by lia. f_equal. lia.
    + rewrite Z.min_r by lia.
      rewrite !take_ge; [done| |]; rewrite length_drop; subst len; lia.
Qed.

Lemma createBatches_loop_spec {A} (items : list A) (b : Z) (Hb : 0 < b) :
  forall fuel i batches,
    0 <= i ->
    (Z.to_nat (Z.of_nat (length items) - i) < fuel)%nat ->
    exists more,
      createBatches_loop fuel items b i batches = Some (batches ++ more) /\
      concat more = drop (Z.to_nat i) items /\
      Forall (fun g => g <> [] /\ Z.of_nat (length g) <= b) more.
Proof.
  induction fuel as [|fuel IH]; intros i batches Hi Hfuel; [lia|].
  simpl. destruct (Z.ltb_spec i (Z.of_nat (length items))) as [Hlt|Hge].
  - destruct (IH (i + b) (batches ++ [slice items i (i + b)])) as (more & E & Hc & Hf);
      [lia|lia|].
    exists (slice items i (i + b) :: more). split; [|split].
    + rewrite E. by rewrite <- app_assoc.
    + simpl. rewrite Hc, slice_forward by lia.
      replace (Z.to_nat (i + b)) with (Z.to_nat i + Z.to_nat b)%nat by lia.
      rewrite <- drop_drop. apply take_drop.
    + constructor; [|done]. rewrite slice_forward by lia. split.
      * intros Hnil. apply (f_equal length) in Hnil.
        rewrite length_take, length_drop in Hnil. simpl in Hnil. lia.
      * rewrite length_take. lia.
  - exists []. rewrite app_nil_r. split; [done|]. split; [|constructor].
    simpl. rewrite drop_ge; [done|lia].
Qed.

Lemma createBatches_spec {A} (items : list A) (b : Z) :
  0 < b ->
  exists batches,
    createBatches items b = Some batches /\
    concat batches = items /\
    Forall (fun g => g <> [] /\ Z.of_nat (length g) <= b) batches.
Proof.
  intros Hb. unfold createBatches.
  destruct (createBatches_loop_spec items b Hb (S (length items)) 0 []) as (more & E & Hc & Hf);
    [lia|lia|].
  exists more. by rewrite E.
Qed.

(** ** The event loop in closed form *)

Section Loop.
Context `{B : JsBuiltins}.
Variables (p : t) (w : World).

Lemma settle_all_spec (js : list Job) : forall st,
  settle_all p w st js =
  {| st_results := st_results st ++ oks p w js;
     st_errors := st_errors st ++ errs p w js;
     st_log := st_log st ++ events p w (if st_rejection st is Some _ then true else false) js;
     st_rejection := rejection_after p w (st_rejection st) js |}.
Proof.
  unfold rejection_after.
  induction js as [|j js IH]; intros [rs es lg rej]; simpl.
  - rewrite !app_nil_r. by destruct (continueOnError p), rej.
  - rewrite IH. unfold settle, outcome. simpl.
    destruct (processFile p (jobWorld w (job_id j)) (job_file j)) as [r|m]; simpl.
    + by rewrite <- !app_assoc.
    + destruct (continueOnError p) eqn:Hc; simpl.
      * rewrite orb_false_r. by rewrite <- !app_assoc.
      * destruct rej as [m2|]; simpl; by rewrite <- ?app_assoc.
Qed.

Lemma run_batch_spec (k : nat) (st : RunState) (g : list Job) :
  st_rejection st = None ->
  run_batch p w k st g =
  {| st_results := st_results st ++ oks p w (order_of w k g);
     st_errors := st_errors st ++ errs p w (order_of w k g);
     st_log := st_log st ++ block p w k g;
     st_rejection := group_rejection p w k g |}.
Proof.
  intros Hrej. unfold run_batch. rewrite settle_all_spec. simpl.
  rewrite Hrej. unfold block, launches, group_rejection, order_of.
  by rewrite <- app_assoc.
Qed.

Lemma oks_app (a b : list Job) : oks p w (a ++ b) = oks p w a ++ oks p w b.
Proof.
  induction a as [|j a IH]; simpl; [done|].
  destruct (outcome p w j); simpl; by rewrite IH.
Qed.

Lemma errs_app (a b : list Job) : errs p w (a ++ b) = errs p w a ++ errs p w b.
Proof.
  induction a as [|j a IH]; simpl; [done|].
  destruct (outcome p w j); simpl; by rewrite IH.
Qed.

Lemma run_batches_spec (batches : list (list Job)) : forall k st,
  st_rejection st = None ->
  run_batches p w k st batches =
  {| st_results := st_results st ++ oks p w (settling p w k batches);
     st_errors := st_errors st ++ errs p w (settling p w k batches);
     st_log := st_log st ++ blocks p w k batches;
     st_rejection := final_rejection p w k batches |}.
Proof.
  induction batches as [|g rest IH]; intros k [rs es lg rej] Hrej;
    simpl in Hrej; subst rej; simpl.
  - by rewrite !app_nil_r.
  - rewrite run_batch_spec by done. simpl.
    destruct (group_rejection p w k g) as [m|] eqn:Hg; simpl.
    + by rewrite !app_nil_r.
    + rewrite IH by done. simpl.
      by rewrite oks_app, errs_app, <- !app_assoc.
Qed.

End Loop.

Lemma createBatches_loop_stuck {A} (items : list A) (b : Z) :
  b <= 0 -> items <> [] ->
  forall fuel i batches, i <= 0 -> createBatches_loop fuel items b i batches = None.
Proof.
  intros Hb Hne. induction fuel as [|fuel IH]; intros i batches Hi; simpl; [done|].
  destruct (Z.ltb_spec i (Z.of_nat (length items))) as [_|Hge].
  - apply IH. lia.
  - destruct items; [done|]. simpl in Hge. lia.
Qed.

Lemma createBatches_Some {A} (items : list A) (b : Z) batches :
  createBatches items b = Some batches ->
  concat batches = items /\
  (items <> [] -> 0 < b) /\
  Forall (fun g => g <> [] /\ Z.of_nat (length g) <= b) batches.
Proof.
  intros E. destruct (Z.lt_ge_cases 0 b) as [Hb|Hb].
  - destruct (createBatches_spec items b Hb) as (bs & E' & Hc & Hf).
    rewrite E in E'. injection E' as <-. done.
  - destruct items as [|x items].
    + injection E as <-. split; [done|]. split; [done|constructor].
    + unfold createBatches in E.
      rewrite createBatches_loop_stuck in E; [done|lia|done|lia].
Qed.

(** ** What a log pushes and counts *)

Section Logs.
Context `{B : JsBuiltins}.
Variables (p : t) (w : World).

Lemma oks_errs_length (js : list Job) :
  (length (oks p w js) + length (errs p w js) = length js)%nat.
Proof.
  induction js as [|j js IH]; simpl; [done|].
  destruct (outcome p w j); simpl; lia.
Qed.

Lemma oks_Permutation (a b : list Job) : a ≡ₚ b -> oks p w a ≡ₚ oks p w b.
Proof.
  induction 1 as [|j a b _ IH|j j' a|a b c _ IH1 _ IH2]; simpl.
  - done.
  - destruct (outcome p w j); [by constructor|done].
  - destruct (outcome p w j), (outcome p w j'); try done. apply Permutation_swap.
  - by etrans.
Qed.

Lemma errs_Permutation (a b : list Job) : a ≡ₚ b -> errs p w a ≡ₚ errs p w b.
Proof.
  induction 1 as [|j a b _ IH|j j' a|a b c _ IH1 _ IH2]; simpl.
  - done.
  - destruct (outcome p w j); [done|by constructor].
  - destruct (outcome p w j), (outcome p w j'); try done. apply Permutation_swap.
  - by etrans.
Qed.

Lemma elem_of_oks (js : list Job) r :
  r ∈ oks p w js <-> exists j, j ∈ js /\ outcome p w j = Ok r.
Proof.
  induction js as [|j js IH]; simpl.
  - split; [by intros ?%elem_of_nil|by intros (? & ?%elem_of_nil & _)].
  - destruct (outcome p w j) as [r'|m] eqn:E.
    + rewrite elem_of_cons, IH. split.
      * intros [->|(j' & Hj & Hr)]; [exists j|exists j']; rewrite ?elem_of_cons; auto.
      * intros (j' & [->|Hj]%elem_of_cons & Hr); [left; congruence|right; eauto].
    + rewrite IH. split.
      * intros (j' & Hj & Hr). exists j'. rewrite elem_of_cons. auto.
      * intros (j' & [->|Hj]%elem_of_cons & Hr); [congruence|eauto].
Qed.

Lemma elem_of_errs (js : list Job) e :
  e ∈ errs p w js <-> exists j m, j ∈ js /\ outcome p w j = Throw m /\ e = error_of j m.
Proof.
  induction js as [|j js IH]; simpl.
  - split; [by intros ?%elem_of_nil|by intros (? & ? & ?%elem_of_nil & _)].
  - destruct (outcome p w j) as [r'|m] eqn:E.
    + rewrite IH. split.
      * intros (j' & m & Hj & Hr). exists j', m. rewrite elem_of_cons. auto.
      * intros (j' & m & [->|Hj]%elem_of_cons & Hr & He); [congruence|eauto].
    + rewrite elem_of_cons, IH. split.
      * intros [->|(j' & m' & Hj & Hr)]; [exists j, m|exists j', m'];
          rewrite ?elem_of_cons; auto.
      * intros (j' & m' & [->|Hj]%elem_of_cons & Hr & He).
        -- left. congruence.
        -- right. eauto.
Qed.

Lemma continueOnError_no_rejection (k : nat) (g : list Job) :
  continueOnError p = true -> group_rejection p w k g = None.
Proof. intros H. unfold group_rejection, rejection_after. by rewrite H. Qed.

(** A loop that is not aborted settles every job of every group. *)
Lemma settling_all (batches : list (list Job)) : forall k,
  final_rejection p w k batches = None ->
  settling p w k batches ≡ₚ concat batches.
Proof.
  induction batches as [|g rest IH]; intros k H; simpl in *; [done|].
  destruct (group_rejection p w k g); [done|].
  rewrite IH by done. unfold order_of. by rewrite completion_order_Permutation.
Qed.

Lemma final_rejection_continue (batches : list (list Job)) : forall k,
  continueOnError p = true -> final_rejection p w k batches = None.
Proof.
  induction batches as [|g rest IH]; intros k H; simpl; [done|].
  rewrite continueOnError_no_rejection by done. by apply IH.
Qed.

Lemma pushed_results_app (a b : list Event) :
  pushed_results (a ++ b) = pushed_results a ++ pushed_results b.
Proof. induction a as [|[] a IH]; simpl; by rewrite ?IH. Qed.

Lemma pushed_errors_app (a b : list Event) :
  pushed_errors (a ++ b) = pushed_errors a ++ pushed_errors b.
Proof. induction a as [|[] a IH]; simpl; by rewrite ?IH. Qed.

Lemma outcomes_of_app id (a b : list Event) :
  outcomes_of id (a ++ b) = (outcomes_of id a + outcomes_of id b)%nat.
Proof. induction a as [|[] a IH]; simpl; rewrite ?IH; lia. Qed.

Lemma in_flight_app (a b : list Event) :
  in_flight (a ++ b) = in_flight a + in_flight b.
Proof. induction a as [|[] a IH]; simpl; rewrite ?IH; lia. Qed.

Lemma pushed_events (js : list Job) : forall rejected,
  pushed_results (events p w rejected js) = oks p w js /\
  pushed_errors (events p w rejected js) = errs p w js.
Proof.
  induction js as [|j js IH]; intros rejected; simpl; [done|].
  destruct (outcome p w j); simpl.
  - destruct (IH rejected) as [-> ->]. done.
  - rewrite pushed_results_app, pushed_errors_app.
    destruct (IH (rejected || negb (continueOnError p))) as [-> ->].
    by destruct (continueOnError p || rejected).
Qed.

Lemma pushed_launches (g : list Job) :
  pushed_results (launches g) = [] /\ pushed_errors (launches g) = [].
Proof. induction g; simpl; done. Qed.

Lemma pushed_blocks (batches : list (list Job)) : forall k,
  pushed_results (blocks p w k batches) = oks p w (settling p w k batches) /\
  pushed_errors (blocks p w k batches) = errs p w (settling p w k batches).
Proof.
  induction batches as [|g rest IH]; intros k; simpl; [done|].
  unfold block. rewrite !pushed_results_app, !pushed_errors_app, oks_app, errs_app.
  destruct (pushed_launches g) as [-> ->].
  destruct (pushed_events (order_of w k g) false) as [-> ->]. simpl.
  destruct (group_rejection p w k g); simpl; [done|].
  destruct (IH (S k)) as [-> ->]. done.
Qed.

End Logs.

(** ** Jobs and their positions *)

Lemma jobs_from_length (files : list string) : forall k,
  length (jobs_from k files) = length files.
Proof. induction files as [|f files IH]; intros k; simpl; [done|]. by rewrite IH. Qed.

Lemma elem_of_jobs_from (files : list string) : forall k j,
  j ∈ jobs_from k files <->
  exists i, files !! i = Some (job_file j) /\ job_id j = (k + i)%nat.
Proof.
  induction files as [|f files IH]; intros k j; simpl.
  - split; [by intros ?%elem_of_nil|by intros (i & ? & _)].
  - rewrite elem_of_cons, IH. split.
    + intros [->|(i & Hi & Hid)]; [exists 0%nat|exists (S i)]; simpl; split; auto; lia.
    + intros ([|i] & Hi & Hid); simpl in Hi.
      * left. destruct j as [id file]; simpl in *. f_equal; [lia|congruence].
      * right. exists i. split; [done|lia].
Qed.

Lemma elem_of_jobs_of (files : list string) (i : nat) (f : string) :
  {| job_id := i; job_file := f |} ∈ jobs_of files <-> files !! i = Some f.
Proof.
  unfold jobs_of. rewrite elem_of_jobs_from. simpl. split.
  - intros (i' & Hi & ->). done.
  - intros H. by exists i.
Qed.

Lemma jobs_from_ids_ge (files : list string) : forall k j,
  j ∈ jobs_from k files -> (k <= job_id j)%nat.
Proof. intros k j (i & _ & ->)%elem_of_jobs_from. lia. Qed.

Lemma jobs_from_NoDup (files : list string) : forall k,
  NoDup (map job_id (jobs_from k files)).
Proof.
  induction files as [|f files IH]; intros k; simpl; constructor; [|apply IH].
  intros (j & Hid & Hj%list_elem_of_In%jobs_from_ids_ge)%list_elem_of_In%in_map_iff. lia.
Qed.

Lemma at_position_app id (a b : list Job) :
  at_position id (a ++ b) = (at_position id a + at_position id b)%nat.
Proof. induction a as [|j a IH]; simpl; rewrite ?IH; lia. Qed.

Lemma at_position_Permutation id (a b : list Job) :
  a ≡ₚ b -> at_position id a = at_position id b.
Proof. induction 1; simpl; lia. Qed.

Lemma at_position_above id (files : list string) : forall k,
  (id < k)%nat -> at_position id (jobs_from k files) = 0%nat.
Proof.
  induction files as [|f files IH]; intros k H; simpl; [done|].
  rewrite IH by lia. destruct (Nat.eqb_spec k id); [lia|done].
Qed.

Lemma at_position_jobs_from id (files : list string) : forall k,
  (k <= id < k + length files)%nat -> at_position id (jobs_from k files) = 1%nat.
Proof.
  induction files as [|f files IH]; intros k H; simpl in *; [lia|].
  destruct (Nat.eqb_spec k id) as [->|Hne].
  - rewrite at_position_above by lia. done.
  - rewrite IH by lia. done.
Qed.

Section LogsOfJobs.
Context `{B : JsBuiltins}.
Variables (p : t) (w : World).

Lemma outcomes_of_events id (js : list Job) : forall rejected,
  outcomes_of id (events p w rejected js) = at_position id js.
Proof.
  induction js as [|j js IH]; intros rejected; simpl; [done|].
  destruct (outcome p w j); simpl; [by rewrite IH|].
  rewrite outcomes_of_app, IH.
  by destruct (continueOnError p || rejected).
Qed.

Lemma outcomes_of_launches id (g : list Job) : outcomes_of id (launches g) = 0%nat.
Proof. induction g; simpl; done. Qed.

Lemma outcomes_of_blocks id (batches : list (list Job)) : forall k,
  outcomes_of id (blocks p w k batches) = at_position id (settling p w k batches).
Proof.
  induction batches as [|g rest IH]; intros k; simpl; [done|].
  unfold block. rewrite !outcomes_of_app, outcomes_of_launches, outcomes_of_events.
  rewrite at_position_app. simpl.
  destruct (group_rejection p w k g); simpl; [done|]. by rewrite IH.
Qed.

Lemma settle_event_in_events (js : list Job) : forall rejected j,
  j ∈ js -> In (settle_event p w j) (events p w rejected js).
Proof.
  induction js as [|j' js IH]; intros rejected j Hj.
  - by apply elem_of_nil in Hj.
  - apply elem_of_cons in Hj as [->|Hj]; simpl; unfold settle_event.
    + destruct (outcome p w j'); simpl; auto.
    + destruct (outcome p w j'); simpl.
      * right. by apply IH.
      * right. apply in_or_app. right. by apply IH.
Qed.

Lemma in_events (ev : Event) (js : list Job) : forall rejected,
  In ev (events p w rejected js) ->
  (exists j, j ∈ js /\ ev = settle_event p w j) \/ (exists m, ev = Abort m).
Proof.
  induction js as [|j js IH]; intros rejected H; simpl in H; [done|].
  assert (Hhere : j ∈ j :: js) by (apply elem_of_cons; auto).
  assert (Hlater : forall j', j' ∈ js -> j' ∈ j :: js) by (intros; apply elem_of_cons; auto).
  unfold settle_event in *. destruct (outcome p w j) as [r|m] eqn:E; simpl in H.
  - destruct H as [<-|H].
    + left. exists j. by rewrite E.
    + destruct (IH _ H) as [(j' & Hj' & ->)|]; [left; eauto|by right].
  - destruct H as [<-|H].
    + left. exists j. by rewrite E.
    + apply in_app_or in H as [H|H].
      * right. destruct (continueOnError p || rejected); simpl in H; [done|].
        destruct H as [<-|[]]. eauto.
      * destruct (IH _ H) as [(j' & Hj' & ->)|]; [left; eauto|by right].
Qed.

End LogsOfJobs.

(** ** [processFiles] unfolded *)

Section Runs.
Context `{B : JsBuiltins}.
Variables (p : t) (w : World).

Lemma processFiles_log (files : list string) u batches :
  mkdirOutput w = Ok u ->
  createBatches (jobs_of files) (concurrency p) = Some batches ->
  log (processFiles p w files) = blocks p w 0 batches.
Proof.
  intros Hm Hb. unfold processFiles. rewrite Hm, Hb.
  rewrite run_batches_spec by done. simpl.
  destruct (final_rejection p w 0 batches); [done|].
  unfold saveReport. destruct (writeReport w); [|done].
  destruct (generateSummary _); [|done]. by destruct (writeSummary w).
Qed.

Lemma processFiles_throws (files : list string) u batches m :
  mkdirOutput w = Ok u ->
  createBatches (jobs_of files) (concurrency p) = Some batches ->
  final_rejection p w 0 batches = Some m ->
  ret (processFiles p w files) = Throws m /\ saved (processFiles p w files) = None.
Proof.
  intros Hm Hb Hr. unfold processFiles. rewrite Hm, Hb.
  rewrite run_batches_spec by done. simpl. by rewrite Hr.
Qed.

(** A loop that was not aborted: the report is written if it can be, and
    the call ends as the summary step does. *)
Lemma processFiles_returns (files : list string) u u1 batches :
  mkdirOutput w = Ok u ->
  createBatches (jobs_of files) (concurrency p) = Some batches ->
  final_rejection p w 0 batches = None ->
  writeReport w = Ok u1 ->
  let rs := oks p w (settling p w 0 batches) in
  let es := errs p w (settling p w 0 batches) in
  let d := fdiv (of_Z (batchElapsedMs w)) (of_Z 1000) in
  let report := {| report_results := rs; report_errors := es; report_duration := d;
                   totalFiles := length files;
                   successful := length rs; failed := length es |} in
  processFiles p w files =
  {| ret := match generateSummary report with
            | Throw m => Throws m
            | Ok _ =>
                match writeSummary w with
                | Throw m => Throws m
                | Ok _ => Returns {| results := rs; errors := es;
                                     batch_duration := Some d |}
                end
            end;
     saved := Some report;
     log := blocks p w 0 batches |}.
Proof.
  intros Hm Hb Hr H1. unfold processFiles. rewrite Hm, Hb.
  rewrite run_batches_spec by done. simpl. unfold saveReport. rewrite Hr, H1.
  destruct (generateSummary _); [|done]. by destruct (writeSummary w).
Qed.

(** A report is only written by a loop that was not aborted, and it lists
    what that loop pushed. *)
Lemma processFiles_saved (files : list string) rep :
  saved (processFiles p w files) = Some rep ->
  exists batches,
    createBatches (jobs_of files) (concurrency p) = Some batches /\
    final_rejection p w 0 batches = None /\
    rep = {| report_results := oks p w (settling p w 0 batches);
             report_errors := errs p w (settling p w 0 batches);
             report_duration := fdiv (of_Z (batchElapsedMs w)) (of_Z 1000);
             totalFiles := length files;
             successful := length (oks p w (settling p w 0 batches));
             failed := length (errs p w (settling p w 0 batches)) |}.
Proof.
  unfold processFiles. destruct (mkdirOutput w); [|done].
  destruct (createBatches (jobs_of files) (concurrency p)) as [batches|]; [|done].
  rewrite run_batches_spec by done. simpl.
  destruct (final_rejection p w 0 batches) eqn:Hr; [done|].
  unfold saveReport. destruct (writeReport w); [|done].
  destruct (generateSummary _); [|simpl; intros [= <-]; eauto].
  destruct (writeSummary w); simpl; intros [= <-]; eauto.
Qed.

Lemma settled_count (batches : list (list Job)) (files : list string) :
  concat batches = jobs_of files ->
  final_rejection p w 0 batches = None ->
  (length (oks p w (settling p w 0 batches)) +
   length (errs p w (settling p w 0 batches)) = length files)%nat.
Proof.
  intros Hc Hr. rewrite oks_errs_length.
  rewrite (Permutation_length (settling_all p w batches 0 Hr)), Hc.
  apply jobs_from_length.
Qed.

End Runs.

(** ** The report counts every job once *)

(** C2. A report that a run of [processFiles] or of [processDirectory]
    saves has [totalFiles] equal to the number of its results plus the
    number of its errors, and [successful] and [failed] are those two
    numbers. *)
Theorem report_total_is_results_plus_errors `{B : JsBuiltins}
    (p : t) (w : World) (files : list string) (directory : string)
    (run : Run) (rep : Report) :
  run = processFiles p w files \/ run = processDirectory p w directory ->
  saved run = Some rep ->
  totalFiles rep = (length (report_results rep) + length (report_errors rep))%nat /\
  successful rep = length (report_results rep) /\
  failed rep = length (report_errors rep).
Proof.
  assert (Hfiles : forall files, saved (processFiles p w files) = Some rep ->
     totalFiles rep = (length (report_results rep) + length (report_errors rep))%nat /\
     successful rep = length (report_results rep) /\
     failed rep = length (report_errors rep)).
  { intros files' (batches & Hb & Hr & ->)%processFiles_saved. simpl.
    destruct (createBatches_Some _ _ _ Hb) as (Hc & _).
    by rewrite (settled_count p w batches files' Hc Hr). }
  intros [->| ->]; [apply Hfiles|].
  unfold processDirectory. destruct (Nat.eqb _ 0); [done|]. apply Hfiles.
Qed.

(** ** Every job that starts settles, once *)

Section Settling.
Context `{B : JsBuiltins}.
Variables (p : t) (w : World).

Lemma settle_event_in_blocks (batches : list (list Job)) : forall k j,
  j ∈ settling p w k batches -> In (settle_event p w j) (blocks p w k batches).
Proof.
  induction batches as [|g rest IH]; intros k j Hj; simpl in *.
  - by apply elem_of_nil in Hj.
  - apply elem_of_app in Hj as [Hj|Hj]; apply in_or_app.
    + left. unfold block. apply in_or_app. right.
      by apply settle_event_in_events.
    + right. destruct (group_rejection p w k g).
      * by apply elem_of_nil in Hj.
      * by apply IH.
Qed.

Lemma settled_of_event (j : Job) (t : list Event) :
  In (settle_event p w j) t -> settled (job_id j) t.
Proof.
  unfold settle_event, settled. destruct (outcome p w j); eauto.
Qed.

Lemma launched_launches id (g : list Job) :
  launched id (launches g) <-> exists j, j ∈ g /\ job_id j = id.
Proof.
  unfold launched, launches. rewrite in_map_iff. split.
  - intros (j & [= <-] & Hj%list_elem_of_In). eauto.
  - intros (j & Hj%list_elem_of_In & <-). eauto.
Qed.

Lemma not_launched_events id (js : list Job) rejected :
  ~ launched id (events p w rejected js).
Proof.
  intros [(j & _ & E)|(m & E)]%in_events; [|done].
  unfold settle_event in E. by destruct (outcome p w j).
Qed.

Lemma launched_block id k (g : list Job) :
  launched id (block p w k g) <-> exists j, j ∈ g /\ job_id j = id.
Proof.
  unfold launched, block. rewrite in_app_iff. split.
  - intros [H|H]; [by apply launched_launches|by apply not_launched_events in H].
  - intros H. left. by apply launched_launches.
Qed.

(** The jobs a log starts are those that settle. *)
Lemma launched_blocks id (batches : list (list Job)) : forall k,
  launched id (blocks p w k batches) <->
  exists j, j ∈ settling p w k batches /\ job_id j = id.
Proof.
  induction batches as [|g rest IH]; intros k; simpl.
  - split; [done|by intros (j & ?%elem_of_nil & _)].
  - unfold launched in *. rewrite in_app_iff. fold (launched id (block p w k g)).
    rewrite launched_block. setoid_rewrite elem_of_app.
    unfold order_of. setoid_rewrite completion_order_Permutation.
    destruct (group_rejection p w k g).
    + split.
      * intros [(j & ? & ?)|[]]; eauto.
      * intros (j & [?|?%elem_of_nil] & ?); [eauto|done].
    + rewrite IH. split.
      * intros [(j & ? & ?)|(j & ? & ?)]; eauto.
      * intros (j & [?|?] & ?); eauto.
Qed.

End Settling.

(** ** Failure isolation *)

(** C1. With [continueOnError] on, a positive concurrency and a working
    output directory, [processFiles] records the outcome of every job
    whatever jobs fail, and writes them to the report.  The numbers of
    results and of errors add up to the number of files.  The job at each
    position records exactly one outcome: its result, which is then among
    the results, or its error, which is then among the errors; a job that
    succeeds is recorded whatever the other jobs do.  No failure of a job
    makes the call throw: it returns these results and errors, unless the
    summary step that follows the report fails, because the summary
    cannot be built or cannot be written. *)
Theorem failure_isolation `{B : JsBuiltins} (p : t) (w : World) (files : list string) :
  continueOnError p = true ->
  0 < concurrency p ->
  mkdirOutput w = Ok tt -> writeReport w = Ok tt ->
  let run := processFiles p w files in
  exists report,
    saved run = Some report /\
    (length (report_results report) + length (report_errors report) = length files)%nat /\
    report_results report = pushed_results (log run) /\
    report_errors report = pushed_errors (log run) /\
    (forall i f, files !! i = Some f ->
      outcomes_of i (log run) = 1%nat /\
      match processFile p (jobWorld w i) f with
      | Ok result => In (Succeeded i result) (log run) /\ result ∈ report_results report
      | Throw m =>
          In (Failed i {| error_file := f; error := m |}) (log run) /\
          {| error_file := f; error := m |} ∈ report_errors report
      end) /\
    ret run =
      match generateSummary report with
      | Throw m => Throws m
      | Ok _ =>
          match writeSummary w with
          | Throw m => Throws m
          | Ok _ => Returns {| results := report_results report;
                               errors := report_errors report;
                               batch_duration := Some (report_duration report) |}
          end
      end.
Proof.
  intros Hc Hpos Hm Hw1 run.
  destruct (createBatches_spec (jobs_of files) (concurrency p) Hpos) as (bs & Hb & Hcat & _).
  pose proof (final_rejection_continue p w bs 0 Hc) as Hr.
  pose proof (settling_all p w bs 0 Hr) as HP. rewrite Hcat in HP.
  subst run. rewrite (processFiles_returns p w files tt tt bs Hm Hb Hr Hw1).
  simpl. eexists. split; [reflexivity|]. simpl.
  destruct (pushed_blocks p w bs 0) as [-> ->].
  split; [by apply settled_count|]. split; [done|]. split; [done|].
  split; [|done].
  intros i f Hi.
  assert (Hj : {| job_id := i; job_file := f |} ∈ settling p w 0 bs).
  { rewrite HP. by apply elem_of_jobs_of. }
  split.
  - rewrite outcomes_of_blocks, (at_position_Permutation _ _ _ HP).
    apply at_position_jobs_from. apply lookup_lt_Some in Hi. lia.
  - pose proof (settle_event_in_blocks p w bs 0 _ Hj) as Hev.
    unfold settle_event, outcome, error_of in Hev. simpl in Hev.
    destruct (processFile p (jobWorld w i) f) as [result|m] eqn:E.
    + split; [done|]. apply elem_of_oks. eexists. split; [exact Hj|]. exact E.
    + split; [done|]. apply elem_of_errs. eexists _, m. split; [exact Hj|].
      split; [exact E|done].
Qed.

(** ** The concurrency ceiling and the group barrier *)

Lemma within_nil lo hi : lo <= 0 <= hi -> within lo hi [].
Proof.
  intros H t1 t2 E. symmetry in E. apply app_eq_nil in E as [-> _]. done.
Qed.

Lemma within_cons lo hi (ev : Event) (t : list Event) :
  lo <= 0 <= hi ->
  within (lo - in_flight [ev]) (hi - in_flight [ev]) t ->
  within lo hi (ev :: t).
Proof.
  intros H0 Ht [|ev' t1] t2 E; simpl in E; [done|].
  injection E as <- E. specialize (Ht _ _ E).
  change (ev :: t1) with ([ev] ++ t1). rewrite in_flight_app. lia.
Qed.

Lemma within_app lo hi (a b : list Event) :
  within lo hi a ->
  within (lo - in_flight a) (hi - in_flight a) b ->
  within lo hi (a ++ b).
Proof.
  intros Ha Hb t1 t2 E. symmetry in E.
  apply app_eq_app in E as [l [[-> E]|[-> E]]].
  - rewrite in_flight_app. specialize (Hb _ _ E). lia.
  - by apply (Ha t1 l).
Qed.

Lemma within_weaken lo hi lo' hi' (t : list Event) :
  within lo hi t -> lo' <= lo -> hi <= hi' -> within lo' hi' t.
Proof. intros H ? ? t1 t2 E. specialize (H _ _ E). lia. Qed.

Section Ceiling.
Context `{B : JsBuiltins}.
Variables (p : t) (w : World).

Lemma in_flight_launches (g : list Job) : in_flight (launches g) = Z.of_nat (length g).
Proof. induction g as [|j g IH]; simpl; [done|]. rewrite IH. lia. Qed.

Lemma in_flight_events (js : list Job) : forall rejected,
  in_flight (events p w rejected js) = - Z.of_nat (length js).
Proof.
  induction js as [|j js IH]; intros rejected; simpl; [done|].
  destruct (outcome p w j); simpl; rewrite ?in_flight_app, IH.
  - lia.
  - destruct (continueOnError p || rejected); simpl; lia.
Qed.

Lemma within_launches (g : list Job) : within 0 (Z.of_nat (length g)) (launches g).
Proof.
  intros t1 t2 E. unfold launches in E.
  apply map_eq_app in E as (g1 & g2 & -> & <- & <-).
  fold (launches g1). rewrite in_flight_launches, length_app. lia.
Qed.

Lemma within_events (js : list Job) : forall rejected,
  within (- Z.of_nat (length js)) 0 (events p w rejected js).
Proof.
  induction js as [|j js IH]; intros rejected; simpl events.
  - by apply within_nil.
  - simpl length. destruct (outcome p w j).
    + apply within_cons; [lia|]. simpl.
      eapply within_weaken; [apply IH|lia|lia].
    + apply within_cons; [lia|]. simpl.
      destruct (continueOnError p || rejected); simpl.
      * eapply within_weaken; [apply IH|lia|lia].
      * apply within_cons; [lia|]. simpl.
        eapply within_weaken; [apply IH|lia|lia].
Qed.

Lemma within_block k (g : list Job) :
  within 0 (Z.of_nat (length g)) (block p w k g) /\ in_flight (block p w k g) = 0.
Proof.
  assert (Hlen : length (order_of w k g) = length g).
  { unfold order_of. by rewrite completion_order_Permutation. }
  unfold block. split.
  - apply within_app; [apply within_launches|].
    rewrite in_flight_launches.
    eapply within_weaken; [apply within_events|rewrite Hlen; lia|lia].
  - rewrite in_flight_app, in_flight_launches, in_flight_events, Hlen. lia.
Qed.

Lemma within_blocks (c : Z) (batches : list (list Job)) : forall k,
  0 <= c ->
  Forall (fun g => Z.of_nat (length g) <= c) batches ->
  within 0 c (blocks p w k batches).
Proof.
  induction batches as [|g rest IH]; intros k Hc Hall; simpl.
  - by apply within_nil.
  - apply Forall_cons in Hall as [Hg Hrest].
    destruct (within_block k g) as [Hw H0].
    apply within_app; [eapply within_weaken; [exact Hw|lia|lia]|].
    rewrite H0, !Z.sub_0_r.
    destruct (group_rejection p w k g); [by apply within_nil|by apply IH].
Qed.

Lemma split_after (l1 l2 t1 t2 : list Event) (x : Event) :
  l1 ++ l2 = t1 ++ x :: t2 -> ~ In x l1 ->
  exists t1', t1 = l1 ++ t1' /\ l2 = t1' ++ x :: t2.
Proof.
  intros E Hx. apply app_eq_app in E as [l [[-> E]|[-> E]]].
  - destruct l as [|y l]; simpl in E.
    + subst l2. exists []. by rewrite !app_nil_r.
    + injection E as <- _. exfalso. apply Hx. apply in_or_app. right. by left.
  - eauto.
Qed.

Lemma group_ids_apart (batches : list (list Job)) : forall a b ga gb i j,
  NoDup (map job_id (concat batches)) ->
  batches !! a = Some ga -> batches !! b = Some gb ->
  i ∈ ga -> j ∈ gb -> job_id i = job_id j -> a = b.
Proof.
  assert (Hin : forall (rest : list (list Job)) n g x,
             rest !! n = Some g -> x ∈ g -> job_id x ∈ map job_id (concat rest)).
  { intros rest n g x Hn Hx. apply list_elem_of_In, in_map, in_concat.
    exists g. split; apply list_elem_of_In; [|done].
    by apply list_elem_of_lookup_2 in Hn. }
  induction batches as [|g rest IH]; intros a b ga gb i j Hnd Ha Hb Hi Hj Hid; [done|].
  simpl in Hnd. rewrite map_app in Hnd.
  apply NoDup_app in Hnd as (_ & Hdisj & Hrest).
  assert (Hg : forall x, x ∈ g -> job_id x ∈ map job_id g).
  { intros x Hx. by apply list_elem_of_In, in_map, list_elem_of_In. }
  destruct a as [|a], b as [|b]; simpl in *.
  - done.
  - injection Ha as <-. exfalso. apply (Hdisj (job_id i)); [by apply Hg|].
    rewrite Hid. by eapply Hin.
  - injection Hb as <-. exfalso. apply (Hdisj (job_id j)); [by apply Hg|].
    rewrite <- Hid. by eapply Hin.
  - f_equal. by eapply IH.
Qed.

(** No job of a later group starts before every job of an earlier group
    has settled. *)
Lemma barrier_blocks (batches : list (list Job)) : forall k a b ga gb i j t1 t2,
  NoDup (map job_id (concat batches)) ->
  batches !! a = Some ga -> batches !! b = Some gb -> (a < b)%nat ->
  i ∈ ga -> j ∈ gb ->
  blocks p w k batches = t1 ++ Launch (job_id j) :: t2 ->
  settled (job_id i) t1.
Proof.
  induction batches as [|g rest IH]; intros k a b ga gb i j t1 t2 Hnd Ha Hb Hab Hi Hj E;
    [done|].
  destruct b as [|b]; [lia|]. simpl in Hb, E.
  apply split_after in E as (t1' & -> & E).
  - assert (Hrest : NoDup (map job_id (concat rest))).
    { simpl in Hnd. rewrite map_app in Hnd. by apply NoDup_app in Hnd as (_ & _ & ?). }
    destruct (group_rejection p w k g); [by destruct t1'|].
    destruct a as [|a]; simpl in Ha.
    + injection Ha as <-.
      assert (Hs : settled (job_id i) (block p w k g)).
      { apply (settled_of_event p w). unfold block. apply in_or_app. right.
        apply settle_event_in_events. unfold order_of.
        by rewrite completion_order_Permutation. }
      destruct Hs as [[r Hr]|[e He]]; [left; exists r|right; exists e];
        apply in_or_app; by left.
    + assert (Hs : settled (job_id i) t1').
      { apply (IH (S k) a b ga gb i j t1' t2); try done. lia. }
      destruct Hs as [[r Hr]|[e He]]; [left; exists r|right; exists e];
        apply in_or_app; by right.
  - intros (j' & Hj' & Hid)%launched_block.
    assert (0%nat = S b); [|done].
    eapply (group_ids_apart (g :: rest) 0 (S b) g gb j' j); eauto.
Qed.

End Ceiling.

(** C4. With a positive integer concurrency, at every moment of a run of
    [processFiles] the number of jobs in flight is at most the concurrency;
    the groups are consecutive pieces of the file list of at most that many
    jobs, and no job of a group is started before every job of every
    earlier group has settled. *)
Theorem bounded_group_barrier `{B : JsBuiltins} (p : t) (w : World) (files : list string) :
  0 < concurrency p ->
  let run := processFiles p w files in
  (forall t1 t2, log run = t1 ++ t2 -> 0 <= in_flight t1 <= concurrency p) /\
  exists batches,
    createBatches (jobs_of files) (concurrency p) = Some batches /\
    concat batches = jobs_of files /\
    Forall (fun g => g <> [] /\ Z.of_nat (length g) <= concurrency p) batches /\
    forall a b ga gb i j t1 t2,
      batches !! a = Some ga -> batches !! b = Some gb -> (a < b)%nat ->
      i ∈ ga -> j ∈ gb ->
      log run = t1 ++ Launch (job_id j) :: t2 ->
      settled (job_id i) t1.
Proof.
  intros Hpos run.
  destruct (createBatches_spec (jobs_of files) (concurrency p) Hpos) as (bs & Hb & Hcat & Hall).
  assert (Hlog : log run = [] \/ log run = blocks p w 0 bs).
  { subst run. destruct (mkdirOutput w) as [u|m] eqn:Hm.
    - right. by eapply processFiles_log.
    - left. unfold processFiles. by rewrite Hm. }
  split.
  - destruct Hlog as [-> | ->].
    + apply within_nil. lia.
    + apply within_blocks; [lia|]. eapply Forall_impl; [exact Hall|]. by intros g [_ ?].
  - exists bs. split; [done|]. split; [done|]. split; [done|].
    intros a b ga gb i j t1 t2 Ha Hb' Hab Hi Hj E.
    destruct Hlog as [Hl|Hl]; rewrite Hl in E.
    + by destruct t1.
    + apply (barrier_blocks p w bs 0 a b ga gb i j t1 t2); try done.
      rewrite Hcat. apply jobs_from_NoDup.
Qed.

(** ** Abort on the first failure *)

Section Abort.
Context `{B : JsBuiltins}.
Variables (p : t) (w : World).

Lemma first_error_Some (js : list Job) m :
  first_error p w js = Some m ->
  exists before j after,
    js = before ++ j :: after /\
    (forall j', j' ∈ before -> fails p w j' = false) /\
    outcome p w j = Throw m.
Proof.
  induction js as [|j js IH]; simpl; [done|].
  destruct (outcome p w j) as [r|m'] eqn:E.
  - intros (before & j0 & after & -> & Hclean & Hj0)%IH.
    exists (j :: before), j0, after. split; [done|]. split; [|done].
    intros j' [->|?]%elem_of_cons; [|by apply Hclean].
    unfold fails. by rewrite E.
  - intros [= ->]. exists [], j, js. split; [done|]. split; [|done].
    by intros j' ?%elem_of_nil.
Qed.

Lemma first_error_is_Some (js : list Job) j :
  j ∈ js -> fails p w j = true -> is_Some (first_error p w js).
Proof.
  induction js as [|j' js IH]; intros Hj Hf; [by apply elem_of_nil in Hj|].
  simpl. destruct (outcome p w j') as [r|m] eqn:E; [|eauto].
  apply elem_of_cons in Hj as [->|Hj]; [|by apply IH].
  unfold fails in Hf. by rewrite E in Hf.
Qed.

Lemma first_error_None (js : list Job) :
  (forall j, j ∈ js -> fails p w j = false) -> first_error p w js = None.
Proof.
  induction js as [|j js IH]; intros H; simpl; [done|].
  pose proof (H j) as Hj. unfold fails in Hj.
  destruct (outcome p w j).
  - apply IH. intros j' Hj'. apply H. apply elem_of_cons. auto.
  - discriminate Hj. apply elem_of_cons. auto.
Qed.

Lemma events_clean_app (a b : list Job) rejected :
  (forall j, j ∈ a -> fails p w j = false) ->
  events p w rejected (a ++ b) = events p w rejected a ++ events p w rejected b.
Proof.
  induction a as [|j a IH]; intros H; simpl; [done|].
  pose proof (H j) as Hj. unfold fails in Hj.
  destruct (outcome p w j).
  - rewrite IH; [done|]. intros j' Hj'. apply H. apply elem_of_cons. auto.
  - discriminate Hj. apply elem_of_cons. auto.
Qed.

Lemma events_clean (js : list Job) rejected ev :
  (forall j, j ∈ js -> fails p w j = false) ->
  In ev (events p w rejected js) -> exists id r, ev = Succeeded id r.
Proof.
  induction js as [|j js IH]; intros H Hev; simpl in Hev; [done|].
  pose proof (H j) as Hj. unfold fails in Hj.
  destruct (outcome p w j).
  - destruct Hev as [<-|Hev]; [eauto|].
    apply IH; [|done]. intros j' Hj'. apply H. apply elem_of_cons. auto.
  - discriminate Hj. apply elem_of_cons. auto.
Qed.

Lemma group_rejection_abort k (g : list Job) :
  continueOnError p = false ->
  group_rejection p w k g = first_error p w (order_of w k g).
Proof. intros H. unfold group_rejection, rejection_after. by rewrite H. Qed.

Lemma group_rejection_clean k (g : list Job) :
  (forall j, j ∈ g -> fails p w j = false) -> group_rejection p w k g = None.
Proof.
  intros H. unfold group_rejection, rejection_after.
  destruct (continueOnError p); [done|]. apply first_error_None.
  intros j Hj. apply H. unfold order_of in Hj.
  by rewrite completion_order_Permutation in Hj.
Qed.

(** The log up to and including the group that rejects. *)
Lemma blocks_upto (batches : list (list Job)) : forall k0 k g,
  batches !! k = Some g ->
  (forall a ga j, (a < k)%nat -> batches !! a = Some ga -> j ∈ ga -> fails p w j = false) ->
  is_Some (group_rejection p w (k0 + k) g) ->
  blocks p w k0 batches = blocks p w k0 (take k batches) ++ block p w (k0 + k) g /\
  settling p w k0 batches = settling p w k0 (take k batches) ++ order_of w (k0 + k) g /\
  final_rejection p w k0 batches = group_rejection p w (k0 + k) g /\
  final_rejection p w k0 (take k batches) = None.
Proof.
  induction batches as [|g0 rest IH]; intros k0 k g Hk Hclean Hrej; [done|].
  destruct k as [|k]; simpl in Hk.
  - injection Hk as ->. rewrite Nat.add_0_r in *. simpl.
    destruct Hrej as [m Hm]. rewrite Hm. by rewrite !app_nil_r.
  - simpl. rewrite group_rejection_clean.
    + replace (k0 + S k)%nat with (S k0 + k)%nat in * by lia.
      destruct (IH (S k0) k g Hk) as (-> & -> & -> & ->); [|done|].
      * intros a ga j Ha. apply (Hclean (S a)). lia.
      * by rewrite <- !app_assoc.
    + intros j. apply (Hclean 0%nat g0); [lia|done].
Qed.

Lemma blocks_clean (batches : list (list Job)) : forall k0 ev,
  (forall g j, g ∈ batches -> j ∈ g -> fails p w j = false) ->
  In ev (blocks p w k0 batches) ->
  (exists id, ev = Launch id) \/ (exists id r, ev = Succeeded id r).
Proof.
  induction batches as [|g rest IH]; intros k0 ev H Hev; simpl in Hev; [done|].
  apply in_app_or in Hev as [Hev|Hev].
  - unfold block in Hev. apply in_app_or in Hev as [Hev|Hev].
    + unfold launches in Hev. apply in_map_iff in Hev as (j & <- & _). eauto.
    + right. eapply events_clean; [|exact Hev].
      intros j Hj. apply (H g); [apply elem_of_cons; auto|].
      unfold order_of in Hj. by rewrite completion_order_Permutation in Hj.
  - destruct (group_rejection p w k0 g); [done|].
    apply (IH (S k0)); [|done].
    intros g' j Hg'. apply H. apply elem_of_cons. auto.
Qed.

End Abort.

(** C3. With [continueOnError] off, let group [k] be the first group with a
    job that fails.  Then [processFiles] throws to its caller the error of
    the first job of that group to fail, and saves no report.  The abort
    follows that failure at once, no failure comes before it and nothing is
    started after it; the other jobs of group [k] still settle; and the
    jobs that were started are those of the groups up to [k]. *)
Theorem abort_on_first_failure `{B : JsBuiltins} (p : t) (w : World)
    (files : list string) (batches : list (list Job)) (k : nat) (g : list Job) :
  continueOnError p = false ->
  mkdirOutput w = Ok tt ->
  createBatches (jobs_of files) (concurrency p) = Some batches ->
  batches !! k = Some g ->
  (exists j, j ∈ g /\ fails p w j = true) ->
  (forall a ga j, (a < k)%nat -> batches !! a = Some ga -> j ∈ ga -> fails p w j = false) ->
  let run := processFiles p w files in
  exists j m t1 t2,
    j ∈ g /\ outcome p w j = Throw m /\
    ret run = Throws m /\ saved run = None /\
    log run = t1 ++ Failed (job_id j) (error_of j m) :: Abort m :: t2 /\
    (forall id e, ~ In (Failed id e) t1) /\
    (forall m', ~ In (Abort m') t1) /\
    (forall id, ~ launched id t2) /\
    (forall j', j' ∈ g -> settled (job_id j') (log run)) /\
    (forall b gb j', batches !! b = Some gb -> j' ∈ gb ->
       (launched (job_id j') (log run) <-> (b <= k)%nat)).
Proof.
  intros Hc Hm Hb Hk (jf & Hjf & Hfails) Hclean run.
  assert (Hord : order_of w k g ≡ₚ g) by apply completion_order_Permutation.
  destruct (first_error_is_Some p w (order_of w k g) jf) as [m Hfirst];
    [by rewrite Hord|done|].
  destruct (first_error_Some p w _ _ Hfirst) as (before & j & after & Hsplit & Hbefore & Hj).
  assert (Hrej : group_rejection p w (0 + k) g = Some m).
  { simpl. by rewrite group_rejection_abort. }
  destruct (blocks_upto p w batches 0 k g Hk Hclean) as (Hblocks & Hsettling & Hfinal & Hnone);
    [by rewrite Hrej|].
  simpl in Hblocks, Hsettling, Hfinal, Hrej. rewrite Hrej in Hfinal.
  destruct (processFiles_throws p w files tt batches m Hm Hb Hfinal) as [Hret Hsaved].
  assert (Hlog : log run = blocks p w 0 batches) by (by eapply processFiles_log).
  assert (Hblock : block p w k g =
            (launches g ++ events p w false before) ++
            Failed (job_id j) (error_of j m) :: Abort m :: events p w true after).
  { unfold block. rewrite Hsplit, events_clean_app by done. simpl.
    fold (outcome p w j). rewrite Hj, Hc. simpl. by rewrite <- app_assoc. }
  exists j, m, (blocks p w 0 (take k batches) ++ launches g ++ events p w false before),
    (events p w true after).
  assert (Hjg : j ∈ g).
  { rewrite <- Hord, Hsplit. apply elem_of_app. right. apply elem_of_cons. auto. }
  assert (Hearly : forall ev,
            In ev (blocks p w 0 (take k batches) ++ launches g ++ events p w false before) ->
            (exists id, ev = Launch id) \/ (exists id r, ev = Succeeded id r)).
  { intros ev [Hev|[Hev|Hev]%in_app_or]%in_app_or.
    - eapply blocks_clean; [|exact Hev].
      intros g' j' (a & Ha)%list_elem_of_lookup_1 Hj'.
      apply lookup_take_Some in Ha as [Ha Hlt]. by apply (Hclean a g').
    - unfold launches in Hev. apply in_map_iff in Hev as (j' & <- & _). eauto.
    - right. by eapply events_clean. }
  split; [done|]. split; [done|]. split; [done|]. split; [done|].
  split; [by rewrite Hlog, Hblocks, Hblock, <- !app_assoc|].
  split; [intros id e [(? & [=])|(? & ? & [=])]%Hearly|].
  split; [intros m' [(? & [=])|(? & ? & [=])]%Hearly|].
  split; [intros id; apply not_launched_events|].
  split.
  - intros j' Hj'. apply (settled_of_event p w). rewrite Hlog, Hblocks.
    apply in_or_app. right. unfold block. apply in_or_app. right.
    apply settle_event_in_events. by rewrite Hord.
  - intros b gb j' Hgb Hj'. rewrite Hlog, launched_blocks, Hsettling.
    setoid_rewrite elem_of_app. setoid_rewrite Hord.
    setoid_rewrite (settling_all p w (take k batches) 0 Hnone).
    assert (Hnd : NoDup (map job_id (concat batches))).
    { destruct (createBatches_Some _ _ _ Hb) as (-> & _). apply jobs_from_NoDup. }
    split.
    + intros (j'' & [Hin|Hin] & Hid).
      * apply list_elem_of_In, in_concat in Hin as (ga & Hga & Hj'').
        apply list_elem_of_In, list_elem_of_lookup_1 in Hga as (a & Ha).
        apply lookup_take_Some in Ha as [Ha Hlt].
        assert (a = b); [|lia].
        apply (group_ids_apart batches a b ga gb j'' j'); try done.
        by apply list_elem_of_In.
      * assert (k = b); [|lia].
        by apply (group_ids_apart batches k b g gb j'' j').
    + intros Hle. exists j'. split; [|done].
      destruct (decide (b = k)) as [->|Hne].
      * right. congruence.
      * left. apply list_elem_of_In, in_concat. exists gb.
        split; apply list_elem_of_In; [|done].
        apply (list_elem_of_lookup_2 _ b). apply lookup_take_Some. split; [done|lia].
Qed.

(** ** The continue-on-error flag *)

(** C10. The constructor turns [continueOnError] off exactly when an
    options object is given whose [continueOnError] is the boolean [false];
    an omitted options object, an omitted property and every other value
    leave it on. *)
Theorem continueOnError_default (options : option Options) :
  continueOnError (constructor options) = false <->
  exists o, options = Some o /\ opt_continueOnError o = VBool false.
Proof.
  unfold constructor. simpl. split.
  - destruct options as [o|]; simpl; [|done].
    intros H. exists o. split; [done|].
    destruct (opt_continueOnError o) as [| |[]| | | |]; simpl in H; done.
  - intros (o & -> & H). simpl. by rewrite H.
Qed.

(** ** Audio metadata is best effort *)

Section Metadata.
Context `{B : JsBuiltins}.

Lemma getAudioInfo_total (w : JobWorld) (path : string) :
  exists r, getAudioInfo w path = Ok r.
Proof. unfold getAudioInfo. destruct (getAudioInfo_try w path); eauto. Qed.

Lemma get_prop_defined (v : JsValue) (name : string) :
  v <> VNull -> v <> VUndefined -> get_prop v name = Ok (get_prop_opt v name).
Proof. intros H1 H2. unfold get_prop_opt. destruct v; simpl; done. Qed.

End Metadata.

(** C9. [getAudioInfo] never throws, whatever the probing tool does: it
    returns a metadata record or [null] (and [null] when the probe itself
    fails).  When it returns [null] and the transcription succeeds with a
    transcript object, [processFile] succeeds too, with no duration and no
    speed ratio in its result. *)
Theorem metadata_is_best_effort `{B : JsBuiltins} (p : t) (w : JobWorld) (path : string) :
  (exists r, getAudioInfo w path = Ok r) /\
  (forall m, probe w = Throw m -> getAudioInfo w path = Ok None) /\
  (getAudioInfo w path = Ok None ->
   forall transcript,
     transcribe w path "json" = Ok transcript ->
     transcript <> VNull -> transcript <> VUndefined ->
     exists r,
       processFile p w path = Ok r /\
       file r = path /\
       duration r = None /\ speedRatio r = None /\
       text r = get_prop_opt transcript "text" /\
       language r = get_prop_opt transcript "language").
Proof.
  split; [apply getAudioInfo_total|]. split.
  - intros m Hm. unfold getAudioInfo, getAudioInfo_try. by rewrite Hm.
  - intros Hnone transcript Htr Hn Hu. unfold processFile.
    rewrite Hnone, Htr. simpl. rewrite !get_prop_defined by done. simpl. eauto 10.
Qed.

(** ** The speed ratio *)

(** [fixed_units m e f] is the integer nearest to [|m| * 2^e * 10^f], the
    larger of the two on a tie. *)
Lemma fixed_units_nearest (m e : Z) (f : nat) :
  let n := fixed_units m e f in
  let x := Z.abs m * 10 ^ Z.of_nat f in
  (0 <= e -> n = x * 2 ^ e) /\
  (e < 0 -> 2 * x - 2 ^ (- e) < 2 * 2 ^ (- e) * n <= 2 * x + 2 ^ (- e)).
Proof.
  unfold fixed_units. simpl. split; intros He.
  - destruct (Z.leb_spec 0 e); [done|lia].
  - destruct (Z.leb_spec 0 e); [lia|].
    assert (Hd : 0 < 2 ^ (- e)) by (apply Z.pow_pos_nonneg; lia).
    set (d := 2 ^ (- e)) in *. set (x := Z.abs m * 10 ^ Z.of_nat f).
    pose proof (Z.mul_div_le (2 * x + d) (2 * d) ltac:(lia)).
    pose proof (Z.mul_succ_div_gt (2 * x + d) (2 * d) ltac:(lia)).
    lia.
Qed.

(** C5, as the code has it.  The speed ratio of a result is present exactly
    when [getAudioInfo] returned a metadata record, whatever the processing
    time is.  It is then [durationSeconds / processingTime] rendered by
    [toFixed(2)], where the processing time is the elapsed milliseconds
    over 1000; a duration of 120 s processed in 60 s gives ["2.00"], and
    [toFixed(2)] of a finite number below [10^21] shows the number of
    hundredths nearest to it, the larger on a tie.  Without metadata the
    ratio is [null] and the duration is absent. *)
Theorem speedRatio_follows_metadata `{B : JsBuiltins} (p : t) (w : JobWorld)
    (path : string) (r : JobResult) :
  processFile p w path = Ok r ->
  processingTime r = fdiv (of_Z (elapsedMs w)) (of_Z 1000) /\
  (is_Some (speedRatio r) <-> exists info, getAudioInfo w path = Ok (Some info)) /\
  (forall info, getAudioInfo w path = Ok (Some info) ->
     duration r = Some (durationSeconds info) /\
     speedRatio r = Some (toFixed (fdiv (durationSeconds info) (processingTime r)) 2)) /\
  (getAudioInfo w path = Ok None -> duration r = None /\ speedRatio r = None) /\
  toFixed (fdiv (of_Z 120) (fdiv (of_Z 60000) (of_Z 1000))) 2 = "2.00" /\
  (forall m e, below_1e21 m e = true ->
     toFixed (Fin m e) 2 = render_fixed (m <? 0) (fixed_units m e 2) 2 /\
     (0 <= e -> fixed_units m e 2 = Z.abs m * 100 * 2 ^ e) /\
     (e < 0 ->
      2 * (Z.abs m * 100) - 2 ^ (- e) < 2 * 2 ^ (- e) * fixed_units m e 2
        <= 2 * (Z.abs m * 100) + 2 ^ (- e))).
Proof.
  unfold processFile. intros H.
  destruct (getAudioInfo_total w path) as [info Hinfo]. rewrite Hinfo in *. simpl in H.
  destruct (transcribe w path "json") as [tr|]; simpl in H; [|done].
  destruct (get_prop tr "text"); simpl in H; [|done].
  destruct (get_prop tr "language"); simpl in H; [|done].
  injection H as <-. simpl.
  split; [done|]. split; [|split; [|split; [|split]]].
  - destruct info as [info|]; split.
    + eauto.
    + intros _. eauto.
    + by intros [? ?].
    + by intros [? [=]].
  - intros info' [= ->]. done.
  - by intros [= ->].
  - vm_compute. reflexivity.
  - intros m e Hb. split; [unfold toFixed; by rewrite Hb|].
    exact (fixed_units_nearest m e 2).
Qed.

(** ** Enumeration *)

Lemma is_audio_spec `{B : JsBuiltins} (path : string) :
  is_audio path = true <->
  String.prefix "." (basename path) = false /\
  exists ext, ext ∈ audio_extensions /\
    ends_with ("." +:+ ext)
      (if glob_nocase then to_lower (basename path) else basename path) = true.
Proof.
  unfold is_audio. rewrite existsb_exists. unfold star_dot. split.
  - intros (ext & Hext%list_elem_of_In & [Hdot Hend]%andb_true_iff).
    apply negb_true_iff in Hdot. eauto.
  - intros (Hdot & ext & Hext%list_elem_of_In & Hend). exists ext.
    split; [done|]. by rewrite Hdot, Hend.
Qed.

(** C8, as the code has it.  Over the distinct files reached below the
    root, the enumeration keeps, in their order and each once, exactly the
    files whose base name does not start with a dot and ends in a dot
    followed by one of the seven extensions of the allow-list; letters are
    compared exactly unless the glob package's [nocase] default is on, in
    which case the base name is compared in lower case. *)
Theorem enumeration_follows_glob `{B : JsBuiltins} (reached : list string) :
  NoDup reached ->
  let files := glob_audio reached in
  NoDup files /\
  sublist files reached /\
  forall f, f ∈ files <->
    f ∈ reached /\
    String.prefix "." (basename f) = false /\
    exists ext, ext ∈ audio_extensions /\
      ends_with ("." +:+ ext)
        (if glob_nocase then to_lower (basename f) else basename f) = true.
Proof.
  intros Hnd files. subst files. unfold glob_audio. split; [|split].
  - by apply NoDup_filter.
  - apply sublist_filter.
  - intros f. rewrite list_elem_of_filter, is_audio_spec. tauto.
Qed.

(** C7, as the code has it.  When no file reached below the directory is
    an audio file, the enumeration is empty and [processDirectory] returns
    at once, without an error: no results, no errors, no duration; no job
    is started and no report is written. *)
Theorem empty_directory_returns_early `{B : JsBuiltins} (p : t) (w : World)
    (directory : string) :
  Forall (fun f => is_audio f = false) (listing w directory) ->
  glob_audio (listing w directory) = [] /\
  processDirectory p w directory =
  {| ret := Returns {| results := []; errors := []; batch_duration := None |};
     saved := None;
     log := [] |}.
Proof.
  intros Hall.
  assert (Hnil : glob_audio (listing w directory) = []).
  { unfold glob_audio. induction Hall as [|f l Hf _ IH]; [done|].
    rewrite filter_cons. rewrite Hf. destruct (decide (false = true)); done. }
  split; [done|]. unfold processDirectory. by rewrite Hnil.
Qed.

(** ** Merging *)

Section Merge.
Context `{B : JsBuiltins}.






End Merge.


(** * The properties on the sample inputs *)

(** Five files, two at a time, the third fails, failures tolerated: the
    call returns four results and one error. *)
Lemma failure_isolation_sample :
  let run := processFiles (B := Sample.builtins false) Sample.tolerant
               (Sample.world [] 2) Sample.five in
  exists r, ret run = Returns r /\
            length (results r) = 4%nat /\ length (errors r) = 1%nat /\
            outcomes_of 2 (log run) = 1%nat.
Proof.
  destruct (failure_isolation (B := Sample.builtins false) Sample.tolerant
              (Sample.world [] 2) Sample.five)
    as (report & Hsaved & _ & _ & _ & Hjob & Hret);
    [reflexivity|reflexivity|reflexivity|reflexivity|].
  destruct (Hjob 2%nat "c.mp3" eq_refl) as [Hone _].
  vm_compute in Hsaved. injection Hsaved as <-.
  eexists. split; [rewrite Hret; vm_compute; reflexivity|].
  split; [reflexivity|]. split; [reflexivity|exact Hone].
Defined.

Lemma report_total_sample :
  exists rep,
    saved (processFiles (B := Sample.builtins false) Sample.tolerant
             (Sample.world [] 2) Sample.five) = Some rep /\
    totalFiles rep = 5%nat /\
    totalFiles rep = (length (report_results rep) + length (report_errors rep))%nat.
Proof.
  eexists. split; [vm_compute; reflexivity|]. split; [reflexivity|].
  refine (proj1 (report_total_is_results_plus_errors (B := Sample.builtins false)
            Sample.tolerant (Sample.world [] 2) Sample.five "" _ _ (or_introl eq_refl) _)).
  vm_compute. reflexivity.
Defined.

Lemma abort_on_first_failure_sample :
  let run := processFiles (B := Sample.builtins false) Sample.strict
               (Sample.world [] 2) Sample.five in
  ret run = Throws "Transcription error: exit code 1" /\
  saved run = None /\
  launched 3 (log run) /\ ~ launched 4 (log run).
Proof.
  set (job := fun i f => {| job_id := i; job_file := f |}).
  destruct (abort_on_first_failure (B := Sample.builtins false) Sample.strict
              (Sample.world [] 2) Sample.five
              [[job 0%nat "a.mp3"; job 1%nat "b.mp3"];
               [job 2%nat "c.mp3"; job 3%nat "d.mp3"];
               [job 4%nat "e.mp3"]]
              1 [job 2%nat "c.mp3"; job 3%nat "d.mp3"])
    as (j & m & t1 & t2 & _ & _ & Hret & Hsaved & _ & _ & _ & _ & _ & Hlaunched).
  - reflexivity.
  - reflexivity.
  - reflexivity.
  - reflexivity.
  - exists (job 2%nat "c.mp3"). split; [apply elem_of_cons; by left|reflexivity].
  - intros [|a] ga j' Ha Hga Hj'; [|lia]. injection Hga as <-.
    apply elem_of_cons in Hj' as [->|Hj']; [reflexivity|].
    apply elem_of_cons in Hj' as [->|Hj']; [reflexivity|].
    by apply elem_of_nil in Hj'.
  - split; [|split; [exact Hsaved|split]].
    + vm_compute. reflexivity.
    + apply (Hlaunched 1%nat [job 2%nat "c.mp3"; job 3%nat "d.mp3"] (job 3%nat "d.mp3"));
        [reflexivity| |lia].
      apply elem_of_cons. right. apply elem_of_cons. by left.
    + intros H.
      apply (Hlaunched 2%nat [job 4%nat "e.mp3"] (job 4%nat "e.mp3")) in H;
        [lia|reflexivity|apply elem_of_cons; by left].
Defined.

Lemma bounded_group_barrier_sample :
  0 < concurrency Sample.tolerant /\
  forall t1 t2,
    log (processFiles (B := Sample.builtins false) Sample.tolerant
           (Sample.world [] 2) Sample.five) = t1 ++ t2 ->
    0 <= in_flight t1 <= 2.
Proof.
  split; [reflexivity|].
  exact (proj1 (bounded_group_barrier (B := Sample.builtins false) Sample.tolerant
                  (Sample.world [] 2) Sample.five eq_refl)).
Defined.

Lemma speedRatio_sample :
  exists r,
    processFile (B := Sample.builtins false) Sample.tolerant Sample.good "a.mp3" = Ok r /\
    speedRatio r = Some "2.00" /\
    (is_Some (speedRatio r) <->
     exists info, getAudioInfo (B := Sample.builtins false) Sample.good "a.mp3" = Ok (Some info)).
Proof.
  eexists. split; [vm_compute; reflexivity|]. split; [reflexivity|].
  refine (proj1 (proj2 (speedRatio_follows_metadata (B := Sample.builtins false)
                          Sample.tolerant Sample.good "a.mp3" _ _))).
  vm_compute. reflexivity.
Defined.


Lemma empty_directory_sample :
  processDirectory (B := Sample.builtins false) Sample.tolerant
    (Sample.world ["audio/notes.txt"] 0) "audio" =
  {| ret := Returns {| results := []; errors := []; batch_duration := None |};
     saved := None;
     log := [] |}.
Proof.
  refine (proj2 (empty_directory_returns_early (B := Sample.builtins false)
                   Sample.tolerant (Sample.world ["audio/notes.txt"] 0) "audio" _)).
  repeat constructor.
Defined.

Lemma enumeration_sample :
  glob_audio (B := Sample.builtins false)
    ["audio/a.mp3"; "audio/notes.txt"; "audio/sub/b.wav"; "audio/.c.mp3"] =
    ["audio/a.mp3"; "audio/sub/b.wav"] /\
  NoDup (glob_audio (B := Sample.builtins false)
    ["audio/a.mp3"; "audio/notes.txt"; "audio/sub/b.wav"; "audio/.c.mp3"]).
Proof.
  split; [vm_compute; reflexivity|].
  refine (proj1 (enumeration_follows_glob (B := Sample.builtins false) _ _)).
  compute_done.
Defined.

Lemma metadata_sample :
  getAudioInfo (B := Sample.builtins false) Sample.unprobed "a.mp3" = Ok None /\
  exists r,
    processFile (B := Sample.builtins false) Sample.tolerant Sample.unprobed "a.mp3" = Ok r /\
    duration r = None /\ speedRatio r = None.
Proof.
  split; [reflexivity|].
  destruct (proj2 (proj2 (metadata_is_best_effort (B := Sample.builtins false)
                            Sample.tolerant Sample.unprobed "a.mp3"))
              eq_refl Sample.transcript eq_refl)
    as (r & Hr & _ & Hd & Hs & _); [discriminate|discriminate|].
  exists r. split; [exact Hr|]. split; [exact Hd|exact Hs].
Defined.

(** * Where the code departs from the specification *)

(** C5 as written fails: with metadata present and a clock that did not
    advance, the processing time is zero and the speed ratio is present all
    the same, as the string ["Infinity"]. *)
Lemma speedRatio_with_zero_processing_time :
  exists r,
    processFile (B := Sample.builtins false) Sample.tolerant Sample.instant "a.mp3" = Ok r /\
    duration r = Some (Fin 120 0) /\
    processingTime r = Fin 0 0 /\
    speedRatio r = Some "Infinity" /\
    ~ (is_Some (speedRatio r) <->
       is_Some (duration r) /\ sign_of (processingTime r) = 1).
Proof.
  eexists. split; [vm_compute; reflexivity|]. simpl.
  split; [reflexivity|]. split; [reflexivity|]. split; [reflexivity|].
  intros [H _]. destruct H as [_ H]; [eauto|]. discriminate H.
Qed.

(** The same happens when ffprobe reports no duration: the metadata record
    exists, its duration is [NaN], and the speed ratio is the string
    ["NaN"]. *)
Lemma speedRatio_with_unknown_duration :
  exists r,
    processFile (B := Sample.builtins false) Sample.tolerant Sample.unmeasured "a.webm" = Ok r /\
    duration r = Some NaN /\ speedRatio r = Some "NaN".
Proof. eexists. split; [vm_compute; reflexivity|]. done. Qed.

(** C7 as written fails: for a directory without audio files
    [processDirectory] writes no report at all, so none with
    [total = 0, successful = 0, failed = 0]. *)
Lemma empty_directory_saves_no_report :
  let run := processDirectory (B := Sample.builtins false) Sample.tolerant
               (Sample.world ["audio/notes.txt"] 0) "audio" in
  glob_audio (B := Sample.builtins false) ["audio/notes.txt"] = [] /\
  ret run = Returns {| results := []; errors := []; batch_duration := None |} /\
  ~ exists rep, saved run = Some rep /\
                totalFiles rep = 0%nat /\ successful rep = 0%nat /\ failed rep = 0%nat.
Proof.
  split; [vm_compute; reflexivity|]. split; [vm_compute; reflexivity|].
  intros (rep & H & _). vm_compute in H. discriminate H.
Qed.

(** C8 as written fails: where the glob package compares letters exactly,
    a file with an upper-case extension of the allow-list is reached and
    not enumerated. *)
Lemma enumeration_is_case_sensitive :
  let reached := ["audio/TALK.MP3"] in
  "audio/TALK.MP3" ∈ reached /\
  ends_with ".mp3" (to_lower (basename "audio/TALK.MP3")) = true /\
  glob_audio (B := Sample.builtins false) reached = [].
Proof.
  split; [apply elem_of_cons; by left|]. split; vm_compute; reflexivity.
Qed.

(** * Further properties of the code *)

(** ** [createBatches] *)

Lemma createBatches_loop_groups {A} (items : list A) (b : Z) (Hb : 0 < b) :
  forall fuel i batches,
    0 <= i ->
    (Z.to_nat (Z.of_nat (length items) - i) < fuel)%nat ->
    exists more,
      createBatches_loop fuel items b i batches = Some (batches ++ more) /\
      Z.of_nat (length more) = Z.max 0 ((Z.of_nat (length items) - i + b - 1) / b) /\
      forall k g, more !! k = Some g ->
        g = take (Z.to_nat b) (drop (Z.to_nat i + k * Z.to_nat b) items) /\ g <> [].
Proof.
  induction fuel as [|fuel IH]; intros i batches Hi Hfuel; [lia|].
  simpl. destruct (Z.ltb_spec i (Z.of_nat (length items))) as [Hlt|Hge].
  - destruct (IH (i + b) (batches ++ [slice items i (i + b)])) as (more & E & Hn & Hg);
      [lia|lia|].
    exists (slice items i (i + b) :: more). split; [|split].
    + rewrite E. by rewrite <- app_assoc.
    + simpl length. rewrite Nat2Z.inj_succ, Hn.
      replace (Z.of_nat (length items) - i + b - 1)
        with ((Z.of_nat (length items) - (i + b) + b - 1) + 1 * b) by lia.
      rewrite Z.div_add by lia.
      assert (0 <= (Z.of_nat (length items) - (i + b) + b - 1) / b).
      { apply Z.div_pos; lia. }
      lia.
    + intros [|k] g Hk; simpl in Hk.
      * injection Hk as <-. rewrite slice_forward by lia.
        rewrite Nat.add_0_r. split; [done|].
        intros Hnil. apply (f_equal length) in Hnil.
        rewrite length_take, length_drop in Hnil. simpl in Hnil. lia.
      * destruct (Hg k g Hk) as [-> Hne]. split; [|done].
        do 2 f_equal. lia.
  - exists []. rewrite app_nil_r. split; [done|]. split; [|by intros k g ?].
    simpl. symmetry. apply Z.max_l.
    assert ((Z.of_nat (length items) - i + b - 1) / b < 1); [|lia].
    apply Z.div_lt_upper_bound; lia.
Qed.

(** X1. For a positive batch size, [createBatches] cuts the array into
    consecutive pieces: group number [k] is the items from position
    [k * batchSize] on, at most [batchSize] of them and never none; the
    groups put end to end are the array, and there are
    [ceil(length / batchSize)] of them. *)
Theorem createBatches_partition {A} (items : list A) (b : Z) :
  0 < b ->
  exists batches,
    createBatches items b = Some batches /\
    concat batches = items /\
    Z.of_nat (length batches) = (Z.of_nat (length items) + b - 1) / b /\
    forall k g, batches !! k = Some g ->
      g = take (Z.to_nat b) (drop (k * Z.to_nat b) items) /\
      g <> [] /\
      (S k < length batches -> Z.of_nat (length g) = b)%nat.
Proof.
  intros Hb.
  destruct (createBatches_spec items b Hb) as (bs & E & Hcat & _).
  destruct (createBatches_loop_groups items b Hb (S (length items)) 0 [])
    as (more & E' & Hn & Hg); [lia|lia|].
  unfold createBatches in E. rewrite E in E'. injection E' as ->.
  exists more. split; [done|]. split; [done|].
  assert (Hcount : Z.of_nat (length more) = (Z.of_nat (length items) + b - 1) / b).
  { rewrite Hn, Z.sub_0_r. apply Z.max_r. apply Z.div_pos; lia. }
  split; [done|].
  intros k g Hk. destruct (Hg k g Hk) as [Hgk Hne]. simpl in Hgk.
  split; [done|]. split; [done|].
  intros Hlast. rewrite Hgk, length_take, length_drop.
  (* a group before the last one is full *)
  assert (Hfull : (Z.of_nat k + 2) * b <= Z.of_nat (length items) + b - 1).
  { assert (Z.of_nat k + 2 <= (Z.of_nat (length items) + b - 1) / b) by lia.
    pose proof (Z.mul_div_le (Z.of_nat (length items) + b - 1) b Hb). nia. }
  assert (Hkb : Z.of_nat (k * Z.to_nat b) = Z.of_nat k * b).
  { rewrite Nat2Z.inj_mul, Z2Nat.id by lia. done. }
  lia.
Qed.

(** X2. [createBatches] returns exactly when the array is empty or the
    batch size is positive.  For a non-empty array and a batch size of zero
    or less its loop never ends, however long it runs; for a positive batch
    size one turn per item and one more is enough. *)
Theorem createBatches_returns_iff {A} (items : list A) (b : Z) :
  (is_Some (createBatches items b) <-> items = [] \/ 0 < b) /\
  (items <> [] -> b <= 0 ->
   forall fuel, createBatches_loop fuel items b 0 [] = None) /\
  (0 < b ->
   forall fuel, (length items < fuel)%nat ->
     createBatches_loop fuel items b 0 [] = createBatches items b).
Proof.
  split; [|split].
  - split.
    + intros [bs E]. destruct (createBatches_Some _ _ _ E) as (_ & Hpos & _).
      destruct items; [by left|right]. by apply Hpos.
    + intros [->|Hb]; [by eexists|].
      destruct (createBatches_spec items b Hb) as (bs & E & _). by exists bs.
  - intros Hne Hb fuel. by apply createBatches_loop_stuck.
  - intros Hb fuel Hfuel.
    destruct (createBatches_loop_spec items b Hb fuel 0 []) as (more & E & _);
      [lia|lia|].
    destruct (createBatches_loop_spec items b Hb (S (length items)) 0 [])
      as (more' & E' & _); [lia|lia|].
    unfold createBatches. rewrite E, E'. simpl.
    (* both are the groups of the same array *)
    destruct (createBatches_loop_groups items b Hb fuel 0 [])
      as (m1 & E1 & Hn1 & Hg1); [lia|lia|].
    destruct (createBatches_loop_groups items b Hb (S (length items)) 0 [])
      as (m2 & E2 & Hn2 & Hg2); [lia|lia|].
    rewrite E in E1. rewrite E' in E2. simpl in E1, E2.
    injection E1 as ->. injection E2 as ->. f_equal.
    apply list_eq. intros k.
    destruct (m1 !! k) as [g1|] eqn:H1, (m2 !! k) as [g2|] eqn:H2.
    + destruct (Hg1 _ _ H1) as [-> _]. destruct (Hg2 _ _ H2) as [-> _]. done.
    + apply lookup_lt_Some in H1. apply lookup_ge_None in H2. lia.
    + apply lookup_lt_Some in H2. apply lookup_ge_None in H1. lia.
    + done.
Qed.

(** ** [processFiles] and [processDirectory] *)

Section MoreRuns.
Context `{B : JsBuiltins}.
Variables (p : t) (w : World).

(** What a returning call went through. *)
Lemma processFiles_Returns (files : list string) (r : BatchReturn) :
  ret (processFiles p w files) = Returns r ->
  exists batches,
    mkdirOutput w = Ok tt /\ writeReport w = Ok tt /\ writeSummary w = Ok tt /\
    createBatches (jobs_of files) (concurrency p) = Some batches /\
    concat batches = jobs_of files /\
    final_rejection p w 0 batches = None /\
    results r = oks p w (settling p w 0 batches) /\
    errors r = errs p w (settling p w 0 batches) /\
    batch_duration r = Some (fdiv (of_Z (batchElapsedMs w)) (of_Z 1000)) /\
    log (processFiles p w files) = blocks p w 0 batches /\
    exists report summary,
      saved (processFiles p w files) = Some report /\
      report_results report = results r /\
      generateSummary report = Ok summary.
Proof.
  unfold processFiles. destruct (mkdirOutput w) as [[]|]; [|done].
  destruct (createBatches (jobs_of files) (concurrency p)) as [batches|] eqn:Hb; [|done].
  rewrite run_batches_spec by done. simpl.
  destruct (final_rejection p w 0 batches) eqn:Hr; [done|].
  unfold saveReport. destruct (writeReport w) as [[]|]; [|done].
  destruct (generateSummary _) as [summary|] eqn:Hs; [|done].
  destruct (writeSummary w) as [[]|]; [|done]. simpl. intros [= <-]. simpl.
  exists batches. destruct (createBatches_Some _ _ _ Hb) as (Hc & _).
  repeat split; try done. by eexists _, summary.
Qed.

Lemma processFile_file (jw : WhisperTranscriber.JobWorld) (path : string) (r : JobResult) :
  processFile p jw path = Ok r -> file r = path.
Proof.
  unfold processFile. destruct (getAudioInfo jw path); simpl; [|done].
  destruct (transcribe jw path "json") as [tr|]; simpl; [|done].
  destruct (get_prop tr "text"); simpl; [|done].
  destruct (get_prop tr "language"); simpl; [|done].
  by intros [= <-].
Qed.

Lemma files_of_outcomes (js : list Job) :
  map file (oks p w js) ++ map error_file (errs p w js) ≡ₚ map job_file js.
Proof.
  induction js as [|j js IH]; simpl; [done|].
  unfold outcome. destruct (processFile p (jobWorld w (job_id j)) (job_file j)) eqn:E.
  - simpl. rewrite (processFile_file _ _ _ E). by constructor.
  - simpl. rewrite <- Permutation_middle. by constructor.
Qed.

Lemma map_job_file_Permutation (a b : list Job) :
  a ≡ₚ b -> map job_file a ≡ₚ map job_file b.
Proof. induction 1; simpl; [done|by constructor|apply Permutation_swap|by etrans]. Qed.

Lemma job_files_from (files : list string) : forall k,
  map job_file (jobs_from k files) = files.
Proof. induction files as [|f files IH]; intros k; simpl; [done|]. by rewrite IH. Qed.

End MoreRuns.

(** X3. When [processFiles] returns, the paths of its results and of its
    errors are, taken together, the files it was given: every file is
    there as often as it was given, and no other path. *)
Theorem processFiles_accounts_for_every_file `{B : JsBuiltins} (p : t) (w : World)
    (files : list string) (r : BatchReturn) :
  ret (processFiles p w files) = Returns r ->
  map file (results r) ++ map error_file (errors r) ≡ₚ files.
Proof.
  intros (bs & _ & _ & _ & _ & Hcat & Hr & -> & -> & _)%processFiles_Returns.
  rewrite files_of_outcomes.
  rewrite (map_job_file_Permutation _ _ (settling_all p w bs 0 Hr)), Hcat.
  unfold jobs_of. by rewrite job_files_from.
Qed.

(** X4. The same holds for [processDirectory]: when it returns, the paths
    of its results and errors are exactly the audio files the enumeration
    found, each once per finding; nothing else below the directory is
    touched. *)
Theorem processDirectory_accounts_for_every_audio_file `{B : JsBuiltins} (p : t)
    (w : World) (directory : string) (r : BatchReturn) :
  ret (processDirectory p w directory) = Returns r ->
  map file (results r) ++ map error_file (errors r) ≡ₚ glob_audio (listing w directory) /\
  forall path, path ∈ map file (results r) ++ map error_file (errors r) ->
    path ∈ listing w directory /\ is_audio path = true.
Proof.
  intros Hret.
  assert (HP : map file (results r) ++ map error_file (errors r)
               ≡ₚ glob_audio (listing w directory)).
  { unfold processDirectory in Hret.
    destruct (glob_audio (listing w directory)) as [|f fs] eqn:Hg; simpl in Hret.
    - by injection Hret as <-.
    - rewrite <- Hg in *.
      intros. apply processFiles_Returns in Hret
        as (bs & _ & _ & _ & _ & Hcat & Hr & -> & -> & _).
      rewrite files_of_outcomes.
      rewrite (map_job_file_Permutation _ _ (settling_all p w bs 0 Hr)), Hcat.
      unfold jobs_of. by rewrite job_files_from. }
  split; [done|]. intros path Hpath. rewrite HP in Hpath.
  unfold glob_audio in Hpath. apply list_elem_of_filter in Hpath. tauto.
Qed.

(** X5. With [continueOnError] on and a positive concurrency,
    [processFiles] throws only from its own steps, and then with the error
    of the step: the output directory cannot be made; the report cannot
    be written; or, with the report on disk, the summary cannot be built
    or cannot be written.  No failure of a job makes it throw. *)
Theorem processFiles_throws_only_from_its_own_steps `{B : JsBuiltins} (p : t)
    (w : World) (files : list string) (m : string) :
  continueOnError p = true ->
  0 < concurrency p ->
  (ret (processFiles p w files) = Throws m <->
   mkdirOutput w = Throw m \/
   (mkdirOutput w = Ok tt /\ writeReport w = Throw m) \/
   (exists report,
      saved (processFiles p w files) = Some report /\
      (generateSummary report = Throw m \/
       ((exists summary, generateSummary report = Ok summary) /\
        writeSummary w = Throw m)))).
Proof.
  intros Hc Hpos.
  destruct (createBatches_spec (jobs_of files) (concurrency p) Hpos) as (bs & Hb & _).
  pose proof (final_rejection_continue p w bs 0 Hc) as Hr.
  unfold processFiles. rewrite Hb.
  destruct (mkdirOutput w) as [[]|m0]; simpl.
  - rewrite run_batches_spec by done. simpl. rewrite Hr. unfold saveReport.
    destruct (writeReport w) as [[]|m1]; simpl.
    + destruct (generateSummary _) as [summary|m2] eqn:Hs; simpl.
      * destruct (writeSummary w) as [[]|m3]; simpl.
        -- split; [done|].
           intros [?|[[_ ?]|(report & [= <-] & [?|[_ ?]])]]; congruence.
        -- split.
           ++ intros [= ->]. right. right. eexists. split; [done|]. right. eauto.
           ++ intros [?|[[_ ?]|(report & [= <-] & [?|[_ ?]])]]; congruence.
      * split.
        -- intros [= ->]. right. right. eexists. split; [done|]. by left.
        -- intros [?|[[_ ?]|(report & [= <-] & [?|[[? ?] _]])]]; congruence.
    + split; [intros [= ->]; auto|].
      intros [?|[[_ ?]|(report & ? & _)]]; congruence.
  - split; [intros [= ->]; auto|]. intros [?|[[? _]|(report & ? & _)]]; congruence.
Qed.

Section Sequential.
Context `{B : JsBuiltins}.
Variables (p : t) (w : World).

Lemma completion_order_singleton {A} (choose : nat -> nat) (x : A) :
  completion_order choose [x] = [x].
Proof.
  unfold completion_order. cbn [length settle_order]. by rewrite Nat.mod_1_r.
Qed.

Lemma settling_singletons (batches : list (list Job)) : forall k,
  Forall (fun g => length g = 1%nat) batches ->
  final_rejection p w k batches = None ->
  settling p w k batches = concat batches.
Proof.
  induction batches as [|g rest IH]; intros k Hall Hr; simpl in *; [done|].
  apply Forall_cons in Hall as [Hg Hrest].
  destruct g as [|x [|y g]]; try done.
  unfold order_of at 1. rewrite completion_order_singleton.
  destruct (group_rejection p w k [x]); [done|]. by rewrite IH.
Qed.

End Sequential.

(** X6. With a concurrency of 1, the default, files are processed one at a
    time and the results come in the order of the files: when
    [processFiles] returns, its results are the results of the files that
    succeeded and its errors the errors of those that failed, both in the
    order the files were given. *)
Theorem processFiles_sequential_keeps_order `{B : JsBuiltins} (p : t) (w : World)
    (files : list string) (r : BatchReturn) :
  concurrency p = 1 ->
  ret (processFiles p w files) = Returns r ->
  results r = oks p w (jobs_of files) /\
  errors r = errs p w (jobs_of files) /\
  sublist (map file (results r)) files /\
  sublist (map error_file (errors r)) files.
Proof.
  intros Hone (bs & _ & _ & _ & Hb & Hcat & Hr & -> & -> & _)%processFiles_Returns.
  rewrite Hone in Hb. destruct (createBatches_Some _ _ _ Hb) as (_ & _ & Hall).
  rewrite settling_singletons, Hcat; [|
    eapply Forall_impl; [exact Hall|];
    intros g [Hne Hle]; destruct g; [done|]; simpl in *; lia |done].
  split; [done|]. split; [done|].
  assert (Hsub : forall js,
            sublist (map file (oks p w js)) (map job_file js) /\
            sublist (map error_file (errs p w js)) (map job_file js)).
  { induction js as [|j js [IH1 IH2]]; simpl; [by split; constructor|].
    unfold outcome. destruct (processFile p (jobWorld w (job_id j)) (job_file j)) eqn:E; simpl.
    - rewrite (processFile_file p _ _ _ E). split; by constructor.
    - split; by constructor. }
  destruct (Hsub (jobs_of files)) as [H1 H2].
  unfold jobs_of in H1, H2. rewrite job_files_from in H1, H2. done.
Qed.


(** X8. Given no files, [processFiles] still writes a report: zero
    results, zero errors, all three counts zero, whatever the concurrency
    is; it starts no job and returns empty lists. *)
Theorem processFiles_of_nothing `{B : JsBuiltins} (p : t) (w : World) :
  mkdirOutput w = Ok tt -> writeReport w = Ok tt -> writeSummary w = Ok tt ->
  let d := fdiv (of_Z (batchElapsedMs w)) (of_Z 1000) in
  processFiles p w [] =
  {| ret := Returns {| results := []; errors := []; batch_duration := Some d |};
     saved := Some {| report_results := []; report_errors := []; report_duration := d;
                      totalFiles := 0; successful := 0; failed := 0 |};
     log := [] |}.
Proof.
  intros Hm H1 H2 d. unfold processFiles, saveReport. rewrite Hm. simpl.
  by rewrite H1, H2.
Qed.

Section NoFailure.
Context `{B : JsBuiltins}.
Variables (p p' : t) (w : World).



End NoFailure.


(** ** [processFile] and [transcribe] *)

(** X11. Whether [processFile] succeeds, and with which text, language and
    processing time or with which error, does not depend on the probing
    tool: two runs that differ only in what ffprobe does end alike. *)
Theorem processFile_does_not_depend_on_the_probe `{B : JsBuiltins} (p : t)
    (w w' : WhisperTranscriber.JobWorld) (path : string) :
  audioExists w = audioExists w' ->
  whisperRun w = whisperRun w' ->
  artifact w = artifact w' ->
  elapsedMs w = elapsedMs w' ->
  match processFile p w path, processFile p w' path with
  | Ok r, Ok r' =>
      file r = file r' /\ processingTime r = processingTime r' /\
      text r = text r' /\ language r = language r'
  | Throw m, Throw m' => m = m'
  | _, _ => False
  end.
Proof.
  intros He Hw Ha Hms. unfold processFile.
  destruct (getAudioInfo_total w path) as [i ->].
  destruct (getAudioInfo_total w' path) as [i' ->]. simpl.
  assert (Htr : transcribe w path "json" = transcribe w' path "json").
  { unfold transcribe. by rewrite He, Hw, Ha. }
  rewrite <- Htr, <- Hms.
  destruct (transcribe w path "json") as [tr|]; simpl; [|done].
  destruct (get_prop tr "text"); simpl; [|done].
  destruct (get_prop tr "language"); simpl; done.
Qed.

Lemma processFile_error_shape `{B : JsBuiltins} (p : t)
    (w : WhisperTranscriber.JobWorld) (path m : string) :
  processFile p w path = Throw m ->
  (audioExists w = false /\ m = "Audio file not found: " +:+ path) \/
  (audioExists w = true /\ exists m', m = "Transcription error: " +:+ m') \/
  (exists tr, transcribe w path "json" = Ok tr /\ (tr = VNull \/ tr = VUndefined) /\
     (m = "Cannot read properties of null (reading 'text')" \/
      m = "Cannot read properties of undefined (reading 'text')")).
Proof.
  unfold processFile. destruct (getAudioInfo_total w path) as [i ->]. simpl.
  destruct (transcribe w path "json") as [tr|m0] eqn:Htr; simpl.
  - intros H. right. right. exists tr. split; [done|].
    destruct tr; simpl in H; try done; injection H as <-; auto.
  - intros [= <-]. unfold transcribe in Htr.
    destruct (audioExists w); simpl in Htr.
    + right. left. split; [done|].
      destruct (bindE (whisperRun w) _) as [|m']; [done|].
      injection Htr as <-. eauto.
    + left. split; [done|]. by injection Htr as <-.
Qed.

(** X12. Every error a returned batch lists belongs to one of the files
    given, and carries the message [processFile] threw for it, which is of
    one of three kinds: the audio file is not there, the transcription
    failed, or the transcript whisper left is [null]. *)
Theorem batch_errors_name_a_file_and_a_cause `{B : JsBuiltins} (p : t) (w : World)
    (files : list string) (r : BatchReturn) (e : JobError) :
  ret (processFiles p w files) = Returns r ->
  e ∈ errors r ->
  exists i,
    files !! i = Some (error_file e) /\
    processFile p (jobWorld w i) (error_file e) = Throw (error e) /\
    (error e = "Audio file not found: " +:+ error_file e \/
     (exists m', error e = "Transcription error: " +:+ m') \/
     error e = "Cannot read properties of null (reading 'text')" \/
     error e = "Cannot read properties of undefined (reading 'text')").
Proof.
  intros (bs & _ & _ & _ & _ & Hcat & Hr & _ & -> & _)%processFiles_Returns He.
  apply elem_of_errs in He as (j & m & Hj & Hout & ->).
  rewrite (settling_all p w bs 0 Hr), Hcat in Hj.
  apply elem_of_jobs_from in Hj as (i & Hi & Hid). simpl in Hid.
  unfold outcome in Hout. rewrite Hid in Hout. simpl.
  exists i. split; [done|]. split; [done|].
  destruct (processFile_error_shape _ _ _ _ Hout)
    as [[_ ->]|[[_ [m' ->]]|(tr & _ & _ & [->| ->])]]; eauto.
Qed.

(** ** The log of a run *)

Section WellFormed.
Context `{B : JsBuiltins}.
Variables (p : t) (w : World).








End WellFormed.


(** ** [transcribeBatch] *)

Section TranscribeBatchFacts.
Import TranscribeBatch.
Context `{B : JsBuiltins}.
Variable (world : nat -> WhisperTranscriber.JobWorld).

(** What the loop adds to the two arrays, as two lists. *)
Lemma transcribeBatch_from_app (paths : list string) (fmt : string) :
  forall k rs es,
    exists rs' es',
      transcribeBatch_from world k paths fmt rs es = (rs ++ rs', es ++ es') /\
      map item_file rs' ++ map failure_file es' ≡ₚ paths /\
      sublist (map item_file rs') paths /\
      sublist (map failure_file es') paths /\
      (forall x, x ∈ rs' ->
         success x = true /\
         exists i, paths !! i = Some (item_file x) /\
           transcript_of_path (world (k + i)) (item_file x) fmt = Ok (transcript x)) /\
      (forall x, x ∈ es' ->
         exists i, paths !! i = Some (failure_file x) /\
           transcript_of_path (world (k + i)) (failure_file x) fmt = Throw (failure x)).
Proof.
  induction paths as [|path rest IH]; intros k rs es; simpl.
  - exists [], []. rewrite !app_nil_r.
    split; [done|]. split; [done|]. split; [constructor|]. split; [constructor|].
    split; by intros x ?%elem_of_nil.
  - destruct (transcript_of_path (world k) path fmt) as [t|m] eqn:E.
    + destruct (IH (S k) (rs ++ [{| item_file := path; success := true; transcript := t |}]) es)
        as (rs' & es' & -> & HP & Hs1 & Hs2 & Hr & He).
      exists ({| item_file := path; success := true; transcript := t |} :: rs'), es'.
      rewrite <- app_assoc. simpl.
      split; [done|]. split; [by constructor|]. split; [by constructor|].
      split; [by constructor|]. split.
      * intros x [->|Hx]%elem_of_cons.
        -- split; [done|]. exists 0%nat. simpl. by rewrite Nat.add_0_r.
        -- destruct (Hr x Hx) as (Hsucc & i & Hi & Ht). split; [done|].
           exists (S i). simpl. split; [done|].
           by replace (k + S i)%nat with (S k + i)%nat by lia.
      * intros x Hx. destruct (He x Hx) as (i & Hi & Ht). exists (S i). simpl.
        split; [done|]. by replace (k + S i)%nat with (S k + i)%nat by lia.
    + destruct (IH (S k) rs (es ++ [{| failure_file := path; failure := m |}]))
        as (rs' & es' & -> & HP & Hs1 & Hs2 & Hr & He).
      exists rs', ({| failure_file := path; failure := m |} :: es').
      rewrite <- app_assoc. simpl.
      split; [done|]. split; [rewrite <- Permutation_middle; by constructor|].
      split; [by constructor|]. split; [by constructor|]. split.
      * intros x Hx. destruct (Hr x Hx) as (Hsucc & i & Hi & Ht). split; [done|].
        exists (S i). simpl. split; [done|].
        by replace (k + S i)%nat with (S k + i)%nat by lia.
      * intros x [->|Hx]%elem_of_cons.
        -- exists 0%nat. simpl. by rewrite Nat.add_0_r.
        -- destruct (He x Hx) as (i & Hi & Ht). exists (S i). simpl.
           split; [done|]. by replace (k + S i)%nat with (S k + i)%nat by lia.
Qed.

End TranscribeBatchFacts.

(** X13. [transcribeBatch] goes through all its paths whatever fails: the
    paths of its results and of its errors are, together, the paths it was
    given, each as often as given; each of the two lists keeps the order
    of the paths; and every result is marked a success. *)
Theorem transcribeBatch_accounts_for_every_path `{B : JsBuiltins}
    (world : nat -> WhisperTranscriber.JobWorld) (audioPaths : list string)
    (outputFormat : option string) :
  let out := TranscribeBatch.transcribeBatch world audioPaths outputFormat in
  map TranscribeBatch.item_file out.1 ++ map TranscribeBatch.failure_file out.2
    ≡ₚ audioPaths /\
  (length out.1 + length out.2 = length audioPaths)%nat /\
  sublist (map TranscribeBatch.item_file out.1) audioPaths /\
  sublist (map TranscribeBatch.failure_file out.2) audioPaths /\
  Forall (fun x => TranscribeBatch.success x = true) out.1.
Proof.
  intros out. subst out. unfold TranscribeBatch.transcribeBatch.
  destruct (transcribeBatch_from_app world audioPaths (default "json" outputFormat) 0 [] [])
    as (rs & es & -> & HP & Hs1 & Hs2 & Hr & _). simpl.
  split; [done|]. split; [|split; [done|split; [done|]]].
  - apply Permutation_length in HP. by rewrite length_app, !length_map in HP.
  - apply Forall_forall. intros x Hx. by apply Hr.
Qed.

(** X14. What a result of [transcribeBatch] holds as its transcript: the
    text of the transcript whisper wrote when that text is not empty, the
    whole parsed transcript when its text is missing or empty, and, for an
    output format other than JSON, the confirmation object
    [{ success: true, message: 'Transcription saved' }], never a text. *)
Theorem transcribeBatch_transcript `{B : JsBuiltins}
    (world : nat -> WhisperTranscriber.JobWorld) (audioPaths : list string)
    (outputFormat : option string) (x : TranscribeBatch.Item) :
  x ∈ (TranscribeBatch.transcribeBatch world audioPaths outputFormat).1 ->
  exists i result,
    audioPaths !! i = Some (TranscribeBatch.item_file x) /\
    WhisperTranscriber.transcribe (world i) (TranscribeBatch.item_file x)
      (default "json" outputFormat) = Ok result /\
    TranscribeBatch.transcript x =
      (if truthy (get_prop_opt result "text") then get_prop_opt result "text" else result) /\
    (default "json" outputFormat <> "json" ->
     TranscribeBatch.transcript x =
       VObj [("success", VBool true); ("message", VStr "Transcription saved")]).
Proof.
  unfold TranscribeBatch.transcribeBatch.
  destruct (transcribeBatch_from_app world audioPaths (default "json" outputFormat) 0 [] [])
    as (rs & es & -> & _ & _ & _ & Hr & _). simpl.
  intros Hx. destruct (Hr x Hx) as (_ & i & Hi & Ht). simpl in Ht.
  unfold TranscribeBatch.transcript_of_path in Ht.
  destruct (WhisperTranscriber.transcribe (world i) _ _) as [result|] eqn:Htr; simpl in Ht;
    [|done].
  destruct (get_prop result "text") as [text|] eqn:Htext; simpl in Ht; [|done].
  injection Ht as Ht. exists i, result. split; [done|]. split; [done|].
  assert (Hopt : get_prop_opt result "text" = text).
  { unfold get_prop_opt. by rewrite Htext. }
  split; [by rewrite Hopt, <- Ht|].
  intros Hfmt. unfold WhisperTranscriber.transcribe in Htr.
  destruct (WhisperTranscriber.audioExists (world i)); simpl in Htr; [|done].
  destruct (WhisperTranscriber.whisperRun (world i)); simpl in Htr; [|done].
  destruct (String.eqb_spec (default "json" outputFormat) "json"); [done|].
  injection Htr as <-. simpl in Htext. injection Htext as <-.
  rewrite <- Ht. done.
Qed.

(** ** [getAudioInfo] *)

Section FirstAudioStream.
Import WhisperTranscriber Streams.
Context `{B : JsBuiltins}.


End FirstAudioStream.

Section Unavailable.
Import WhisperTranscriber Streams.
Context `{B : JsBuiltins}.




Lemma get_prop_throws (v : JsValue) (name : string) :
  (exists m, get_prop v name = Throw m) <-> nullish v.
Proof.
  unfold nullish. split.
  - intros [m H]. destruct v; simpl in H; try done; auto.
  - intros [-> | ->]; simpl; eauto.
Qed.


End Unavailable.




(** ** Exact quotients, [Math.floor] of a quotient, remainders *)

Lemma pow2_split (a b : Z) : 0 <= a -> 0 <= b -> 2 ^ (a + b) = 2 ^ a * 2 ^ b.
Proof. intros. apply Z.pow_add_r; lia. Qed.

Lemma pow2_lt_exp (a b : Z) : 0 <= a -> 2 ^ a < 2 ^ b -> a < b.
Proof.
  intros Ha H. destruct (Z.lt_ge_cases b 0) as [Hb|Hb].
  - rewrite (Z.pow_neg_r 2 b) in H by done. pose proof (pow2_pos a Ha). lia.
  - apply (Z.pow_lt_mono_r_iff 2); lia.
Qed.

(** The rounding of [round_pos], with the exponent it works at. *)
Lemma round_pos_unfold (n d : Z) :
  0 < n -> 0 < d ->
  exists fl, bracket n d fl /\
    let e := Z.max (fl - 52) (-1074) in
    let num := if 0 <=? e then n else n * 2 ^ (- e) in
    let den := if 0 <=? e then d * 2 ^ e else d in
    let q := num / den in
    let r := num mod den in
    let m := if (den <? 2 * r) || ((2 * r =? den) && Z.odd q) then q + 1 else q in
    round_pos n d =
    if (971 <? e) || ((e =? 971) && (2 ^ 53 <=? m)) then PInf else Fin m e.
Proof.
  intros Hn Hd. pose proof (bracket_log2 n d Hn Hd) as Hbr. simpl in Hbr.
  eexists. split; [exact Hbr|]. reflexivity.
Qed.

(** A quotient that is a double is returned as it is. *)
Lemma round_pos_exact (n d M E : Z) :
  0 < d -> 0 < M < 2 ^ 53 -> -1074 <= E <= 0 ->
  n * 2 ^ (- E) = d * M ->
  exists e, -1074 <= e <= E /\ round_pos n d = Fin (M * 2 ^ (E - e)) e.
Proof.
  intros Hd HM HE Heq.
  pose proof (pow2_pos (- E) ltac:(lia)) as HPE.
  assert (Hn : 0 < n) by nia.
  destruct (round_pos_unfold n d Hn Hd) as (fl & Hbr & Hround).
  cbv zeta in Hround. rewrite Hround. clear Hround.
  set (e := Z.max (fl - 52) (-1074)).
  assert (Hfl : fl - 52 <= E).
  { unfold bracket in Hbr. destruct (Z.leb_spec 0 fl) as [Hf|Hf].
    - destruct Hbr as [Hlo _].
      pose proof (pow2_pos fl Hf) as HF.
      assert (H1 : d * (2 ^ fl * 2 ^ (- E)) <= d * M) by nia.
      assert (H2 : 2 ^ fl * 2 ^ (- E) <= M) by nia.
      rewrite <- pow2_split in H2 by lia.
      assert (fl + - E < 53) by (apply pow2_lt_exp; lia). lia.
    - destruct Hbr as [Hlo _].
      pose proof (pow2_pos (- fl) ltac:(lia)) as HF.
      assert (H1 : d * 2 ^ (- E) <= d * (M * 2 ^ (- fl))) by nia.
      assert (H2 : 2 ^ (- E) <= M * 2 ^ (- fl)) by nia.
      assert (H3 : 2 ^ (- E) < 2 ^ 53 * 2 ^ (- fl)) by nia.
      rewrite <- pow2_split in H3 by lia.
      assert (- E < 53 + - fl) by (apply pow2_lt_exp; lia). lia. }
  assert (He : -1074 <= e <= E) by lia.
  exists e. split; [done|].
  pose proof (pow2_pos (E - e) ltac:(lia)) as HEe.
  pose proof (pow2_pos (- e) ltac:(lia)) as Hpe.
  assert (Hsplit : 2 ^ (- e) = 2 ^ (- E) * 2 ^ (E - e)).
  { rewrite <- pow2_split by lia. f_equal. lia. }
  set (num := if 0 <=? e then n else n * 2 ^ (- e)).
  set (den := if 0 <=? e then d * 2 ^ e else d).
  assert (Hnum : num = (M * 2 ^ (E - e)) * d).
  { subst num. destruct (Z.leb_spec 0 e).
    - assert (e = 0) by lia. assert (E = 0) by lia. subst e.
      replace (E - Z.max (fl - 52) (-1074)) with 0 by lia.
      replace E with 0 in Heq by lia. simpl in Heq. lia.
    - rewrite Hsplit. nia. }
  assert (Hden : den = d).
  { subst den. destruct (Z.leb_spec 0 e); [|done].
    replace e with 0 by lia. lia. }
  rewrite Hnum, Hden. rewrite Z.div_mul by lia. rewrite Z.mod_mul by lia.
  destruct (Z.ltb_spec d (2 * 0)); [lia|].
  destruct (Z.eqb_spec (2 * 0) d); [lia|]. simpl.
  destruct (Z.ltb_spec 971 e); [lia|].
  destruct (Z.eqb_spec e 971); [lia|]. done.
Qed.

(** Rounding a quotient never reaches the next integer: below [2^53],
    [Math.floor] of the rounded quotient is the integer quotient. *)
Lemma floor_round_pos (n d : Z) :
  0 < n < 2 ^ 53 -> 0 < d -> floor (round_pos n d) = of_Z (n / d).
Proof.
  intros [Hn Hn53] Hd.
  destruct (round_pos_unfold n d Hn Hd) as (fl & Hbr & Hround).
  cbv zeta in Hround. rewrite Hround. clear Hround.
  set (e := Z.max (fl - 52) (-1074)).
  assert (H53 : 2 ^ 53 = 2 * 2 ^ 52) by done.
  (* the quotient is below 2^53 *)
  assert (Hfl : fl <= 52).
  { unfold bracket in Hbr. destruct (Z.leb_spec 0 fl) as [Hf|Hf]; [|lia].
    destruct Hbr as [Hlo _]. pose proof (pow2_pos fl Hf).
    assert (2 ^ fl < 2 ^ 53) by nia.
    assert (fl < 53) by (apply pow2_lt_exp; lia). lia. }
  assert (He : -1074 <= e <= 0) by lia.
  pose proof (pow2_pos (- e) ltac:(lia)) as HU.
  set (u := 2 ^ (- e)) in *.
  set (num := if 0 <=? e then n else n * u).
  set (den := if 0 <=? e then d * 2 ^ e else d).
  assert (Hnum : num = n * u).
  { subst num. destruct (Z.leb_spec 0 e); [|done].
    subst u. replace e with 0 by lia. simpl. lia. }
  assert (Hden : den = d).
  { subst den. destruct (Z.leb_spec 0 e); [|done]. replace e with 0 by lia. lia. }
  rewrite Hnum, Hden. clear num den Hnum Hden.
  pose proof (Z.div_mod (n * u) d ltac:(lia)) as Hdm.
  pose proof (Z.mod_pos_bound (n * u) d Hd) as Hr.
  pose proof (Z.div_mod n d ltac:(lia)) as HdmQ.
  pose proof (Z.mod_pos_bound n d Hd) as HrQ.
  set (q := n * u / d) in *. set (r := (n * u) mod d) in *.
  set (Q := n / d) in *. set (t := n mod d) in *.
  set (up := (d <? 2 * r) || ((2 * r =? d) && Z.odd q)).
  assert (Hup : up = true -> d <= 2 * r).
  { subst up. destruct (Z.ltb_spec d (2 * r)); simpl; [lia|].
    destruct (Z.eqb_spec (2 * r) d); simpl; [lia|done]. }
  set (m := if up then q + 1 else q).
  (* q is between Q * u and (Q + 1) * u *)
  assert (Hqlo : Q * u <= q).
  { assert (d * (Q * u) <= d * q + r) by nia.
    assert (d * (Q * u) < d * (q + 1)) by lia.
    assert (Q * u < q + 1) by (apply (Z.mul_lt_mono_pos_l d); lia). lia. }
  assert (Hqhi : q < (Q + 1) * u).
  { assert (d * q < d * ((Q + 1) * u)) by nia.
    apply (Z.mul_lt_mono_pos_l d); lia. }
  assert (Hm : Q * u <= m < (Q + 1) * u).
  { subst m. destruct up eqn:Eup; [|lia]. split; [lia|].
    specialize (Hup eq_refl).
    destruct (Z.eq_dec q ((Q + 1) * u - 1)) as [Hq|Hq]; [|lia].
    exfalso.
    (* then r = d - u * (d - t), and rounding up needs d >= 2 u *)
    assert (Hr' : r = d - u * (d - t)) by nia.
    assert (H2u : 2 * u <= d) by nia.
    (* but the scale was chosen with d < 2 u, or the quotient is tiny *)
    destruct (Z.le_gt_cases (-1074) (fl - 52)) as [Hnorm|Hsub].
    - assert (Eu : - e = 52 - fl) by lia.
      unfold bracket in Hbr. destruct (Z.leb_spec 0 fl) as [Hf|Hf].
      + destruct Hbr as [Hlo _]. pose proof (pow2_pos fl Hf) as HF.
        assert (H2 : 2 ^ 52 = 2 ^ fl * u).
        { subst u. rewrite Eu, <- pow2_split by lia. f_equal. lia. }
        set (F := 2 ^ fl) in *.
        assert (d * F * u < 2 * (F * u) * u) by nia.
        assert (d * (F * u) < 2 * u * (F * u)) by lia.
        assert (d < 2 * u) by (apply (Z.mul_lt_mono_pos_r (F * u)); nia). lia.
      + destruct Hbr as [Hlo _]. pose proof (pow2_pos (- fl) ltac:(lia)) as HF.
        assert (H2 : u = 2 ^ 52 * 2 ^ (- fl)).
        { subst u. rewrite Eu, <- pow2_split by lia. f_equal; lia. }
        set (F := 2 ^ (- fl)) in *. nia.
    - assert (Ee : e = -1074) by lia.
      unfold bracket in Hbr. destruct (Z.leb_spec 0 fl) as [Hf|Hf]; [lia|].
      destruct Hbr as [_ Hhi].
      assert (Hle : 2 ^ 1023 <= 2 ^ (- fl)) by (apply Z.pow_le_mono_r; lia).
      assert (HQ0 : n * 2 ^ 1023 < 2 * d) by nia.
      assert (Hu : u = 2 ^ 1023 * 2 ^ 51).
      { subst u. rewrite Ee. by rewrite <- pow2_split by lia. }
      assert (0 < 2 ^ 1023) by done. assert (H51 : 2 ^ 51 = 2251799813685248) by done.
      set (P := 2 ^ 1023) in *. rewrite H51 in Hu.
      assert (Q = 0).
      { subst Q. apply Z.div_small. nia. }
      assert (t = n) by lia.
      assert (n * u < 2 * d * 2251799813685248) by nia.
      assert (P <= u) by nia. assert (2 <= P) by (subst P; done).
      nia. }
  destruct (Z.ltb_spec 971 e); [lia|].
  destruct (Z.eqb_spec e 971); [lia|]. simpl.
  unfold whole, of_Z. f_equal.
  destruct (Z.leb_spec 0 e).
  - assert (Eu : u = 1) by (subst u; replace e with 0 by lia; done).
    replace e with 0 by lia. simpl. lia.
  - fold u. symmetry. apply Z.div_unique with (r := m - Q * u); lia.
Qed.

Lemma whole_safe (m e : Z) : safe m e -> 0 <= whole m e < 2 ^ 53.
Proof.
  intros [Hm He]. unfold whole. destruct (Z.leb_spec 0 e) as [H|H].
  - specialize (He H). pose proof (pow2_pos e H). nia.
  - pose proof (pow2_pos (- e) ltac:(lia)) as HU.
    split; [apply Z.div_pos; lia|].
    apply Z.le_lt_trans with m; [|lia]. apply Z.div_le_upper_bound; nia.
Qed.

(** [Math.floor(x / c)] is the integer quotient of the whole part. *)
Lemma floor_fdiv (m e c : Z) :
  safe m e -> 0 < c ->
  floor (fdiv (Fin m e) (of_Z c)) = of_Z (whole m e / c).
Proof.
  intros [Hm He] Hc. unfold fdiv, of_Z.
  destruct (Z.eqb_spec c 0); [lia|]. rewrite Z.sub_0_r.
  unfold whole, round_rat.
  destruct (Z.leb_spec 0 e) as [H|H].
  - specialize (He H). pose proof (pow2_pos e H) as HP.
    destruct (Z.eqb_spec (m * 2 ^ e) 0) as [E0|E0].
    + rewrite E0. simpl. unfold of_Z, whole. simpl. done.
    + assert (0 < m * 2 ^ e) by nia.
      destruct (Z.ltb_spec 0 (m * 2 ^ e)); [|lia].
      destruct (Z.ltb_spec 0 c); [|lia]. simpl.
      apply floor_round_pos; lia.
  - pose proof (pow2_pos (- e) ltac:(lia)) as HP.
    destruct (Z.eqb_spec m 0) as [E0|E0].
    + subst m. simpl. unfold of_Z, whole. simpl. rewrite Z.div_0_l by lia. done.
    + destruct (Z.ltb_spec 0 m); [|lia].
      destruct (Z.ltb_spec 0 (c * 2 ^ (- e))); [|nia]. simpl.
      rewrite floor_round_pos by lia. f_equal.
      rewrite (Z.mul_comm c). by rewrite Z.div_div by lia.
Qed.

(** [x % c] is exact: a double of the same kind, whose whole part is the
    remainder of the whole part of [x]. *)
Lemma fmod_whole (m e c : Z) :
  safe m e -> 0 < c < 2 ^ 53 ->
  exists r e', fmod (Fin m e) (of_Z c) = Fin r e' /\ safe r e' /\
               whole r e' = whole m e mod c.
Proof.
  intros [Hm He] Hc. unfold fmod, of_Z.
  destruct (Z.eqb_spec c 0); [lia|].
  destruct (Z.leb_spec 0 e) as [H|H].
  - specialize (He H). pose proof (pow2_pos e H) as HP.
    rewrite Z.min_r by lia. rewrite !Z.sub_0_r. simpl (2 ^ 0). rewrite Z.mul_1_r.
    rewrite Z.rem_mod_nonneg by nia.
    pose proof (Z.mod_pos_bound (m * 2 ^ e) c ltac:(lia)) as Hr.
    eexists _, _. split; [done|]. split.
    + split; [lia|]. intros _. simpl. lia.
    + unfold whole. destruct (Z.leb_spec 0 e); [|lia]. simpl. lia.
  - pose proof (pow2_pos (- e) ltac:(lia)) as HP.
    rewrite Z.min_l by lia. rewrite Z.sub_diag. simpl (2 ^ 0). rewrite Z.mul_1_r.
    rewrite Z.sub_0_l. set (u := 2 ^ (- e)) in *.
    rewrite Z.rem_mod_nonneg by nia.
    pose proof (Z.mod_pos_bound m (c * u) ltac:(nia)) as Hr.
    pose proof (Z.div_mod m (c * u) ltac:(nia)) as Hdm.
    eexists _, _. split; [done|]. split.
    + split; [|lia]. split; [lia|].
      apply Z.le_lt_trans with m; [|lia]. apply Z.mod_le; nia.
    + unfold whole. destruct (Z.leb_spec 0 e); [lia|]. fold u.
      set (r := m mod (c * u)) in *. set (Q := m / (c * u)) in *.
      pose proof (Z.div_mod r u ltac:(lia)) as Hdr.
      pose proof (Z.mod_pos_bound r u ltac:(lia)) as Hrr.
      set (K := r / u) in *. set (b := r mod u) in *.
      assert (HK : 0 <= K < c) by nia.
      assert (Hmu : m / u = c * Q + K).
      { symmetry. apply Z.div_unique with (r := b); [lia|]. nia. }
      rewrite Hmu. apply Z.mod_unique with (q := Q); lia.
Qed.

Lemma js_gt_of_Z (a b : Z) : js_gt (of_Z a) (of_Z b) = (b <? a).
Proof.
  unfold js_gt, compare_num, of_Z. simpl. rewrite !Z.mul_1_r.
  destruct (Z.compare_spec a b), (Z.ltb_spec b a); done || lia.
Qed.

Lemma show_number_of_Z `{B : JsBuiltins} (z : Z) :
  0 <= z < 2 ^ 53 -> Formatting.show_number (of_Z z) = pretty z.
Proof.
  intros Hz. unfold Formatting.show_number, of_Z. simpl.
  assert (2 ^ 53 < 10 ^ 21) by done.
  destruct (Z.ltb_spec (Z.abs z) (10 ^ 21)); [done|lia].
Qed.

(** X18. [formatDuration] shows the whole seconds of a duration split
    into hours, minutes and seconds: the fraction of a second is dropped,
    and no rounding of the divisions ever moves a field up.  Hours are
    left out when they are zero, and the minutes with them when both
    are. *)
Theorem formatDuration_whole_seconds `{B : JsBuiltins} (m e : Z) :
  safe m e ->
  let T := whole m e in
  let h := T / 3600 in
  let mi := T mod 3600 / 60 in
  let s := T mod 60 in
  Formatting.formatDuration (Fin m e) =
  if 0 <? h then pretty h +:+ "h " +:+ pretty mi +:+ "m " +:+ pretty s +:+ "s"
  else if 0 <? mi then pretty mi +:+ "m " +:+ pretty s +:+ "s"
  else pretty s +:+ "s".
Proof.
  intros Hsafe T h mi s. unfold Formatting.formatDuration.
  pose proof (whole_safe m e Hsafe) as HT. fold T in HT.
  rewrite (floor_fdiv m e 3600) by done. fold T. fold h.
  destruct (fmod_whole m e 3600 Hsafe ltac:(done)) as (r & e' & -> & Hr & Hwr).
  rewrite (floor_fdiv r e' 60) by done. rewrite Hwr. fold T. fold mi.
  destruct (fmod_whole m e 60 Hsafe ltac:(done)) as (r2 & e2 & -> & Hr2 & Hwr2).
  unfold floor. rewrite Hwr2. fold T. fold s.
  rewrite !js_gt_of_Z.
  assert (Hh : 0 <= h < 2 ^ 53).
  { subst h. split; [apply Z.div_pos; lia|].
    apply Z.le_lt_trans with T; [|lia]. apply Z.div_le_upper_bound; lia. }
  assert (Hmi : 0 <= mi < 2 ^ 53).
  { subst mi. pose proof (Z.mod_pos_bound T 3600 ltac:(lia)).
    split; [apply Z.div_pos; lia|].
    apply Z.le_lt_trans with (T mod 3600); [|lia]. apply Z.div_le_upper_bound; lia. }
  assert (Hs : 0 <= s < 2 ^ 53).
  { subst s. pose proof (Z.mod_pos_bound T 60 ltac:(lia)). lia. }
  rewrite !show_number_of_Z by done. done.
Qed.

(** ** Dividing by 1024 is exact *)

Lemma scaled_of_Z (n : Z) : scaled (of_Z n) n 0.
Proof. exists 0. split; [lia|]. unfold of_Z. simpl. f_equal. lia. Qed.

Lemma scaled_fdiv (x : JsNum) (n E : Z) :
  0 < n < 2 ^ 53 -> -1064 <= E <= 0 -> scaled x n E ->
  scaled (fdiv x (of_Z 1024)) n (E - 10).
Proof.
  intros Hn HE (e & He & ->). unfold fdiv, of_Z. simpl (1024 =? 0).
  rewrite Z.sub_0_r.
  pose proof (pow2_pos (E - e) ltac:(lia)) as HP.
  pose proof (pow2_pos (- e) ltac:(lia)) as HU.
  pose proof (pow2_pos (- E) ltac:(lia)) as HV.
  assert (Hsplit : 2 ^ (- e) = 2 ^ (- E) * 2 ^ (E - e)).
  { rewrite <- pow2_split by lia. f_equal. lia. }
  assert (H10 : 2 ^ (- (E - 10)) = 2 ^ (- E) * 1024).
  { replace (- (E - 10)) with (- E + 10) by lia. by rewrite pow2_split by lia. }
  unfold round_rat.
  destruct (Z.leb_spec 0 e) as [H|H].
  - assert (e = 0) by lia. assert (E = 0) by lia. subst e E. simpl.
    rewrite !Z.mul_1_r.
    destruct (Z.eqb_spec n 0); [lia|]. destruct (Z.ltb_spec 0 n); [|lia]. simpl.
    apply (round_pos_exact n 1024 n (-10)); [lia|lia|lia|]. simpl. lia.
  - destruct (Z.eqb_spec (n * 2 ^ (E - e)) 0); [nia|].
    destruct (Z.ltb_spec 0 (n * 2 ^ (E - e))); [|nia].
    destruct (Z.ltb_spec 0 (1024 * 2 ^ (- e))); [|lia]. simpl.
    apply (round_pos_exact _ _ n (E - 10)); [lia|lia|lia|].
    rewrite H10, Hsplit. ring.
Qed.

Lemma scaled_ge (x : JsNum) (n E : Z) :
  E <= 0 -> scaled x n E ->
  js_ge x (of_Z 1024) = (1024 * 2 ^ (- E) <=? n).
Proof.
  intros HE (e & He & ->). unfold js_ge, compare_num, of_Z.
  rewrite Z.min_l by lia. rewrite Z.sub_diag, Z.sub_0_l. simpl (2 ^ 0).
  rewrite Z.mul_1_r.
  pose proof (pow2_pos (E - e) ltac:(lia)) as HP.
  pose proof (pow2_pos (- E) ltac:(lia)) as HV.
  assert (Hsplit : 2 ^ (- e) = 2 ^ (- E) * 2 ^ (E - e)).
  { rewrite <- pow2_split by lia. f_equal. lia. }
  rewrite Hsplit.
  destruct (Z.compare_spec (n * 2 ^ (E - e)) (1024 * (2 ^ (- E) * 2 ^ (E - e))));
    destruct (Z.leb_spec (1024 * 2 ^ (- E)) n); done || nia.
Qed.

Lemma scaled_toFixed `{B : JsBuiltins} (x : JsNum) (n E : Z) :
  0 <= n < 2 ^ 53 -> E <= 0 -> scaled x n E ->
  toFixed x 2 = render_fixed false ((200 * n + 2 ^ (- E)) / (2 * 2 ^ (- E))) 2.
Proof.
  intros Hn HE (e & He & ->). unfold toFixed.
  pose proof (pow2_pos (E - e) ltac:(lia)) as HP.
  pose proof (pow2_pos (- E) ltac:(lia)) as HV.
  pose proof (pow2_pos (- e) ltac:(lia)) as HU.
  assert (Hsplit : 2 ^ (- e) = 2 ^ (E - e) * 2 ^ (- E)).
  { rewrite <- pow2_split by lia. f_equal. lia. }
  assert (H21 : 2 ^ 53 < 10 ^ 21) by done.
  assert (Hbelow : below_1e21 (n * 2 ^ (E - e)) e = true).
  { unfold below_1e21. destruct (Z.leb_spec 0 e).
    - assert (e = 0) by lia. assert (E = 0) by lia. subst e E. simpl (2 ^ (0 - 0)).
      simpl (2 ^ 0). apply Z.ltb_lt. lia.
    - apply Z.ltb_lt. rewrite Hsplit. rewrite Z.abs_eq by nia. nia. }
  rewrite Hbelow. destruct (Z.ltb_spec (n * 2 ^ (E - e)) 0); [nia|].
  f_equal. unfold fixed_units. rewrite Z.abs_eq by nia.
  change (10 ^ Z.of_nat 2) with 100.
  destruct (Z.leb_spec 0 e).
  - assert (e = 0) by lia. assert (E = 0) by lia. subst e E.
    change (2 ^ (0 - 0)) with 1. change (2 ^ (- 0)) with 1. change (2 ^ 0) with 1.
    apply Z.div_unique with (r := 1); lia.
  - rewrite Hsplit.
    replace (2 * (n * 2 ^ (E - e) * 100) + 2 ^ (E - e) * 2 ^ (- E))
      with (2 ^ (E - e) * (200 * n + 2 ^ (- E))) by ring.
    replace (2 * (2 ^ (E - e) * 2 ^ (- E)))
      with (2 ^ (E - e) * (2 * 2 ^ (- E))) by ring.
    apply Z.div_mul_cancel_l; lia.
Qed.

(** X19. [formatFileSize] of a whole number of bytes shows the size in
    the largest unit up to GB that it fills, rounded to the nearest
    hundredth of that unit: the divisions by 1024 are exact, and sizes
    from 1024 GB on stay in GB. *)
Theorem formatFileSize_nearest_hundredth `{B : JsBuiltins} (n : Z) :
  0 <= n < 2 ^ 53 ->
  let k := if n <? 2 ^ 10 then 0
           else if n <? 2 ^ 20 then 1
           else if n <? 2 ^ 30 then 2 else 3 in
  Formatting.formatFileSize (of_Z n) =
  render_fixed false ((200 * n + 1024 ^ k) / (2 * 1024 ^ k)) 2 +:+ " " +:+
  default "" (Formatting.units !! Z.to_nat k).
Proof.
  intros Hn. unfold Formatting.formatFileSize.
  pose proof (scaled_of_Z n) as H0.
  assert (Hstep : forall x E, -1064 <= E <= 0 -> 0 < n -> scaled x n E ->
            scaled (fdiv x (of_Z 1024)) n (E - 10)).
  { intros x E HE Hpos Hx. apply scaled_fdiv; [lia|done|done]. }
  simpl Formatting.formatFileSize_loop.
  change (0 <? 3)%nat with true. change (1 <? 3)%nat with true.
  change (2 <? 3)%nat with true. change (3 <? 3)%nat with false.
  rewrite !Bool.andb_true_r, Bool.andb_false_r.
  rewrite (scaled_ge _ n 0) by done. change (1024 * 2 ^ (- 0)) with 1024.
  destruct (Z.leb_spec 1024 n) as [G1|G1]; cbv iota.
  2:{ destruct (Z.ltb_spec n (2 ^ 10)); [|lia]. cbv beta iota zeta.
      rewrite (scaled_toFixed _ n 0) by done. done. }
  destruct (Z.ltb_spec n (2 ^ 10)); [lia|].
  pose proof (Hstep _ 0 ltac:(lia) ltac:(lia) H0) as S1. simpl (0 - 10) in S1.
  rewrite (scaled_ge _ n (-10)) by done. change (1024 * 2 ^ (- -10)) with 1048576.
  destruct (Z.leb_spec 1048576 n) as [G2|G2]; cbv iota.
  2:{ destruct (Z.ltb_spec n (2 ^ 20)); [|lia]. cbv beta iota zeta.
      rewrite (scaled_toFixed _ n (-10)) by (done || lia). done. }
  destruct (Z.ltb_spec n (2 ^ 20)); [lia|].
  pose proof (Hstep _ (-10) ltac:(lia) ltac:(lia) S1) as S2. simpl (-10 - 10) in S2.
  rewrite (scaled_ge _ n (-20)) by done. change (1024 * 2 ^ (- -20)) with 1073741824.
  destruct (Z.leb_spec 1073741824 n) as [G3|G3]; cbv iota.
  2:{ destruct (Z.ltb_spec n (2 ^ 30)); [|lia]. cbv beta iota zeta.
      rewrite (scaled_toFixed _ n (-20)) by (done || lia). done. }
  destruct (Z.ltb_spec n (2 ^ 30)); [lia|].
  pose proof (Hstep _ (-20) ltac:(lia) ltac:(lia) S2) as S3. simpl (-20 - 10) in S3.
  cbv beta iota zeta.
  rewrite (scaled_toFixed _ n (-30)) by (done || lia). done.
Qed.

(** ** The summary *)

Section SummaryFacts.
Import BatchProcessor.
Context `{B : JsBuiltins}.

Lemma text_preview_throws (text : JsValue) :
  (exists m, text_preview text = Throw m) <-> unprintable text.
Proof.
  unfold text_preview, unprintable. split.
  - intros [m H]. destruct (truthy text) eqn:Ht; [|done]. split; [done|].
    intros s ->. done.
  - intros [Ht Hs]. rewrite Ht. destruct text; eauto. by destruct (Hs s).
Qed.

Lemma results_lines_throws (k : nat) (rs : list JobResult) :
  (exists m, results_lines k rs = Throw m) <->
  Exists (fun r => unprintable (text r)) rs.
Proof.
  revert k. induction rs as [|r rs IH]; intros k; simpl.
  - split; [by intros [m ?]|]. intros H. inversion H.
  - rewrite Exists_cons, <- (IH (S k)), <- text_preview_throws.
    unfold result_lines. destruct (text_preview (text r)) as [p|m]; simpl.
    + destruct (results_lines (S k) rs) as [more|m']; simpl.
      * split; [by intros [m ?]|]. by intros [[m ?]|[m ?]].
      * split; eauto.
    + split; eauto.
Qed.

Lemma lookup_past_6 {A} (a b c d e f : A) (l : list A) (n : nat) :
  (a :: b :: c :: d :: e :: f :: l) !! (6 + n)%nat = l !! n.
Proof. done. Qed.

Lemma lookup_past_3 {A} (a b c : A) (l : list A) (n : nat) :
  (a :: b :: c :: l) !! (3 + n)%nat = l !! n.
Proof. done. Qed.

Lemma results_lines_entries (k : nat) (rs : list JobResult) (ls : list string) :
  results_lines k rs = Ok ls ->
  length ls = (6 * length rs)%nat /\
  forall i r, rs !! i = Some r ->
    ls !! (6 * i)%nat =
    Some (pretty (k + i + 1)%nat +:+ ". " +:+ path_basename (file r)).
Proof.
  revert k ls. induction rs as [|r rs IH]; intros k ls.
  - simpl. intros [= <-]. split; [done|]. intros i r Hi. done.
  - cbn [results_lines]. unfold result_lines.
    destruct (text_preview (text r)) as [p|m]; cbn [bindE]; [|done].
    destruct (results_lines (S k) rs) as [more|m'] eqn:Hmore; cbn [bindE]; [|done].
    intros Heq. injection Heq as Heq. subst ls.
    destruct (IH _ _ Hmore) as [Hlen Hent]. split.
    + cbn [length]. rewrite Hlen. lia.
    + intros [|i] r' Hi; simpl in Hi.
      * injection Hi as <-. rewrite Nat.mul_0_r.
        replace (k + 0 + 1)%nat with (k + 1)%nat by lia. done.
      * replace (6 * S i)%nat with (6 + 6 * i)%nat by lia. rewrite lookup_past_6.
        rewrite (Hent i r' Hi). do 3 f_equal. lia.
Qed.

Lemma errors_lines_entries (k : nat) (es : list JobError) :
  length (errors_lines k es) = (3 * length es)%nat /\
  forall i e, es !! i = Some e ->
    errors_lines k es !! (3 * i)%nat =
    Some (pretty (k + i + 1)%nat +:+ ". " +:+ error_file e).
Proof.
  revert k. induction es as [|e es IH]; intros k.
  - simpl. split; [done|]. intros i e Hi. done.
  - cbn [errors_lines error_lines app]. destruct (IH (S k)) as [Hlen Hent]. split.
    + cbn [length]. rewrite Hlen. lia.
    + intros [|i] e' Hi; simpl in Hi.
      * injection Hi as <-. rewrite Nat.mul_0_r.
        replace (k + 0 + 1)%nat with (k + 1)%nat by lia. done.
      * replace (3 * S i)%nat with (3 + 3 * i)%nat by lia. rewrite lookup_past_3.
        rewrite (Hent i e' Hi). do 3 f_equal. lia.
Qed.

End SummaryFacts.

(** X20. [generateSummary] throws exactly when the text of some result is
    a truthy value other than a string (a number, [true], an array or an
    object in the transcript), which has no [substring]; otherwise it
    returns the summary. *)
Theorem generateSummary_throws_iff `{B : JsBuiltins} (report : BatchProcessor.Report) :
  (exists m, BatchProcessor.generateSummary report = Throw m) <->
  Exists (fun r => BatchProcessor.unprintable (BatchProcessor.text r))
         (BatchProcessor.report_results report).
Proof.
  rewrite <- (results_lines_throws 0).
  unfold BatchProcessor.generateSummary, BatchProcessor.summary_lines.
  destruct (BatchProcessor.results_lines 0 (BatchProcessor.report_results report));
    simpl; split; eauto; by intros [m ?].
Qed.

(** X21. The summary lists every result and every error once, numbered
    from 1 in the order of the report: after the 13 lines of the header a
    result takes 6 lines starting with its number and the base name of
    its file; the section of failed files, 4 lines of heading and 3 lines
    per error starting with its number and its file, is there only when
    there are errors. *)
Theorem summary_lists_every_entry `{B : JsBuiltins}
    (report : BatchProcessor.Report) (lines : list string) :
  BatchProcessor.summary_lines report = Ok lines ->
  let rs := BatchProcessor.report_results report in
  let es := BatchProcessor.report_errors report in
  length lines =
    (13 + 6 * length rs + match es with [] => 0 | _ => 4 + 3 * length es end)%nat /\
  (forall i r, rs !! i = Some r ->
     lines !! (13 + 6 * i)%nat =
     Some (pretty (i + 1)%nat +:+ ". " +:+
           BatchProcessor.path_basename (BatchProcessor.file r))) /\
  (forall i e, es !! i = Some e ->
     lines !! (13 + 6 * length rs + 4 + 3 * i)%nat =
     Some (pretty (i + 1)%nat +:+ ". " +:+ BatchProcessor.error_file e) /\
     lines !! (13 + 6 * length rs + 1)%nat = Some "FAILED FILES:").
Proof.
  intros H rs es. unfold BatchProcessor.summary_lines in H. fold rs es in H.
  destruct (BatchProcessor.results_lines 0 rs) as [body|m] eqn:Hbody;
    cbn [bindE] in H; [|done].
  assert (Hlines : lines = BatchProcessor.header report ++ body ++
                           BatchProcessor.failed_section es) by congruence.
  clear H. subst lines.
  destruct (results_lines_entries 0 rs body Hbody) as [Hlen Hent].
  destruct (errors_lines_entries 0 es) as [Hlen' Hent'].
  assert (Hhead : length (BatchProcessor.header report) = 13%nat) by done.
  split; [|split].
  - rewrite !length_app, Hhead, Hlen. unfold BatchProcessor.failed_section.
    destruct es as [|e es']; [done|].
    change (0 <? length (e :: es'))%nat with true. cbv iota.
    rewrite length_app, Hlen'. simpl. lia.
  - intros i r Hi.
    rewrite lookup_app_r by (rewrite Hhead; lia).
    rewrite Hhead. replace (13 + 6 * i - 13)%nat with (6 * i)%nat by lia.
    apply lookup_lt_Some in Hi as Hi'.
    rewrite lookup_app_l by lia. by rewrite (Hent i r Hi).
  - intros i e Hi.
    assert (Hne : (0 <? length es)%nat = true).
    { apply lookup_lt_Some in Hi. apply Nat.ltb_lt. lia. }
    unfold BatchProcessor.failed_section. rewrite Hne. split.
    + rewrite lookup_app_r by (rewrite Hhead; lia).
      rewrite lookup_app_r by (rewrite Hhead, Hlen; lia).
      rewrite Hhead, Hlen.
      replace (13 + 6 * length rs + 4 + 3 * i - 13 - 6 * length rs)%nat
        with (4 + 3 * i)%nat by lia.
      change (BatchProcessor.errors_lines 0 es !! (3 * i)%nat =
              Some (pretty (i + 1)%nat +:+ ". " +:+ BatchProcessor.error_file e)).
      by rewrite (Hent' i e Hi).
    + rewrite lookup_app_r by (rewrite Hhead; lia).
      rewrite lookup_app_r by (rewrite Hhead, Hlen; lia).
      rewrite Hhead, Hlen.
      by replace (13 + 6 * length rs + 1 - 13 - 6 * length rs)%nat with 1%nat by lia.
Qed.

(** ** More on merging *)

Section MergeFacts.
Import BatchProcessor Merging.
Context `{B : JsBuiltins}.




End MergeFacts.



(** ** Results come group by group *)

Lemma slice_map {A C} (f : A -> C) (items : list A) (i j : Z) :
  slice (map f items) i j = map f (slice items i j).
Proof. unfold slice. rewrite length_map. by rewrite skipn_map, firstn_map. Qed.

Lemma createBatches_loop_map {A C} (f : A -> C) (items : list A) (b : Z) (fuel : nat) :
  forall i acc,
    createBatches_loop fuel (map f items) b i (map (map f) acc) =
    option_map (map (map f)) (createBatches_loop fuel items b i acc).
Proof.
  induction fuel as [|fuel IH]; intros i acc; simpl; [done|].
  rewrite length_map. destruct (i <? Z.of_nat (length items)); [|done].
  rewrite <- IH. f_equal. rewrite map_app. simpl. by rewrite slice_map.
Qed.

Lemma createBatches_map {A C} (f : A -> C) (items : list A) (b : Z) :
  createBatches (map f items) b = option_map (map (map f)) (createBatches items b).
Proof.
  unfold createBatches. rewrite length_map.
  apply (createBatches_loop_map f items b (S (length items)) 0 []).
Qed.

Section Groups.
Context `{B : JsBuiltins}.
Variables (p : t) (w : World).

Lemma settling_groups (batches : list (list Job)) : forall k,
  final_rejection p w k batches = None ->
  exists per_group per_group_errors,
    oks p w (settling p w k batches) = concat per_group /\
    errs p w (settling p w k batches) = concat per_group_errors /\
    length per_group = length batches /\
    length per_group_errors = length batches /\
    forall i rs es g,
      per_group !! i = Some rs -> per_group_errors !! i = Some es ->
      batches !! i = Some g ->
      map file rs ++ map error_file es ≡ₚ map job_file g.
Proof.
  induction batches as [|g rest IH]; intros k H; simpl in *.
  - exists [], []. repeat split; done.
  - destruct (group_rejection p w k g); [done|].
    destruct (IH (S k) H) as (per & pes & Ho & He & Hl1 & Hl2 & Hall).
    exists (oks p w (order_of w k g) :: per), (errs p w (order_of w k g) :: pes).
    rewrite oks_app, errs_app, Ho, He. simpl. rewrite Hl1, Hl2.
    repeat split; try done.
    intros [|i] rs es g' Hrs Hes Hg; simpl in *.
    + injection Hrs as <-. injection Hes as <-. injection Hg as <-.
      rewrite files_of_outcomes. apply map_job_file_Permutation.
      apply completion_order_Permutation.
    + by apply (Hall i).
Qed.

End Groups.

(** X24. With any concurrency, results and errors come group by group:
    the results [processFiles] returns are the results of the first group
    of files, then those of the second, and so on, and so are its errors;
    inside a group the order is the order in which the jobs settled, and
    the results and errors of a group are together the files of that
    group. *)
Theorem results_come_group_by_group `{B : JsBuiltins} (p : t) (w : World)
    (files : list string) (r : BatchReturn) :
  ret (processFiles p w files) = Returns r ->
  exists batches per_group per_group_errors,
    createBatches files (concurrency p) = Some batches /\
    results r = concat per_group /\
    errors r = concat per_group_errors /\
    length per_group = length batches /\
    length per_group_errors = length batches /\
    forall i rs es g,
      per_group !! i = Some rs -> per_group_errors !! i = Some es ->
      batches !! i = Some g ->
      map file rs ++ map error_file es ≡ₚ g.
Proof.
  intros (bs & _ & _ & _ & Hb & Hcat & Hr & -> & -> & _)%processFiles_Returns.
  destruct (settling_groups p w bs 0 Hr) as (per & pes & Ho & He & Hl1 & Hl2 & Hall).
  exists (map (map job_file) bs), per, pes.
  split.
  - rewrite <- (job_files_from files 0). fold (jobs_of files).
    rewrite createBatches_map, Hb. done.
  - rewrite length_map. repeat split; try done.
    intros i rs es g Hrs Hes Hg.
    rewrite list_lookup_fmap in Hg.
    destruct (bs !! i) as [g0|] eqn:Hg0; [|done]. injection Hg as <-.
    by apply (Hall i).
Qed.



(** ** The page *)

Lemma padStart_seconds (s : Z) :
  0 <= s < 60 ->
  App.padStart 2 "0" (pretty s) = (if s <? 10 then "0" else "") +:+ pretty s.
Proof.
  intros Hs.
  assert (H : forall k, (k < 60)%nat ->
            App.padStart 2 "0" (pretty (Z.of_nat k)) =
            (if Z.of_nat k <? 10 then "0" else "") +:+ pretty (Z.of_nat k)).
  { intros k Hk.
    do 60 (destruct k as [|k]; [vm_compute; reflexivity|]). lia. }
  rewrite <- (Z2Nat.id s) by lia. apply H. lia.
Qed.

(** X26. [formatTime] shows the whole seconds of a time as minutes, a
    colon, and the seconds of the minute on two digits; the minutes are
    not limited to 59, and no rounding moves a time up to the next
    second or minute. *)
Theorem formatTime_whole_seconds `{B : JsBuiltins} (m e : Z) :
  safe m e ->
  let T := whole m e in
  App.formatTime (Fin m e) =
  pretty (T / 60) +:+ ":" +:+ (if T mod 60 <? 10 then "0" else "") +:+ pretty (T mod 60).
Proof.
  intros Hsafe T. unfold App.formatTime.
  pose proof (whole_safe m e Hsafe) as HT. fold T in HT.
  rewrite (floor_fdiv m e 60) by done. fold T.
  destruct (fmod_whole m e 60 Hsafe ltac:(done)) as (r & e' & -> & Hr & Hwr).
  unfold floor. rewrite Hwr. fold T.
  pose proof (Z.mod_pos_bound T 60 ltac:(lia)) as Hs.
  assert (Hq : 0 <= T / 60 < 2 ^ 53).
  { split; [apply Z.div_pos; lia|].
    apply Z.le_lt_trans with T; [|lia]. apply Z.div_le_upper_bound; lia. }
  rewrite !show_number_of_Z by lia.
  by rewrite padStart_seconds by done.
Qed.

(** X27. [handleFileSelect] takes a file exactly when its type starts
    with [audio] or with [video] and its size is at most 500 MB: the
    eight listed types only contribute their first component, and a file
    of exactly 500 MB passes. *)
Theorem handleFileSelect_accepts_iff (type : string) (size : Z) :
  App.handleFileSelect type size = App.Selected <->
  (String.prefix "audio" type = true \/ String.prefix "video" type = true) /\
  size <= 524288000.
Proof.
  unfold App.handleFileSelect.
  assert (Hany : existsb (fun valid => String.prefix (App.before_slash valid) type)
                   App.validTypes =
                 String.prefix "audio" type || String.prefix "video" type).
  { change (existsb (fun valid => String.prefix (App.before_slash valid) type)
              App.validTypes)
      with (String.prefix "audio" type || (String.prefix "audio" type ||
            (String.prefix "audio" type || (String.prefix "audio" type ||
            (String.prefix "audio" type || (String.prefix "audio" type ||
            (String.prefix "audio" type || (String.prefix "video" type || false)))))))).
    destruct (String.prefix "audio" type), (String.prefix "video" type); done. }
  rewrite Hany. change (500 * 1024 * 1024) with 524288000.
  destruct (String.prefix "audio" type), (String.prefix "video" type);
    destruct (Z.ltb_spec 524288000 size); simpl; split;
    try done; try (intros [[?|?] ?]; done || lia); intros _; (split; [auto|lia]).
Qed.

(** ** The upload route *)

Section ServerFacts.
Import WhisperTranscriber Server Streams.
Context `{B : JsBuiltins}.

Lemma responses_send (req : Request) (m : Message) : responses (send req m) = [].
Proof. unfold send. by destruct (connected req). Qed.

Lemma unlinks_send (req : Request) (m : Message) : unlinks (send req m) = [].
Proof. unfold send. by destruct (connected req). Qed.

Lemma responses_app (a b : list Effect) : responses (a ++ b) = responses a ++ responses b.
Proof. apply omap_app. Qed.

Lemma unlinks_app (a b : list Effect) : unlinks (a ++ b) = unlinks a ++ unlinks b.
Proof. apply omap_app. Qed.

Lemma responses_prelude (req : Request) (ai : option AudioInfo) :
  responses (prelude req ai) = [].
Proof.
  unfold prelude, send. by destruct ai, (connected req).
Qed.

Lemma unlinks_prelude (req : Request) (ai : option AudioInfo) :
  unlinks (prelude req ai) = [].
Proof.
  unfold prelude, send. by destruct ai, (connected req).
Qed.

(** The three ways the [try] block ends. *)
Lemma attempt_spec (w : JobWorld) (req : Request) (p : string) :
  exists ai,
    getAudioInfo w p = Ok ai /\
    attempt w req p =
    match transcribe w p "json" with
    | Throw m => (prelude req ai, Throw m)
    | Ok result =>
        match get_prop result "text" with
        | Throw m => (prelude req ai ++ [Unlink p], Throw m)
        | Ok text =>
            (prelude req ai ++ [Unlink p] ++
             [Respond 200 (Transcribed text (get_prop_opt result "language")
                             (get_prop_opt result "segments")
                             (duration <$> (describe <$> ai)) (describe <$> ai))] ++
             send req (Complete "Transcription completed successfully"),
             Ok tt)
        end
    end.
Proof.
  destruct (getAudioInfo_total w p) as [ai Hai]. exists ai. split; [done|].
  unfold attempt, prelude. rewrite Hai.
  destruct (transcribe w p "json") as [result|m]; [|done].
  destruct result; simpl; by rewrite <- ?app_assoc.
Qed.

End ServerFacts.


(** X29. The uploaded file is removed once, except when the transcript
    whisper wrote is [null]: the handler has removed the file when it
    reads the text of that transcript, the read throws, and the [catch]
    block removes the file a second time before it answers 500 with the
    TypeError's message. *)
Theorem upload_is_removed_once_or_twice `{B : JsBuiltins}
    (w : WhisperTranscriber.JobWorld) (req : Server.Request) (p : string) :
  Server.file req = Some p -> p <> "" ->
  (Server.unlinks (Server.handler w req) = [p] \/
   Server.unlinks (Server.handler w req) = [p; p]) /\
  (Server.unlinks (Server.handler w req) = [p; p] <->
   exists result, WhisperTranscriber.transcribe w p "json" = Ok result /\
                  Streams.nullish result) /\
  (forall result m,
     WhisperTranscriber.transcribe w p "json" = Ok result ->
     get_prop result "text" = Throw m ->
     Server.responses (Server.handler w req) = [(500, Server.Refused m)]).
Proof.
  intros Hfile Hp. unfold Server.handler. rewrite Hfile.
  assert (Htruthy : truthy (VStr p) = true).
  { simpl. by destruct (String.eqb_spec p ""). }
  rewrite Htruthy.
  destruct (attempt_spec w req p) as (ai & _ & ->).
  pose proof (responses_prelude req ai) as Hr.
  pose proof (unlinks_prelude req ai) as Hu.
  destruct (WhisperTranscriber.transcribe w p "json") as [result|m].
  - destruct (get_prop result "text") as [text|m] eqn:Ht.
    + rewrite !unlinks_app, Hu, unlinks_send. simpl.
      split; [by left|]. split.
      * split; [done|]. intros (result' & [= <-] & Hn).
        apply (get_prop_throws result "text") in Hn as [m Hm]. congruence.
      * intros result' m' [= <-] Hm'. congruence.
    + rewrite !unlinks_app, !responses_app, Hu, Hr,
        unlinks_send, responses_send. simpl.
      split; [by right|]. split.
      * split; [|done]. intros _. exists result. split; [done|].
        apply (get_prop_throws result "text"). eauto.
      * intros result' m' [= <-] Hm'. congruence.
  - rewrite !unlinks_app, Hu, unlinks_send. simpl.
    split; [by left|]. split; [|done]. split; [done|]. by intros (result' & ? & _).
Qed.

(** ** The summary step in a run *)

Section SummaryStep.
Import BatchProcessor.
Context `{B : JsBuiltins}.
Variables (p : t) (w : World).

(** Once the report is on disk, the call ends as the summary step does. *)
Lemma processFiles_after_report (files : list string) (report : Report) :
  saved (processFiles p w files) = Some report ->
  ret (processFiles p w files) =
  match generateSummary report with
  | Throw m => Throws m
  | Ok _ =>
      match writeSummary w with
      | Ok _ => Returns {| results := report_results report;
                           errors := report_errors report;
                           batch_duration := Some (report_duration report) |}
      | Throw m => Throws m
      end
  end.
Proof.
  unfold processFiles. destruct (mkdirOutput w); [|done].
  destruct (createBatches (jobs_of files) (concurrency p)) as [batches|]; [|done].
  rewrite run_batches_spec by done. simpl.
  destruct (final_rejection p w 0 batches) eqn:Hr; [done|].
  unfold saveReport. destruct (writeReport w); [|done].
  destruct (generateSummary _) as [summary|m] eqn:Hs; simpl.
  - destruct (writeSummary w); simpl; intros [= <-]; by rewrite Hs.
  - intros [= <-]. by rewrite Hs.
Qed.

Lemma generateSummary_unprintable (report : Report) :
  Exists (fun x => unprintable (text x)) (report_results report) ->
  exists m, generateSummary report = Throw m.
Proof.
  intros [m Hm]%(results_lines_throws 0).
  exists m. unfold generateSummary, summary_lines. by rewrite Hm.
Qed.

End SummaryStep.

(** X30. A transcript whose text is a truthy value other than a string
    fails the whole batch, after the report is written: the summary
    cannot be built, so once such a result is in the saved report
    [processFiles] throws the error of the build, whatever the file
    system does; and whenever [processFiles] returns, the text of every
    result is a string or falsy. *)
Theorem unprintable_text_fails_the_batch `{B : JsBuiltins} (p : t) (w : World)
    (files : list string) :
  (forall report,
     saved (processFiles p w files) = Some report ->
     Exists (fun x => unprintable (text x)) (report_results report) ->
     exists m, ret (processFiles p w files) = Throws m /\
               generateSummary report = Throw m) /\
  (forall r, ret (processFiles p w files) = Returns r ->
     Forall (fun x => ~ unprintable (text x)) (results r)).
Proof.
  split.
  - intros report Hsaved Hex.
    destruct (generateSummary_unprintable report Hex) as [m Hm].
    exists m. split; [|done].
    rewrite (processFiles_after_report p w files report Hsaved). by rewrite Hm.
  - intros r (bs & _ & _ & _ & _ & _ & _ & _ & _ & _ & _ &
               report & summary & _ & Hres & Hs)%processFiles_Returns.
    apply Forall_forall. intros x Hx Hbad.
    destruct (generateSummary_unprintable report) as [m Hgen]; [|congruence].
    apply Exists_exists. exists x. split; [by rewrite Hres|done].
Qed.

(** * The properties above, on runs that can be evaluated *)

(** Five files two at a time: three groups, the last of one file. *)
Lemma createBatches_partition_sample :
  exists batches,
    createBatches Sample.five 2 = Some batches /\
    concat batches = Sample.five /\
    Z.of_nat (length batches) = 3 /\
    batches !! 2%nat = Some ["e.mp3"].
Proof.
  destruct (createBatches_partition Sample.five 2 ltac:(lia)) as (bs & E & Hc & Hn & Hg).
  exists bs. split; [exact E|]. split; [exact Hc|]. split; [rewrite Hn; reflexivity|].
  vm_compute in E. injection E as <-. reflexivity.
Defined.

Lemma processFiles_accounts_for_every_file_sample :
  exists r,
    ret (processFiles (B := Sample.builtins false) Sample.tolerant
           (Sample.world [] 2) Sample.five) = Returns r /\
    map file (results r) ++ map error_file (errors r) ≡ₚ Sample.five.
Proof.
  eexists. split; [vm_compute; reflexivity|].
  apply (processFiles_accounts_for_every_file (B := Sample.builtins false)
           Sample.tolerant (Sample.world [] 2) Sample.five).
  vm_compute. reflexivity.
Defined.

Lemma processDirectory_accounts_for_every_audio_file_sample :
  exists r,
    ret (processDirectory (B := Sample.builtins false) Sample.tolerant
           Scenes.calm "audio") = Returns r /\
    map file (results r) ++ map error_file (errors r)
      ≡ₚ ["audio/a.mp3"; "audio/sub/b.wav"].
Proof.
  eexists. split; [vm_compute; reflexivity|].
  refine (proj1 (processDirectory_accounts_for_every_audio_file
                   (B := Sample.builtins false) Sample.tolerant Scenes.calm "audio" _ _)).
  vm_compute. reflexivity.
Defined.

Lemma processFiles_throws_only_from_its_own_steps_sample :
  ret (processFiles (B := Sample.builtins false) Sample.tolerant
         Scenes.full_disk Sample.five) =
  Throws "ENOSPC: no space left on device".
Proof.
  apply (proj2 (processFiles_throws_only_from_its_own_steps
                  (B := Sample.builtins false) Sample.tolerant Scenes.full_disk
                  Sample.five "ENOSPC: no space left on device" eq_refl eq_refl)).
  right. right. eexists. split; [vm_compute; reflexivity|].
  right. split; [eexists; vm_compute; reflexivity|reflexivity].
Defined.

Lemma processFiles_sequential_keeps_order_sample :
  exists r,
    ret (processFiles (B := Sample.builtins false) Scenes.plain
           (Sample.world [] 2) Sample.five) = Returns r /\
    sublist (map file (results r)) Sample.five /\
    sublist (map error_file (errors r)) Sample.five.
Proof.
  eexists. split; [vm_compute; reflexivity|].
  refine (proj2 (proj2 (processFiles_sequential_keeps_order
                          (B := Sample.builtins false) Scenes.plain
                          (Sample.world [] 2) Sample.five _ eq_refl _))).
  vm_compute. reflexivity.
Defined.


Lemma processFiles_of_nothing_sample :
  saved (processFiles (B := Sample.builtins false) Scenes.stuck Scenes.calm []) =
  Some {| report_results := []; report_errors := [];
          report_duration := fdiv (of_Z 120000) (of_Z 1000);
          totalFiles := 0; successful := 0; failed := 0 |}.
Proof.
  rewrite (processFiles_of_nothing (B := Sample.builtins false) Scenes.stuck Scenes.calm
             eq_refl eq_refl eq_refl).
  reflexivity.
Defined.


Lemma processFile_does_not_depend_on_the_probe_sample :
  match processFile (B := Sample.builtins false) Sample.tolerant Sample.good "a.mp3",
        processFile (B := Sample.builtins false) Sample.tolerant Sample.unprobed "a.mp3"
  with
  | Ok r, Ok r' =>
      file r = file r' /\ processingTime r = processingTime r' /\
      text r = text r' /\ language r = language r'
  | Throw m, Throw m' => m = m'
  | _, _ => False
  end.
Proof.
  apply (processFile_does_not_depend_on_the_probe (B := Sample.builtins false)
           Sample.tolerant Sample.good Sample.unprobed "a.mp3");
    reflexivity.
Defined.

Lemma batch_errors_name_a_file_and_a_cause_sample :
  exists i,
    Sample.five !! i = Some "c.mp3" /\
    processFile (B := Sample.builtins false) Sample.tolerant
      (jobWorld (Sample.world [] 2) i) "c.mp3" =
    Throw "Transcription error: exit code 1".
Proof.
  assert (Hrun : exists r,
            ret (processFiles (B := Sample.builtins false) Sample.tolerant
                   (Sample.world [] 2) Sample.five) = Returns r /\
            errors r = [{| error_file := "c.mp3";
                           error := "Transcription error: exit code 1" |}]).
  { eexists. split; vm_compute; reflexivity. }
  destruct Hrun as (r & Hret & Herr).
  destruct (batch_errors_name_a_file_and_a_cause (B := Sample.builtins false)
              Sample.tolerant (Sample.world [] 2) Sample.five r
              {| error_file := "c.mp3"; error := "Transcription error: exit code 1" |}
              Hret)
    as (i & Hi & Hthrow & _).
  - rewrite Herr. apply elem_of_cons. left. reflexivity.
  - exists i. split; [exact Hi|exact Hthrow].
Defined.

Lemma transcribeBatch_transcript_sample :
  exists i result,
    ["a.mp3"; "b.mp3"] !! i = Some "a.mp3" /\
    WhisperTranscriber.transcribe (B := Sample.builtins false)
      (Sample.good) "a.mp3" "json" = Ok result /\
    get_prop_opt result "text" = VStr "hello world".
Proof.
  destruct (transcribeBatch_transcript (B := Sample.builtins false)
              (fun i => match i with O => Sample.good | _ => Sample.bad end)
              ["a.mp3"; "b.mp3"] None
              {| TranscribeBatch.item_file := "a.mp3"; TranscribeBatch.success := true;
                 TranscribeBatch.transcript := VStr "hello world" |})
    as (i & result & Hi & Hres & Ht & _).
  - vm_compute. apply elem_of_cons. left. reflexivity.
  - destruct i as [|[|i]]; [|discriminate Hi|discriminate Hi].
    exists 0%nat, result. split; [exact Hi|]. split; [exact Hres|].
    vm_compute in Hres. injection Hres as <-. reflexivity.
Defined.



(** 3599.5 seconds are shown as 59 minutes 59 seconds. *)
Lemma formatDuration_whole_seconds_sample :
  Formatting.formatDuration (B := Sample.builtins false) (Fin 7199 (-1)) = "59m 59s".
Proof.
  rewrite (formatDuration_whole_seconds (B := Sample.builtins false) 7199 (-1)).
  - vm_compute. reflexivity.
  - split; [lia|]. intros H. lia.
Defined.

(** 1536 bytes are a kilobyte and a half. *)
Lemma formatFileSize_nearest_hundredth_sample :
  Formatting.formatFileSize (B := Sample.builtins false) (of_Z 1536) = "1.50 KB".
Proof.
  rewrite (formatFileSize_nearest_hundredth (B := Sample.builtins false) 1536).
  - vm_compute. reflexivity.
  - lia.
Defined.

Lemma summary_lists_every_entry_sample :
  exists lines,
    BatchProcessor.summary_lines (B := Sample.builtins false) Scenes.report = Ok lines /\
    length lines = 32%nat /\
    lines !! 19%nat = Some "2. b.wav" /\
    lines !! 29%nat = Some "1. audio/c.mp3".
Proof.
  eexists. split; [vm_compute; reflexivity|].
  destruct (summary_lists_every_entry (B := Sample.builtins false) Scenes.report _
              ltac:(vm_compute; reflexivity)) as (Hlen & Hres & Herr).
  split; [exact Hlen|]. split.
  - exact (Hres 1%nat _ eq_refl).
  - exact (proj1 (Herr 0%nat _ eq_refl)).
Defined.


Lemma results_come_group_by_group_sample :
  exists r per_group,
    ret (processFiles (B := Sample.builtins false) Sample.tolerant
           (Sample.world [] 2) Sample.five) = Returns r /\
    results r = concat per_group /\
    length per_group = 3%nat.
Proof.
  assert (Hrun : exists r,
            ret (processFiles (B := Sample.builtins false) Sample.tolerant
                   (Sample.world [] 2) Sample.five) = Returns r).
  { eexists. vm_compute. reflexivity. }
  destruct Hrun as (r & Hret).
  destruct (results_come_group_by_group (B := Sample.builtins false) Sample.tolerant
              (Sample.world [] 2) Sample.five r Hret)
    as (batches & per & pes & Hb & Hres & _ & Hlen & _).
  exists r, per. split; [exact Hret|]. split; [exact Hres|].
  rewrite Hlen. vm_compute in Hb. injection Hb as <-. reflexivity.
Defined.


(** 1259 seconds are shown as 20:59, and 125.5 seconds as 2:05. *)
Lemma formatTime_whole_seconds_sample :
  App.formatTime (B := Sample.builtins false) (Fin 1259 0) = "20:59" /\
  App.formatTime (B := Sample.builtins false) (Fin 251 (-1)) = "2:05".
Proof.
  split.
  - rewrite (formatTime_whole_seconds (B := Sample.builtins false) 1259 0).
    + vm_compute. reflexivity.
    + split; [lia|]. intros _. vm_compute. reflexivity.
  - rewrite (formatTime_whole_seconds (B := Sample.builtins false) 251 (-1)).
    + vm_compute. reflexivity.
    + split; [lia|]. intros H. lia.
Defined.


Lemma upload_is_removed_once_or_twice_sample :
  Server.unlinks (Server.handler (B := Scenes.builtins) Scenes.hollow Scenes.upload) =
  ["uploads/1700000000000-a1b2c3d4e5f6.mp4"; "uploads/1700000000000-a1b2c3d4e5f6.mp4"] /\
  Server.responses (Server.handler (B := Scenes.builtins) Scenes.hollow Scenes.upload) =
  [(500, Server.Refused "Cannot read properties of null (reading 'text')")].
Proof.
  destruct (upload_is_removed_once_or_twice (B := Scenes.builtins)
              Scenes.hollow Scenes.upload "uploads/1700000000000-a1b2c3d4e5f6.mp4"
              eq_refl ltac:(discriminate))
    as (_ & Htwice & Hanswer).
  split.
  - apply Htwice. exists VNull. split; [vm_compute; reflexivity|]. left. reflexivity.
  - apply (Hanswer VNull); [vm_compute; reflexivity|reflexivity].
Defined.

(** whisper leaves the number 42 as the text of the one file: the report
    is written, and the call throws. *)
Lemma unprintable_text_fails_the_batch_sample :
  ret (processFiles (B := Scenes.builtins) Sample.tolerant Scenes.numbers ["a.mp3"]) =
    Throws "result.text.substring is not a function" /\
  is_Some (saved (processFiles (B := Scenes.builtins) Sample.tolerant Scenes.numbers
                    ["a.mp3"])).
Proof.
  split; [|eexists; vm_compute; reflexivity].
  assert (Hsaved : exists report,
            saved (processFiles (B := Scenes.builtins) Sample.tolerant Scenes.numbers
                     ["a.mp3"]) = Some report /\
            Exists (fun x => unprintable (text x)) (report_results report)).
  { eexists. split; [vm_compute; reflexivity|].
    apply Exists_cons_hd. split; [reflexivity|]. intros s. discriminate. }
  destruct Hsaved as (report & Hsaved & Hex).
  destruct (proj1 (unprintable_text_fails_the_batch (B := Scenes.builtins)
                     Sample.tolerant Scenes.numbers ["a.mp3"])
              report Hsaved Hex)
    as (m & Hret & Hgen).
  vm_compute in Hsaved. injection Hsaved as <-.
  vm_compute in Hgen. injection Hgen as <-. exact Hret.
Defined.

